(** * imapmover: a shallow embedding of the synchronisation core

    The development follows the two source files that carry the logic:
    - [imapmover/cli.py]: [_folder_matcher], the ordered include / exclude
      folder filter;
    - [imapmover/mover.py]: [_chunk_messages], the chunk planner, and
      [_imap_sync_core], the per-run orchestration (folder mapping with
      [fix_path], missing-folder creation, deduplication on the identifying
      headers, chunked transfer with flag filtering).

    Python values are modelled as follows: [str] and [bytes] as [string],
    [int] as [Z], a [list] as [list], a [dict] as an association list in
    insertion order, a [set] as a [gset].  Calls on the two IMAP connections
    are interpreted over an in-memory server and recorded in a call log. *)

From Stdlib Require Import ZArith String Ascii List Lia Sorted.
From stdpp Require Import base option list strings gmap sets.

Local Open Scope string_scope.

(** ** Python primitives used by the sources *)

Module Py.

(** Exceptions that the modelled code can raise. *)
Inductive exn :=
| IndexError
| AttributeError
| ValueError
| NameError
| IMAPClientError (msg : string).

(** [old] occurs in [s] at the current position. *)
Definition startswith (s old : string) : bool := String.prefix old s.

(** Left-to-right scan of [str.replace] for a non-empty [old]: [skip]
    counts the characters of a match that are still to be dropped. *)
Fixpoint replace_scan (old new : string) (skip : nat) (s : string) : string :=
  match s with
  | EmptyString => EmptyString
  | String c rest =>
      match skip with
      | S k => replace_scan old new k rest
      | O =>
          if startswith s old
          then new +:+ replace_scan old new (String.length old - 1) rest
          else String c (replace_scan old new 0 rest)
      end
  end.

(** [str.replace] with an empty [old]: [new] goes before every character
    and at the end. *)
Fixpoint replace_empty (new : string) (s : string) : string :=
  match s with
  | EmptyString => new
  | String c rest => new +:+ String c (replace_empty new rest)
  end.

(** [s.replace(old, new)] *)
Definition str_replace (s old new : string) : string :=
  match old with
  | EmptyString => replace_empty new s
  | String _ _ => replace_scan old new 0 s
  end.

(** Scan of [str.split(sep)] for a non-empty [sep]; [cur] is the part
    being accumulated. *)
Fixpoint split_scan (sep : string) (skip : nat) (cur : string) (s : string)
  : list string :=
  match s with
  | EmptyString => [cur]
  | String c rest =>
      match skip with
      | S k => split_scan sep k cur rest
      | O =>
          if startswith s sep
          then cur :: split_scan sep (String.length sep - 1) EmptyString rest
          else split_scan sep 0 (cur +:+ String c EmptyString) rest
      end
  end.

(** [s.split(sep)]: an empty separator raises [ValueError]. *)
Definition str_split (s sep : string) : exn + list string :=
  match sep with
  | EmptyString => inl ValueError
  | String _ _ => inr (split_scan sep 0 EmptyString s)
  end.

(** The two shapes of object compared by the membership test of the
    per-folder loop: a [str], and a [(str, tuple)] pair. *)
Inductive obj :=
| Str (s : string)
| Pair (s : string) (flags : list string).

(** Python [==]: objects of different types are never equal. *)
Definition eqb (a b : obj) : bool :=
  match a, b with
  | Str s, Str t => String.eqb s t
  | Pair s f, Pair t g => String.eqb s t && bool_decide (f = g)
  | _, _ => false
  end.

(** [x in l] on a list: some element compares equal to [x]. *)
Definition contains (l : list obj) (x : obj) : bool := existsb (eqb x) l.

(** [l[i:j]] for in-range, non-negative bounds. *)
Definition slice {A} (l : list A) (i j : nat) : list A := take (j - i) (drop i l).

(** [-(-n // k)]: the number of batches of size [k] covering [n] items. *)
Definition ceil_div (n k : nat) : nat := Z.to_nat (- ((- Z.of_nat n) / Z.of_nat k)).

(** [d[k] = v] on an insertion-ordered dict: an existing key keeps its
    position, a new key goes last. *)
Fixpoint dict_set {K V} `{EqDecision K} (d : list (K * V)) (k : K) (v : V)
  : list (K * V) :=
  match d with
  | [] => [(k, v)]
  | (k', v') :: rest =>
      if decide (k' = k) then (k, v) :: rest else (k', v') :: dict_set rest k v
  end.

End Py.

(** ** [fnmatch]: the wildcard fragment

    [fnmatch.filter] belongs to the Python library; the filter below takes
    the matcher as a parameter.  [wildcard_match] implements the patterns
    built from literal characters, [?] and [*] over bytes, and is used to
    run the filter on concrete inputs; character classes and characters
    outside ASCII are not modelled. *)

Fixpoint wildcard_match (pat : string) : string -> bool :=
  match pat with
  | EmptyString => fun name => match name with EmptyString => true | _ => false end
  | String p pat' =>
      if Ascii.eqb p "*" then
        fix star (name : string) : bool :=
          wildcard_match pat' name ||
          match name with
          | EmptyString => false
          | String _ name' => star name'
          end
      else if Ascii.eqb p "?" then
        fun name =>
          match name with
          | EmptyString => false
          | String _ name' => wildcard_match pat' name'
          end
      else
        fun name =>
          match name with
          | EmptyString => false
          | String c name' => Ascii.eqb p c && wildcard_match pat' name'
          end
  end.

Definition fnmatchcase (name pat : string) : bool := wildcard_match pat name.

(** ** cli.py *)

Module Cli.

Section Matcher.

(** [fnmatch name pat]: does [name] match the glob [pat]. *)
Variable fnmatch : string -> string -> bool.

(** [fnmatch.filter(names, pat)] *)
Definition fnmatch_filter (names : list string) (pat : string) : list string :=
  List.filter (fun name => fnmatch name pat) names.

(** The local variable [result] either names the very list object that
    was passed in as [folder_list], or a list of its own. *)
Inductive result_var :=
| SameObject
| OwnList (l : list string).

Record store := Store {
  folder_list : list string;
  result : result_var
}.

(** The contents [result] currently refers to. *)
Definition deref (st : store) : list string :=
  match result st with
  | SameObject => folder_list st
  | OwnList l => l
  end.

(** [result.append(name)]: through an alias the caller's list grows. *)
Definition append_result (st : store) (name : string) : store :=
  match result st with
  | SameObject => Store (folder_list st ++ [name]) SameObject
  | OwnList l => Store (folder_list st) (OwnList (l ++ [name]))
  end.

(** [result.extend(name for name in include if name not in result)]:
    the generator is consumed while the list grows, so each test sees
    the names appended before it. *)
Fixpoint extend_new (include : list string) (st : store) : store :=
  match include with
  | [] => st
  | name :: rest =>
      if bool_decide (name ∈ deref st)
      then extend_new rest st
      else extend_new rest (append_result st name)
  end.

(** One iteration of [for direction, pattern in pattern_list]. *)
Definition matcher_body (st : store) (entry : string * string) : store :=
  let '(direction, pattern) := entry in
  if String.eqb direction "+" then
    let include := fnmatch_filter (folder_list st) pattern in
    extend_new include st
  else
    let exclude := fnmatch_filter (deref st) pattern in
    Store (folder_list st)
          (OwnList (List.filter (fun name => negb (bool_decide (name ∈ exclude)))
                                (deref st))).

Fixpoint matcher_loop (pattern_list : list (string * string)) (st : store) : store :=
  match pattern_list with
  | [] => st
  | entry :: rest => matcher_loop rest (matcher_body st entry)
  end.

(** The store after [_folder_matcher] has run. *)
Definition folder_matcher_run (pattern_list : list (string * string))
           (folder_list0 : list string) : store :=
  let result0 :=
    match pattern_list with
    | (direction, _) :: _ =>
        if String.eqb direction "+" then OwnList [] else SameObject
    | [] => SameObject
    end in
  matcher_loop pattern_list (Store folder_list0 result0).

(** [_folder_matcher(pattern_list, folder_list)]: the returned list. *)
Definition _folder_matcher (pattern_list : list (string * string))
           (folder_list0 : list string) : list string :=
  deref (folder_matcher_run pattern_list folder_list0).

(** *** The filter as the specification words it *)

Definition is_include (direction : string) : bool := String.eqb direction "+".

Definition initial_working_set (patterns : list (string * string))
           (folders : list string) : list string :=
  match patterns with
  | [] => folders
  | (direction, _) :: _ => if is_include direction then [] else folders
  end.

(** Add a name unless the working set already has it. *)
Definition add_new (working : list string) (name : string) : list string :=
  if bool_decide (name ∈ working) then working else working ++ [name].

Definition filter_step (folders : list string) (working : list string)
           (pattern : string * string) : list string :=
  if is_include pattern.1
  then fold_left add_new (fnmatch_filter folders pattern.2) working
  else List.filter (fun name => negb (fnmatch name pattern.2)) working.

Definition filter_spec (patterns : list (string * string))
           (folders : list string) : list string :=
  fold_left (filter_step folders) patterns (initial_working_set patterns folders).

End Matcher.

End Cli.

(** ** mover.py *)

Module Mover.

(** Number of messages about which to get details in any given fetch. *)
Definition MSG_CHUNK_SIZE : nat := 1000.

(** The fetch items the module names. *)
Inductive field := MSG_ID_HEADERS | MSG_SIZE | MSG_FLAGS | MSG_RFC822 | MSG_DATE.

(** A raw message: the [Message-ID] and [Date] header block that
    [BODY[HEADER.FIELDS (MESSAGE-ID DATE)]] returns, and everything else. *)
Record content := Content {
  id_headers : string;
  remainder : string
}.

(** What a server holds for one message, which is also what [fetch]
    reports for it (the [details] of the source). *)
Record message := Message {
  uid : N;
  rfc822 : content;
  rfc822_size : Z;
  flags : list string;
  internaldate : string
}.

Definition key_of (details : message) : string := id_headers (rfc822 details).

(** *** [_chunk_messages]

    The generator keeps [chunk] and [chunk_total] between yields;
    [chunk_loop] is its [for] loop from a given state, followed by the
    final [if chunk: yield chunk].  The value is the list of yields. *)
Fixpoint chunk_loop (items : list (N * message)) (max_size : Z)
         (chunk : list N) (chunk_total : Z) : list (list N) :=
  match items with
  | [] => match chunk with [] => [] | _ :: _ => [chunk] end
  | (msg_id, details) :: rest =>
      if (max_size <=? chunk_total + rfc822_size details)%Z then
        match chunk with
        | _ :: _ => chunk :: chunk_loop rest max_size [msg_id] (rfc822_size details)
        | [] => [msg_id] :: chunk_loop rest max_size chunk chunk_total
        end
      else
        chunk_loop rest max_size (chunk ++ [msg_id]) (chunk_total + rfc822_size details)
  end.

Definition _chunk_messages (messages : list (N * message)) (max_size : Z)
  : list (list N) :=
  chunk_loop messages max_size [] 0%Z.

(** The default of [max_size], also passed explicitly by the caller. *)
Definition default_max_size : Z := Z.shiftl 4 20.

(** *** [fix_path], as defined inside [_imap_sync_core] *)
Definition fix_path (src_dir_separator dest_dir_separator replace_sep : string)
           (path : string) : string :=
  if negb (String.eqb src_dir_separator dest_dir_separator) then
    Py.str_replace (Py.str_replace path dest_dir_separator replace_sep)
                   src_dir_separator dest_dir_separator
  else path.

(** *** The flag filter of the append loop:
    [[f for f in msg[MSG_FLAGS] if f in dest_flag_set]] *)
Definition keep_supported (dest_flag_set : gset string) (msg_flags : list string)
  : list string :=
  List.filter (fun f => bool_decide (f ∈ dest_flag_set)) msg_flags.

(** *** The two servers *)

Record folder := Folder {
  folder_flags : list string;
  folder_delim : option string;
  folder_name : string;
  folder_FLAGS : list string;
  folder_msgs : list message
}.

Record server := Server {
  folders : list folder;
  selected : option string
}.

Definition listing : Type := list string * option string * string.

Definition srv_list_folders (s : server) : list listing :=
  map (fun f => (folder_flags f, folder_delim f, folder_name f)) (folders s).

Definition lookup_folder (s : server) (name : string) : option folder :=
  List.find (fun f => String.eqb (folder_name f) name) (folders s).

Definition no_such_folder : Py.exn := Py.IMAPClientError "no such folder".
Definition folder_exists : Py.exn := Py.IMAPClientError "folder already exists".
Definition nothing_selected : Py.exn := Py.IMAPClientError "no folder selected".

Definition srv_select_folder (s : server) (name : string)
  : Py.exn + (server * list string) :=
  match lookup_folder s name with
  | None => inl no_such_folder
  | Some f => inr (Server (folders s) (Some name), folder_FLAGS f)
  end.

Definition selected_msgs (s : server) : Py.exn + list message :=
  match selected s with
  | None => inl nothing_selected
  | Some name =>
      match lookup_folder s name with
      | None => inl no_such_folder
      | Some f => inr (folder_msgs f)
      end
  end.

Definition is_deleted (m : message) : bool := bool_decide ("\Deleted" ∈ flags m).

Definition not_deleted (msgs : list message) : list message :=
  List.filter (fun m => negb (is_deleted m)) msgs.

(** [search(['NOT', 'DELETED'])] on the selected folder. *)
Definition srv_search (s : server) : Py.exn + list N :=
  match selected_msgs s with
  | inl e => inl e
  | inr msgs => inr (map uid (not_deleted msgs))
  end.

(** The messages of [msgs] named by [ids], keyed by identifier. *)
Definition fetch_from (msgs : list message) (ids : list N) : list (N * message) :=
  map (fun m => (uid m, m)) (List.filter (fun m => bool_decide (uid m ∈ ids)) msgs).

Definition srv_fetch (s : server) (ids : list N) : Py.exn + list (N * message) :=
  match selected_msgs s with
  | inl e => inl e
  | inr msgs => inr (fetch_from msgs ids)
  end.

Definition system_flags : list string :=
  ["\Answered"; "\Flagged"; "\Deleted"; "\Seen"; "\Draft"].

Definition srv_create_folder (s : server) (name : string) : Py.exn + server :=
  match lookup_folder s name with
  | Some _ => inl folder_exists
  | None =>
      let delim := match folders s with f :: _ => folder_delim f | [] => None end in
      inr (Server (folders s ++ [Folder [] delim name system_flags []]) (selected s))
  end.

Definition next_uid (msgs : list message) : N :=
  N.succ (fold_right N.max 0%N (map uid msgs)).

Definition store_message (f : folder) (msg : content) (fl : list string)
           (date : string) : folder :=
  Folder (folder_flags f) (folder_delim f) (folder_name f) (folder_FLAGS f)
         (folder_msgs f ++
            [Message (next_uid (folder_msgs f)) msg
                     (Z.of_nat (String.length (id_headers msg) +
                                String.length (remainder msg)))
                     fl date]).

Definition srv_append (s : server) (name : string) (msg : content)
           (fl : list string) (date : string) : Py.exn + server :=
  match lookup_folder s name with
  | None => inl no_such_folder
  | Some _ =>
      inr (Server
             (map (fun f => if String.eqb (folder_name f) name
                            then store_message f msg fl date else f)
                  (folders s))
             (selected s))
  end.

(** *** Calls on the connections

    A run threads both servers and the log of calls made on them; an
    exception ends the run and keeps the log. *)

Inductive side := Src | Dest.

Inductive call :=
| ListFolders (c : side)
| CreateFolder (c : side) (path : string)
| SelectFolder (c : side) (path : string)
| Search (c : side) (criteria : list string)
| Fetch (c : side) (ids : list N) (fields : list field)
| Append (c : side) (path : string) (msg : content) (fl : list string)
         (date : string).

Record world := World {
  src : server;
  dest : server;
  log : list call
}.

Definition M (A : Type) : Type := world -> (Py.exn + A) * world.

Definition ret {A} (a : A) : M A := fun w => (inr a, w).

Definition raise {A} (e : Py.exn) : M A := fun w => (inl e, w).

Definition bind {A B} (m : M A) (k : A -> M B) : M B :=
  fun w =>
    match m w with
    | (inl e, w') => (inl e, w')
    | (inr a, w') => k a w'
    end.

Notation "'let!' x ':=' m 'in' k" := (bind m (fun x => k))
  (at level 10, x pattern, m at level 100, k at level 200).

Definition conn (c : side) (w : world) : server :=
  match c with Src => src w | Dest => dest w end.

Definition set_conn (c : side) (s : server) (w : world) : world :=
  match c with
  | Src => World s (dest w) (log w)
  | Dest => World (src w) s (log w)
  end.

Definition logged (e : call) (w : world) : world :=
  World (src w) (dest w) (log w ++ [e]).

(** A call that only reads the server. *)
Definition query {A} (c : side) (e : call) (f : server -> Py.exn + A) : M A :=
  fun w => (f (conn c w), logged e w).

(** A call that changes the server. *)
Definition command {A} (c : side) (e : call)
           (f : server -> Py.exn + (server * A)) : M A :=
  fun w =>
    match f (conn c w) with
    | inl err => (inl err, logged e w)
    | inr (s, a) => (inr a, logged e (set_conn c s w))
    end.

Definition list_folders (c : side) : M (list listing) :=
  query c (ListFolders c) (fun s => inr (srv_list_folders s)).

Definition create_folder (c : side) (path : string) : M unit :=
  command c (CreateFolder c path)
          (fun s => match srv_create_folder s path with
                    | inl e => inl e
                    | inr s' => inr (s', tt)
                    end).

Definition select_folder (c : side) (path : string) : M (list string) :=
  command c (SelectFolder c path) (fun s => srv_select_folder s path).

Definition search (c : side) : M (list N) :=
  query c (Search c ["NOT"; "DELETED"]) srv_search.

(** The modelled server answers a fetch and leaves the folder as it is.
    An IMAP server also marks the messages of a body fetch that is not of
    the [PEEK] kind as seen when the folder is selected for writing; the
    flags of a message after it has been fetched are outside the model. *)
Definition fetch (c : side) (ids : list N) (fields : list field)
  : M (list (N * message)) :=
  query c (Fetch c ids fields) (fun s => srv_fetch s ids).

Definition append (c : side) (path : string) (msg : content)
           (fl : list string) (date : string) : M unit :=
  command c (Append c path msg fl date)
          (fun s => match srv_append s path msg fl date with
                    | inl e => inl e
                    | inr s' => inr (s', tt)
                    end).

(** [for x in l: body], with the variables the body assigns as [S]. *)
Fixpoint for_each {A S} (l : list A) (body : A -> S -> M S) (s : S) : M S :=
  match l with
  | [] => ret s
  | x :: rest => let! s' := body x s in for_each rest body s'
  end.

(** *** [_imap_sync_core]

    The progress sink only displays: its calls ([set_description], [reset],
    [update], [set_postfix_str]) are left out, except for the
    [path.split(src_dir_separator)] evaluated for one of them, which can
    raise. *)

(** [folder_data[0][1].decode("ASCII")].  The delimiter a server reports
    is taken to be ASCII, so that decoding returns it as it is; a delimiter
    with a byte above 127, on which [decode] raises, is outside the
    model. *)
Definition first_separator (folder_data : list listing) : M string :=
  match folder_data with
  | [] => raise Py.IndexError
  | (_, None, _) :: _ => raise Py.AttributeError
  | (_, Some sep, _) :: _ => ret sep
  end.

(** An entry of [dir_map]: [(path, flags, fixed_path)]. *)
Definition entry : Type := string * list string * string.

(** Python [<] on tuples of [bytes]. *)
Fixpoint flags_ltb (a b : list string) : bool :=
  match a, b with
  | [], [] => false
  | [], _ :: _ => true
  | _ :: _, [] => false
  | x :: a', y :: b' =>
      if String.eqb x y then flags_ltb a' b' else String.ltb x y
  end.

(** Python [<] on the entries of [dir_map]. *)
Definition entry_ltb (a b : entry) : bool :=
  let '(path_a, flags_a, fixed_a) := a in
  let '(path_b, flags_b, fixed_b) := b in
  if negb (String.eqb path_a path_b) then String.ltb path_a path_b
  else if negb (bool_decide (flags_a = flags_b)) then flags_ltb flags_a flags_b
  else String.ltb fixed_a fixed_b.

Fixpoint insert_sorted (x : entry) (l : list entry) : list entry :=
  match l with
  | [] => [x]
  | y :: l' => if entry_ltb y x then y :: insert_sorted x l' else x :: y :: l'
  end.

(** [dir_map.sort()] *)
Definition sort (l : list entry) : list entry := fold_right insert_sorted [] l.

(** The batches of the two header-fetch loops:
    [ids[i*MSG_CHUNK_SIZE:(i+1)*MSG_CHUNK_SIZE]] for
    [i in range(-(-len(ids)//MSG_CHUNK_SIZE))]. *)
Definition batches (ids : list N) : list (list N) :=
  map (fun i => Py.slice ids (i * MSG_CHUNK_SIZE) ((i + 1) * MSG_CHUNK_SIZE))
      (seq 0 (Py.ceil_div (length ids) MSG_CHUNK_SIZE)).

(** [for details in info.values(): dest_msg_set.add(details[MSG_ID_HEADERS])] *)
Definition add_keys (info : list (N * message)) (dest_msg_set : gset string)
  : gset string :=
  fold_left (fun acc details => acc ∪ {[ key_of details ]}) (map snd info)
            dest_msg_set.

(** The loop that fills [dest_msg_set]. *)
Definition collect_dest_keys (dest_messages : list N) : M (gset string) :=
  for_each (batches dest_messages)
           (fun chunk_ids dest_msg_set =>
              let! info := fetch Dest chunk_ids [MSG_ID_HEADERS] in
              ret (add_keys info dest_msg_set))
           ∅.

(** The body of [for msg_id, details in info.items()]. *)
Definition consider (dest_msg_set : gset string)
           (acc : list (N * message) * Z) (item : N * message)
  : list (N * message) * Z :=
  let '(move_messages, data_total) := acc in
  let '(msg_id, details) := item in
  if negb (bool_decide (key_of details ∈ dest_msg_set))
  then (Py.dict_set move_messages msg_id details,
        (data_total + rfc822_size details)%Z)
  else (move_messages, data_total).

(** The loop that fills [move_messages] and [data_total]. *)
Definition collect_move_messages (src_messages : list N)
           (dest_msg_set : gset string) : M (list (N * message) * Z) :=
  for_each (batches src_messages)
           (fun chunk_ids acc =>
              let! info := fetch Src chunk_ids [MSG_ID_HEADERS; MSG_SIZE] in
              ret (fold_left (consider dest_msg_set) info acc))
           ([], 0%Z).

(** [[f for f in msg[MSG_FLAGS] if f in dest_flag_set]]: the name
    [dest_flag_set] is looked up once per flag, so an unbound name only
    fails on a message that has flags. *)
Definition supported_flags (dest_flag_set : option (gset string))
           (msg_flags : list string) : M (list string) :=
  match dest_flag_set, msg_flags with
  | Some set, _ => ret (keep_supported set msg_flags)
  | None, [] => ret []
  | None, _ :: _ => raise Py.NameError
  end.

(** The body of [for msg in msgs.values()]. *)
Definition append_message (dest_flag_set : option (gset string))
           (fixed_path : string) (msg : message) (_ : unit) : M unit :=
  let! fl := supported_flags dest_flag_set (flags msg) in
  append Dest fixed_path (rfc822 msg) fl (internaldate msg).

(** The body of [for chunk_ids in _chunk_messages(...)]. *)
Definition transfer_chunk (dest_flag_set : option (gset string))
           (fixed_path : string) (chunk_ids : list N) : M unit :=
  let! msgs := fetch Src chunk_ids [MSG_FLAGS; MSG_DATE; MSG_SIZE; MSG_RFC822] in
  for_each (map snd msgs) (append_message dest_flag_set fixed_path) tt.

(** The test [fixed_path not in missing_folders]: a [str] looked up in a
    list of [(fixed_path, flags)] tuples. *)
Definition not_in_missing (fixed_path : string)
           (missing_folders : list (string * list string)) : bool :=
  negb (Py.contains (map (fun m => Py.Pair m.1 m.2) missing_folders)
                    (Py.Str fixed_path)).

(** The body of [for path, flags, fixed_path in dir_map]; the variable
    [dest_flag_set] survives from one iteration to the next. *)
Definition sync_folder (src_dir_separator : string) (dry_run : bool)
           (missing_folders : list (string * list string))
           (e : entry) (dest_flag_set : option (gset string))
  : M (option (gset string)) :=
  let '(path, _, fixed_path) := e in
  let! _ := (match Py.str_split path src_dir_separator with
             | inl err => raise err
             | inr parts => ret parts
             end) in
  let! (dest_flag_set, dest_messages) :=
     (if negb dry_run || not_in_missing fixed_path missing_folders then
        let! dest_folder_info := select_folder Dest fixed_path in
        let! found := search Dest in
        ret (Some (list_to_set dest_folder_info), found)
      else ret (dest_flag_set, [])) in
  let! dest_msg_set := collect_dest_keys dest_messages in
  let! _ := select_folder Src path in
  let! src_messages := search Src in
  let! (move_messages, _) := collect_move_messages src_messages dest_msg_set in
  let! _ := for_each (_chunk_messages move_messages default_max_size)
                     (fun chunk_ids _ =>
                        transfer_chunk dest_flag_set fixed_path chunk_ids)
                     tt in
  ret dest_flag_set.

(** [dir_map] before and after the folder filter. *)
Definition build_dir_map (src_folder_data : list listing)
           (fixed : string -> string)
           (folder_filter : option (list string -> list string)) : list entry :=
  let dir_map :=
    sort (map (fun d => (d.2, d.1.1, fixed d.2)) src_folder_data) in
  match folder_filter with
  | None => dir_map
  | Some f =>
      let all_names := map (fun e => e.1.1) dir_map in
      let filtered_names := f all_names in
      List.filter (fun e => bool_decide (e.1.1 ∈ filtered_names)) dir_map
  end.

Definition find_missing (dir_map : list entry) (dest_folder_data : list listing)
  : list (string * list string) :=
  let dest_folder_set : gset string :=
    list_to_set (map (fun d => d.2) dest_folder_data) in
  map (fun e => (e.2, e.1.2))
      (List.filter (fun e => negb (bool_decide (e.2 ∈ dest_folder_set))) dir_map).

(** The folder filter is a function that returns a list of names; a
    callable that raises when called is outside the model. *)
Definition _imap_sync_core (replace_sep : string)
           (folder_filter : option (list string -> list string))
           (dry_run : bool) : M unit :=
  let! src_folder_data := list_folders Src in
  let! src_dir_separator := first_separator src_folder_data in
  let! dest_folder_data := list_folders Dest in
  let! dest_dir_separator := first_separator dest_folder_data in
  let dir_map :=
    build_dir_map src_folder_data
                  (fix_path src_dir_separator dest_dir_separator replace_sep)
                  folder_filter in
  let missing_folders := find_missing dir_map dest_folder_data in
  let! _ := for_each missing_folders
              (fun missing _ =>
                 if negb dry_run then create_folder Dest missing.1 else ret tt)
              tt in
  let! _ := for_each dir_map
              (sync_folder src_dir_separator dry_run missing_folders)
              None in
  ret tt.

(** A run from the given servers with an empty log. *)
Definition run (source destination : server) (replace_sep : string)
           (folder_filter : option (list string -> list string))
           (dry_run : bool) : (Py.exn + unit) * world :=
  _imap_sync_core replace_sep folder_filter dry_run (World source destination []).

End Mover.

(** ** Notions used to state the properties *)

Import Mover.

Definition sumZ (l : list Z) : Z := fold_right Z.add 0%Z l.

(** The size the dict [messages] reports for an identifier. *)
Definition size_in (messages : list (N * message)) (msg_id : N) : Z :=
  match List.find (fun item => bool_decide (item.1 = msg_id)) messages with
  | Some item => rfc822_size item.2
  | None => 0%Z
  end.

(** Cumulative reported size of a chunk of identifiers. *)
Definition chunk_size (messages : list (N * message)) (chunk : list N) : Z :=
  sumZ (map (size_in messages) chunk).

(** The folder name mapper as the specification words it: every occurrence
    of the character [c] in a path is replaced by the string [new]. *)
Fixpoint substitute (c : ascii) (new : string) (path : string) : string :=
  match path with
  | EmptyString => EmptyString
  | String d rest =>
      if Ascii.eqb d c then new +:+ substitute c new rest
      else String d (substitute c new rest)
  end.

(** A separator character as the one-character string the server reports. *)
Definition sep_string (c : ascii) : string := String c EmptyString.

Definition mapPath (src_sep dest_sep : ascii) (substitute_with : string)
           (path : string) : string :=
  if Ascii.eqb src_sep dest_sep then path
  else substitute src_sep (sep_string dest_sep)
                  (substitute dest_sep substitute_with path).

(** What every step of the folder filter keeps: no name twice, and only names of the folder list. *)
Definition tidy (folders working : list string) : Prop :=
  NoDup working /\ forall name, name ∈ working -> name ∈ folders.

(** The [append] that the transfer loop is expected to make for a message. *)
Definition append_call (dest_flag_set : gset string) (fixed_path : string)
           (msg : message) : call :=
  Append Dest fixed_path (rfc822 msg) (keep_supported dest_flag_set (flags msg))
         (internaldate msg).

(** A message as an item of a [fetch] result. *)
Definition keyed (m : message) : N * message := (uid m, m).

(** The messages a folder offers for transfer: not deleted, and with an
    identifying header block that the destination set does not hold. *)
Definition to_transfer (dest_msg_set : gset string) (msgs : list message)
  : list message :=
  List.filter (fun m => negb (bool_decide (key_of m ∈ dest_msg_set)))
              (not_deleted msgs).

(** The two servers with the sample folder selected on both. *)
Definition select_both (source destination : server) (name : string) : world :=
  World (Server (folders source) (Some name))
        (Server (folders destination) (Some name)) [].

(** ** Sample data *)

Definition sample_message (n : N) (key : string) (size : Z) (fl : list string)
  : message :=
  Message n (Content key "body") size fl "01-Jan-2021 00:00:00 +0000".

(** Three messages to move, the first larger than the default bound. *)
Definition sample_transfer : list (N * message) :=
  [(1%N, sample_message 1 "mid1 d1" 5000000 []);
   (2%N, sample_message 2 "mid2 d2" 10 []);
   (3%N, sample_message 3 "mid3 d3" 20 [])].

(** A source with one folder of three messages, the last one deleted. *)
Definition sample_inbox : list message :=
  [sample_message 1 "mid1 d1" 100 ["\Seen"; "\Custom"];
   sample_message 2 "mid2 d2" 200 ["\Flagged"];
   sample_message 3 "mid3 d3" 50 ["\Deleted"]].

Definition sample_source : server :=
  Server [Folder [] (Some "/") "INBOX" system_flags sample_inbox] None.

(** A destination that has the folder and already holds the first message. *)
Definition sample_destination : server :=
  Server [Folder [] (Some "/") "INBOX" system_flags
                 [sample_message 7 "mid1 d1" 100 ["\Seen"]]] None.

(** A source with a second folder that the destination lacks. *)
Definition source_with_archive : server :=
  Server [Folder [] (Some "/") "Archive" system_flags [];
          Folder [] (Some "/") "INBOX" system_flags sample_inbox] None.

Definition is_append (c : call) : bool :=
  match c with Append _ _ _ _ _ => true | _ => false end.

Definition is_create_folder (c : call) : bool :=
  match c with CreateFolder _ _ => true | _ => false end.

(** A planned sequence of chunks is packed when each chunk, together with
    the first message of the chunk that follows it, reaches the bound. *)
Fixpoint packed (sz : N -> Z) (max_size : Z) (chunks : list (list N)) : Prop :=
  match chunks with
  | [] => True
  | c :: rest =>
      match rest with
      | (h :: _) :: _ => (max_size <= sumZ (map sz c) + sz h)%Z
      | _ => True
      end /\ packed sz max_size rest
  end.

(** Three small messages. *)
Definition small_transfer : list (N * message) :=
  [(4%N, sample_message 4 "mid4 d4" 30 []);
   (5%N, sample_message 5 "mid5 d5" 10 []);
   (6%N, sample_message 6 "mid6 d6" 20 [])].

(** Number of occurrences of a character in a path. *)
Fixpoint count_char (c : ascii) (s : string) : nat :=
  match s with
  | EmptyString => 0
  | String d rest => (if Ascii.eqb d c then 1 else 0) + count_char c rest
  end.

(** A computation keeps a relation between the world it starts from and the
    world it leaves, whether it returns or raises. *)
Definition keeps {A} (R : world -> world -> Prop) (m : M A) : Prop :=
  forall w, R w (m w).2.

(** The calls added to the log all satisfy [P]. *)
Definition only_logs (P : call -> Prop) (w w' : world) : Prop :=
  exists calls, log w' = (log w ++ calls)%list /\ Forall P calls.

(** A call that changes a mailbox of the given connection. *)
Definition mutates (c : side) (e : call) : Prop :=
  match e with
  | CreateFolder c' _ => c' = c
  | Append c' _ _ _ _ => c' = c
  | _ => False
  end.

Definition is_not_create (e : call) : Prop :=
  match e with CreateFolder _ _ => False | _ => True end.

(** The folder names of a server, in listing order. *)
Definition folder_names (s : server) : list string := map folder_name (folders s).

(** Nothing is created: no [create_folder] call, and the destination keeps
    its folders by name. *)
Definition creates_nothing (w w' : world) : Prop :=
  only_logs is_not_create w w' /\ folder_names (dest w') = folder_names (dest w).

(** The source is only read: its folders and messages stay as they are and
    no changing call is made on it. *)
Definition source_untouched (w w' : world) : Prop :=
  only_logs (fun e => ~ mutates Src e) w w' /\ folders (src w') = folders (src w).

(** An [append] is a copy from the folders [S] when it goes to the
    destination with the raw content and the internal date of a message
    held in one of these folders, and with flags taken, in order, from the
    flags of that message. *)
Definition copies_from (S : list folder) (e : call) : Prop :=
  match e with
  | Append c _ msg fl date =>
      c = Dest /\
      exists f m, f ∈ S /\ m ∈ folder_msgs f /\
                  rfc822 m = msg /\ internaldate m = date /\ sublist fl (flags m)
  | _ => True
  end.

(** Starting from a source that holds the folders [S], the source still
    holds them afterwards and every new call is a copy from them. *)
Definition faithful_to (S : list folder) (w w' : world) : Prop :=
  folders (src w) = S -> folders (src w') = S /\ only_logs (copies_from S) w w'.

(** Every exception the computation can end with satisfies [P]. *)
Definition raises_only {A} (P : Py.exn -> Prop) (m : M A) : Prop :=
  forall w e w', m w = (inl e, w') -> P e.

(** The failures of a run: a separator that cannot be read or used, or an
    error that a server call reports. *)
Definition expected_failure (e : Py.exn) : Prop :=
  e = Py.IndexError \/ e = Py.AttributeError \/ e = Py.ValueError \/
  exists msg, e = Py.IMAPClientError msg.

(** The directory map and the missing folders of a run, as computed from
    the two listings once both separators are read. *)
Definition dir_map_of (source : server) (src_sep dest_sep replace_sep : string)
           (folder_filter : option (list string -> list string)) : list entry :=
  build_dir_map (srv_list_folders source) (fix_path src_sep dest_sep replace_sep)
                folder_filter.

Definition missing_of (source destination : server)
           (src_sep dest_sep replace_sep : string)
           (folder_filter : option (list string -> list string))
  : list (string * list string) :=
  find_missing (dir_map_of source src_sep dest_sep replace_sep folder_filter)
               (srv_list_folders destination).

(** The separator a server reports for its first folder. *)
Definition reports_separator (s : server) (sep : string) : Prop :=
  exists f rest, folders s = f :: rest /\ folder_delim f = Some sep.

(** The source path of an entry of the directory map. *)
Definition entry_path (e : entry) : string := e.1.1.

(** Two entries in the order of their source paths (code points compared
    from the left, a proper prefix first). *)
Definition path_le (a b : entry) : Prop :=
  String.leb (entry_path a) (entry_path b) = true.

(** The entry the directory map holds for a listed folder. *)
Definition entry_of (fixed : string -> string) (d : listing) : entry :=
  (d.2, d.1.1, fixed d.2).

Definition is_not_append (e : call) : Prop :=
  match e with Append _ _ _ _ _ => False | _ => True end.

(** The server once a message has been appended to the folder
    [fixed_path] with the flags the destination supports. *)
Definition deliver (dest_flag_set : gset string) (fixed_path : string)
           (s : server) (m : message) : server :=
  match srv_append s fixed_path (rfc822 m)
                   (keep_supported dest_flag_set (flags m)) (internaldate m) with
  | inr s' => s'
  | inl _ => s
  end.

(** The identifying header blocks of the non-deleted messages of a folder. *)
Definition dest_keys (msgs : list message) : gset string :=
  list_to_set (map key_of (not_deleted msgs)).

(** The servers are left as they are and nothing is appended. *)
Definition reads_only (w w' : world) : Prop :=
  src w' = src w /\ dest w' = dest w /\ only_logs is_not_append w w'.

(** Every folder has distinct message identifiers. *)
Definition all_distinct (fs : list folder) : Prop :=
  Forall (fun f => NoDup (map uid (folder_msgs f))) fs.

(** The folder a server with the folders [fs] selects under a name. *)
Definition find_folder (fs : list folder) (name : string) : option folder :=
  lookup_folder (Server fs None) name.

(** Every non-deleted message of the source folder has its identifying
    header block among those of the non-deleted destination messages. *)
Definition covered (fs fd : folder) : Prop :=
  forall m, m ∈ not_deleted (folder_msgs fs) ->
            key_of m ∈ dest_keys (folder_msgs fd).

(** An entry of the directory map has nothing left to transfer. *)
Definition settled (FS FD : list folder) (e : entry) : Prop :=
  exists fs fd,
    find_folder FS e.1.1 = Some fs /\ find_folder FD e.2 = Some fd /\
    covered fs fd.

(** The folder with further messages at its end. *)
Definition with_more (f : folder) (extra : list message) : folder :=
  Folder (folder_flags f) (folder_delim f) (folder_name f) (folder_FLAGS f)
         (folder_msgs f ++ extra)%list.

(** The same folders, some with further messages at their end. *)
Definition extends (FD FD' : list folder) : Prop :=
  Forall2 (fun f f' => exists extra, f' = with_more f extra) FD FD'.

(** The message a folder stores for an appended source message. *)
Definition store_copy (set : gset string) (f : folder) (m : message) : folder :=
  store_message f (rfc822 m) (keep_supported set (flags m)) (internaldate m).

(** The source keeps its folders and the destination only gains empty
    folders at the end of its list. *)
Definition created_only (w w' : world) : Prop :=
  folders (src w') = folders (src w) /\
  exists extra, folders (dest w') = (folders (dest w) ++ extra)%list /\
                Forall (fun f => folder_msgs f = []) extra.

(** The destination keeps what it held: its folders are still there, in
    their order and with their attributes, each with the messages it had
    followed by those it gained; further folders may follow them. *)
Definition only_grows (w w' : world) : Prop :=
  exists kept added,
    folders (dest w') = (kept ++ added)%list /\ extends (folders (dest w)) kept.

(** A plan that a greedy planner could have made: no chunk is empty, a
    chunk of two or more messages stays below the bound (a message only
    joins a chunk while the total stays below it), and a chunk is followed
    by another one only when the first message of that one would have made
    it reach the bound. *)
Definition greedy_plan (sz : N -> Z) (max_size : Z) (plan : list (list N)) : Prop :=
  Forall (fun c => c <> []) plan /\
  Forall (fun c => (2 <= length c)%nat -> (sumZ (map sz c) < max_size)%Z) plan /\
  packed sz max_size plan.

(** A fetch that asks for the whole message. *)
Definition asks_rfc822 (fields : list field) : bool :=
  existsb (fun f => match f with MSG_RFC822 => true | _ => false end) fields.

(** The identifiers a call fetches in full from the source, when it is
    such a call. *)
Definition fetched_in_full (e : call) : option (list N) :=
  match e with
  | Fetch Src ids fields => if asks_rfc822 fields then Some ids else None
  | _ => None
  end.

(** What a message is, its flags aside: the raw content and the internal
    date. *)
Definition mail (m : message) : content * string := (rfc822 m, internaldate m).

(** What a folder holds, flags aside: its name and, in order, the
    identifier and the mail of every message. *)
Definition holdings (f : folder) : string * list (N * (content * string)) :=
  (folder_name f, map (fun m => (uid m, mail m)) (folder_msgs f)).

(** The same holdings with further messages at the end. *)
Definition grown (h h' : string * list (N * (content * string))) : Prop :=
  h'.1 = h.1 /\ exists extra, h'.2 = (h.2 ++ extra)%list.

(** The folder, content and internal date of an [append] on the
    destination. *)
Definition delivery (e : call) : option (string * (content * string)) :=
  match e with
  | Append Dest path msg _ date => Some (path, (msg, date))
  | _ => None
  end.

(** An [append] carries the mail of a message of the folders [S] to the
    destination. *)
Definition copies_mail_from (S : list folder) (e : call) : Prop :=
  match e with
  | Append c _ msg _ date =>
      c = Dest /\ exists f m, f ∈ S /\ m ∈ folder_msgs f /\ mail m = (msg, date)
  | _ => True
  end.

(** * Properties *)

(** ** The chunk planner *)

Section ChunkPlanner.

Local Open Scope Z_scope.
Local Open Scope list_scope.

Lemma chunk_loop_concat items max_size chunk chunk_total :
  concat (chunk_loop items max_size chunk chunk_total) = chunk ++ map fst items.
Proof.
  revert chunk chunk_total.
  induction items as [|[msg_id details] rest IH]; intros chunk chunk_total; simpl.
  - destruct chunk; simpl; [done | by rewrite !app_nil_r].
  - destruct (max_size <=? chunk_total + rfc822_size details).
    + destruct chunk as [|c chunk']; simpl; rewrite IH; done.
    + rewrite IH, <- app_assoc. done.
Qed.

Lemma sumZ_app l1 l2 : sumZ (l1 ++ l2) = sumZ l1 + sumZ l2.
Proof. induction l1; simpl; lia. Qed.

Lemma size_in_lookup messages msg_id details :
  NoDup (map fst messages) ->
  (msg_id, details) ∈ messages ->
  size_in messages msg_id = rfc822_size details.
Proof.
  unfold size_in.
  induction messages as [|[k d] rest IH]; intros Hnd Hin.
  - by apply elem_of_nil in Hin.
  - simpl in *. apply NoDup_cons in Hnd as [Hk Hnd].
    apply elem_of_cons in Hin as [Heq | Hin].
    + inversion Heq; subst. by rewrite bool_decide_eq_true_2.
    + rewrite bool_decide_eq_false_2; [by apply IH |].
      intros ->. apply Hk. apply list_elem_of_fmap. by exists (msg_id, details).
Qed.

(** Every chunk that is yielded with two or more identifiers was last
    extended by an [append], which only happens below the bound. *)
Lemma chunk_loop_bounded (sz : N -> Z) items max_size :
  forall chunk chunk_total,
    (forall item, item ∈ items -> sz item.1 = rfc822_size item.2) ->
    chunk_total = sumZ (map sz chunk) ->
    ((2 <= length chunk)%nat -> chunk_total < max_size) ->
    forall c, c ∈ chunk_loop items max_size chunk chunk_total ->
              (2 <= length c)%nat -> sumZ (map sz c) < max_size.
Proof.
  induction items as [|[msg_id details] rest IH];
    intros chunk chunk_total Hsz Htot Hinv c Hc Hlen; simpl in Hc.
  - destruct chunk; [by apply elem_of_nil in Hc |].
    apply list_elem_of_singleton in Hc. subst c. rewrite <- Htot. auto.
  - assert (Hrest : forall item, item ∈ rest -> sz item.1 = rfc822_size item.2)
      by (intros; apply Hsz; by apply list_elem_of_further).
    assert (Hhead : sz msg_id = rfc822_size details)
      by (apply (Hsz (msg_id, details)); apply list_elem_of_here).
    destruct (Z.leb_spec max_size (chunk_total + rfc822_size details)).
    + destruct chunk as [|c0 chunk'].
      * apply elem_of_cons in Hc as [-> | Hc]; [simpl in Hlen; lia |].
        eapply IH; eauto.
      * apply elem_of_cons in Hc as [-> | Hc]; [rewrite <- Htot; auto |].
        eapply (IH [msg_id] (rfc822_size details)); eauto.
        -- simpl. lia.
        -- simpl. lia.
    + apply (IH (chunk ++ [msg_id]) (chunk_total + rfc822_size details));
        auto.
      rewrite map_app, sumZ_app. simpl. lia.
Qed.

(** A pending chunk whose total already reaches the bound is yielded as
    it stands: any further message closes it. *)
Lemma chunk_loop_full_chunk items max_size chunk chunk_total :
  Forall (fun item => 0 <= rfc822_size item.2) items ->
  chunk <> [] ->
  max_size <= chunk_total ->
  chunk ∈ chunk_loop items max_size chunk chunk_total.
Proof.
  intros Hpos Hne Hfull.
  destruct items as [|[msg_id details] rest]; simpl.
  - destruct chunk; [done | apply list_elem_of_here].
  - apply Forall_cons in Hpos as [Hd _]. simpl in Hd.
    destruct (Z.leb_spec max_size (chunk_total + rfc822_size details)); [| lia].
    destruct chunk; [done | apply list_elem_of_here].
Qed.

Lemma chunk_loop_oversized items max_size :
  forall chunk chunk_total msg_id details,
    Forall (fun item => 0 <= rfc822_size item.2) items ->
    0 <= chunk_total ->
    (msg_id, details) ∈ items ->
    max_size <= rfc822_size details ->
    [msg_id] ∈ chunk_loop items max_size chunk chunk_total.
Proof.
  induction items as [|[k d] rest IH];
    intros chunk chunk_total msg_id details Hpos Htot Hin Hbig.
  - by apply elem_of_nil in Hin.
  - apply Forall_cons in Hpos as [Hd Hpos]. simpl in Hd. simpl.
    apply elem_of_cons in Hin as [Heq | Hin].
    + inversion Heq; subst k d.
      destruct (Z.leb_spec max_size (chunk_total + rfc822_size details)); [| lia].
      destruct chunk as [|c0 chunk'].
      * apply list_elem_of_here.
      * apply list_elem_of_further.
        apply chunk_loop_full_chunk; auto.
    + destruct (Z.leb_spec max_size (chunk_total + rfc822_size d)).
      * destruct chunk as [|c0 chunk']; apply list_elem_of_further;
          eapply IH; eauto.
      * eapply IH; eauto. lia.
Qed.

(** C6. For every dict of messages to move and every [max_size >= 1], the
    chunks yielded by [_chunk_messages], concatenated in the order they
    are yielded, are exactly the identifiers of the dict in its order:
    nothing is left out and, the keys of a dict being distinct, nothing
    is repeated.  No assumption is made on the sizes, so a message larger
    than [max_size] is covered. *)
Theorem chunks_concat_is_input (messages : list (N * message)) (max_size : Z) :
  1 <= max_size ->
  concat (_chunk_messages messages max_size) = map fst messages /\
  (NoDup (map fst messages) -> NoDup (concat (_chunk_messages messages max_size))).
Proof.
  intros _.
  assert (Hcat : concat (_chunk_messages messages max_size) = map fst messages)
    by apply chunk_loop_concat.
  split; [exact Hcat | by rewrite Hcat].
Qed.

Lemma chunks_concat_is_input_witness :
  1 <= default_max_size /\
  (concat (_chunk_messages sample_transfer default_max_size)
   = map fst sample_transfer /\
   (NoDup (map fst sample_transfer) ->
    NoDup (concat (_chunk_messages sample_transfer default_max_size)))).
Proof.
  split; [vm_compute; discriminate |].
  apply (chunks_concat_is_input sample_transfer default_max_size).
  vm_compute; discriminate.
Defined.

End ChunkPlanner.

(** ** The folder name mapper *)

Section NameMapper.

Lemma startswith_char c d rest :
  Py.startswith (String d rest) (sep_string c) = Ascii.eqb d c.
Proof.
  unfold Py.startswith, sep_string. simpl.
  destruct (ascii_dec c d) as [-> | Hne].
  - rewrite Ascii.eqb_refl. by destruct rest.
  - symmetry. apply Ascii.eqb_neq. congruence.
Qed.

(** [str.replace] with a one-character [old] replaces character by
    character. *)
Lemma str_replace_char c new path :
  Py.str_replace path (sep_string c) new = substitute c new path.
Proof.
  unfold Py.str_replace, sep_string.
  induction path as [|d rest IH]; [reflexivity |].
  cbn [Py.replace_scan substitute].
  change (String c EmptyString) with (sep_string c).
  rewrite startswith_char.
  destruct (Ascii.eqb d c); simpl; unfold sep_string; by rewrite IH.
Qed.

(** C3. With the separators the two servers report, [fix_path] is the
    identity when they are equal; when they differ it first replaces
    every destination separator in the path by the substitute and then
    every source separator by the destination separator.  With source
    separator [/], destination separator [.] and substitute [_], the path
    [a/b.c] becomes [a.b_c]. *)
Theorem fix_path_is_mapPath (src_sep dest_sep : ascii) (replace_sep path : string) :
  fix_path (sep_string src_sep) (sep_string dest_sep) replace_sep path
  = mapPath src_sep dest_sep replace_sep path /\
  fix_path (sep_string src_sep) (sep_string src_sep) replace_sep path = path /\
  fix_path "/" "." "_" "a/b.c" = "a.b_c".
Proof.
  assert (Hsame : forall sep, fix_path sep sep replace_sep path = path).
  { intros sep. unfold fix_path. by rewrite String.eqb_refl. }
  assert (Hspec : fix_path (sep_string src_sep) (sep_string dest_sep)
                           replace_sep path
                  = mapPath src_sep dest_sep replace_sep path).
  { unfold fix_path, mapPath.
    assert (String.eqb (sep_string src_sep) (sep_string dest_sep)
            = Ascii.eqb src_sep dest_sep) as ->
        by (unfold sep_string; simpl; by destruct (Ascii.eqb _ _)).
    destruct (Ascii.eqb src_sep dest_sep); [done |].
    cbn [negb]. by rewrite !str_replace_char. }
  split; [exact Hspec |]. split; [apply Hsame | reflexivity].
Qed.

End NameMapper.

(** ** The folder filter *)

Section FolderFilter.

Local Open Scope list_scope.

Variable fnmatch : string -> string -> bool.

(** The [extend] of an include step, on a list that [result] owns. *)
Lemma extend_new_own include : forall fl l,
  Cli.extend_new include (Cli.Store fl (Cli.OwnList l))
  = Cli.Store fl (Cli.OwnList (fold_left Cli.add_new include l)).
Proof.
  induction include as [|name rest IH]; intros fl l; simpl; [done |].
  unfold Cli.add_new at 2. unfold Cli.deref. simpl.
  destruct (bool_decide (name ∈ l)); [apply IH |].
  unfold Cli.append_result. simpl. apply IH.
Qed.

(** Removing the names found by [fnmatch.filter] in the working set is
    removing the names that match. *)
Lemma exclude_by_membership pattern working :
  List.filter (fun name =>
                 negb (bool_decide (name ∈ Cli.fnmatch_filter fnmatch working pattern)))
              working
  = List.filter (fun name => negb (fnmatch name pattern)) working.
Proof.
  apply List.filter_ext_in. intros name Hin. f_equal.
  unfold Cli.fnmatch_filter.
  destruct (fnmatch name pattern) eqn:Hm.
  - apply bool_decide_eq_true_2, list_elem_of_In, List.filter_In. auto.
  - apply bool_decide_eq_false_2. intros Hx.
    apply list_elem_of_In, List.filter_In in Hx as [_ Hx]. congruence.
Qed.

Lemma matcher_body_own fl l pattern :
  Cli.matcher_body fnmatch (Cli.Store fl (Cli.OwnList l)) pattern
  = Cli.Store fl (Cli.OwnList (Cli.filter_step fnmatch fl l pattern)).
Proof.
  destruct pattern as [direction pat].
  unfold Cli.matcher_body, Cli.filter_step, Cli.is_include. simpl.
  destruct (String.eqb direction "+").
  - apply extend_new_own.
  - unfold Cli.deref. simpl. by rewrite exclude_by_membership.
Qed.

(** An exclude step run through the alias leaves the caller's list as it
    is: [result] is rebound to a list of its own. *)
Lemma matcher_body_alias_exclude fl direction pat :
  String.eqb direction "+" = false ->
  Cli.matcher_body fnmatch (Cli.Store fl Cli.SameObject) (direction, pat)
  = Cli.Store fl (Cli.OwnList (Cli.filter_step fnmatch fl fl (direction, pat))).
Proof.
  intros Hd. unfold Cli.matcher_body, Cli.filter_step, Cli.is_include. simpl.
  rewrite Hd. unfold Cli.deref. simpl. by rewrite exclude_by_membership.
Qed.

Lemma matcher_loop_own patterns : forall fl l,
  Cli.matcher_loop fnmatch patterns (Cli.Store fl (Cli.OwnList l))
  = Cli.Store fl (Cli.OwnList (fold_left (Cli.filter_step fnmatch fl) patterns l)).
Proof.
  induction patterns as [|pattern rest IH]; intros fl l; simpl; [done |].
  by rewrite matcher_body_own, IH.
Qed.

(** The store at the end of [_folder_matcher]: the caller's list is
    untouched, and [result] holds the fold of the specification. *)
Lemma folder_matcher_run_spec patterns folders :
  Cli.folder_list (Cli.folder_matcher_run fnmatch patterns folders) = folders /\
  Cli.deref (Cli.folder_matcher_run fnmatch patterns folders)
  = Cli.filter_spec fnmatch patterns folders.
Proof.
  unfold Cli.folder_matcher_run, Cli.filter_spec, Cli.initial_working_set,
    Cli.is_include.
  destruct patterns as [|[direction pat] rest]; [done |].
  destruct (String.eqb direction "+") eqn:Hd.
  - by rewrite matcher_loop_own.
  - cbn [Cli.matcher_loop]. rewrite matcher_body_alias_exclude by done.
    by rewrite matcher_loop_own.
Qed.

(** C4. For every pattern list and every folder list, [_folder_matcher]
    returns the left fold of the specification: the working set starts as
    the full folder list when the pattern list is empty or starts with an
    exclude, and empty when it starts with an include; an include matches
    against the full original list and adds the names not yet present; an
    exclude matches against the current working set and removes its
    matches.  The caller's folder list is not changed by the call.  With a
    matcher for which [*] matches every name and [A] only the name [A], on
    [A; B; C] the patterns include [A], exclude [*] give the empty list and
    exclude [*], include [A] give [A]. *)
Theorem folder_matcher_is_fold (patterns : list (string * string))
        (folders : list string) :
  Cli._folder_matcher fnmatch patterns folders
  = fold_left (Cli.filter_step fnmatch folders) patterns
              (Cli.initial_working_set patterns folders) /\
  Cli.folder_list (Cli.folder_matcher_run fnmatch patterns folders) = folders /\
  (forall working pat,
      Cli.filter_step fnmatch folders working ("-", pat)
      = List.filter (fun name => negb (fnmatch name pat)) working /\
      Cli.filter_step fnmatch folders working ("+", pat)
      = fold_left Cli.add_new (List.filter (fun name => fnmatch name pat) folders)
                  working) /\
  ((forall name, fnmatch name "*" = true) ->
   (forall name, fnmatch name "A" = String.eqb name "A") ->
   Cli._folder_matcher fnmatch [("+", "A"); ("-", "*")] ["A"; "B"; "C"] = [] /\
   Cli._folder_matcher fnmatch [("-", "*"); ("+", "A")] ["A"; "B"; "C"] = ["A"]).
Proof.
  destruct (folder_matcher_run_spec patterns folders) as [Hsame Hspec].
  split; [exact Hspec |]. split; [exact Hsame |]. split; [done |].
  intros Hstar HA.
  unfold Cli._folder_matcher.
  rewrite !(proj2 (folder_matcher_run_spec _ _)).
  unfold Cli.filter_spec, Cli.filter_step, Cli.fnmatch_filter. simpl.
  rewrite !HA. vm_compute. by rewrite !Hstar.
Qed.

Lemma add_new_NoDup working name :
  NoDup working -> NoDup (Cli.add_new working name).
Proof.
  intros Hnd. unfold Cli.add_new. case_bool_decide as Hin; [done |].
  apply NoDup_app. split; [done |]. split; [| apply NoDup_singleton].
  intros x Hx Hx'. apply list_elem_of_singleton in Hx'. by subst.
Qed.

Lemma add_new_elem working name x :
  x ∈ Cli.add_new working name -> x ∈ working \/ x = name.
Proof.
  unfold Cli.add_new. case_bool_decide; [auto |].
  rewrite elem_of_app, list_elem_of_singleton. auto.
Qed.

Lemma fold_add_new_tidy folders include : forall working,
  (forall name, name ∈ include -> name ∈ folders) ->
  tidy folders working ->
  tidy folders (fold_left Cli.add_new include working).
Proof.
  induction include as [|name rest IH]; intros working Hinc Hw; simpl; [done |].
  apply IH.
  - intros x Hx. apply Hinc. by apply list_elem_of_further.
  - destruct Hw as [Hnd Hsub]. split; [by apply add_new_NoDup |].
    intros x Hx. apply add_new_elem in Hx as [Hx | ->]; [auto |].
    apply Hinc, list_elem_of_here.
Qed.

Lemma filter_tidy folders (keep : string -> bool) working :
  tidy folders working -> tidy folders (List.filter keep working).
Proof.
  intros [Hnd Hsub]. split.
  - apply NoDup_ListNoDup, List.NoDup_filter. by apply NoDup_ListNoDup.
  - intros name Hin. apply Hsub.
    apply list_elem_of_In. by apply list_elem_of_In, List.filter_In in Hin as [? _].
Qed.

Lemma filter_step_tidy folders working pattern :
  tidy folders working ->
  tidy folders (Cli.filter_step fnmatch folders working pattern).
Proof.
  intros Hw. unfold Cli.filter_step.
  destruct (Cli.is_include pattern.1).
  - apply fold_add_new_tidy; [| done].
    intros name Hin. unfold Cli.fnmatch_filter in Hin.
    apply list_elem_of_In. by apply list_elem_of_In, List.filter_In in Hin as [? _].
  - by apply filter_tidy.
Qed.

Lemma fold_filter_step_tidy folders patterns : forall working,
  tidy folders working ->
  tidy folders (fold_left (Cli.filter_step fnmatch folders) patterns working).
Proof.
  induction patterns as [|pattern rest IH]; intros working Hw; simpl; [done |].
  by apply IH, filter_step_tidy.
Qed.

(** C5. For every pattern list and every folder list of pairwise distinct
    names, the list returned by [_folder_matcher] has each name at most
    once and only names of the folder list; with an empty pattern list it
    is the folder list itself. *)
Theorem folder_matcher_no_duplicates (patterns : list (string * string))
        (folders : list string) :
  NoDup folders ->
  NoDup (Cli._folder_matcher fnmatch patterns folders) /\
  (forall name, name ∈ Cli._folder_matcher fnmatch patterns folders ->
                name ∈ folders) /\
  Cli._folder_matcher fnmatch [] folders = folders.
Proof.
  intros Hnd.
  assert (Ht : tidy folders (Cli._folder_matcher fnmatch patterns folders)).
  { unfold Cli._folder_matcher.
    rewrite (proj2 (folder_matcher_run_spec patterns folders)).
    apply fold_filter_step_tidy. unfold Cli.initial_working_set.
    destruct patterns as [|[direction pat] rest]; [by split |].
    destruct (Cli.is_include direction); [| by split].
    split; [apply NoDup_nil_2 | intros name Hin; by apply elem_of_nil in Hin]. }
  destruct Ht as [H1 H2]. auto.
Qed.

End FolderFilter.

Lemma folder_matcher_is_fold_witness :
  Cli._folder_matcher fnmatchcase [("+", "A"); ("-", "*")] ["A"; "B"; "C"] = [] /\
  Cli._folder_matcher fnmatchcase [("-", "*"); ("+", "A")] ["A"; "B"; "C"] = ["A"].
Proof.
  apply (folder_matcher_is_fold fnmatchcase [] []).
  - intros name. unfold fnmatchcase. simpl.
    induction name as [|c rest IH]; [reflexivity | exact IH].
  - intros name. unfold fnmatchcase.
    destruct name as [|c rest]; [reflexivity |].
    change (wildcard_match "A" (String c rest))
      with (Ascii.eqb "A" c && wildcard_match "" rest).
    change (String.eqb (String c rest) "A")
      with (if Ascii.eqb c "A" then String.eqb rest "" else false).
    rewrite (Ascii.eqb_sym "A" c).
    destruct (Ascii.eqb c "A"); [destruct rest; reflexivity | reflexivity].
Defined.

Lemma folder_matcher_no_duplicates_witness :
  NoDup (Cli._folder_matcher fnmatchcase [("-", "B"); ("+", "*")] ["A"; "B"; "C"]) /\
  (forall name,
      name ∈ Cli._folder_matcher fnmatchcase [("-", "B"); ("+", "*")] ["A"; "B"; "C"] ->
      name ∈ ["A"; "B"; "C"]) /\
  Cli._folder_matcher fnmatchcase [] ["A"; "B"; "C"] = ["A"; "B"; "C"].
Proof.
  apply (folder_matcher_no_duplicates fnmatchcase [("-", "B"); ("+", "*")]
                                        ["A"; "B"; "C"]).
  apply (bool_decide_unpack _). vm_compute. exact I.
Defined.

(** ** The flag filter *)

Section FlagReconciler.

Local Open Scope list_scope.

Lemma keep_supported_elem dest_flag_set msg_flags f :
  f ∈ keep_supported dest_flag_set msg_flags <-> f ∈ msg_flags /\ f ∈ dest_flag_set.
Proof.
  unfold keep_supported.
  rewrite !list_elem_of_In, List.filter_In, bool_decide_eq_true. done.
Qed.

Lemma keep_supported_sublist dest_flag_set msg_flags :
  sublist (keep_supported dest_flag_set msg_flags) msg_flags.
Proof.
  unfold keep_supported.
  induction msg_flags as [|f rest IH]; simpl; [constructor |].
  destruct (bool_decide (f ∈ dest_flag_set)); by constructor.
Qed.

(** Nothing supported is lost: a subsequence of the source flags made of
    supported flags is a subsequence of what is kept. *)
Lemma keep_supported_greatest dest_flag_set msg_flags : forall l,
  sublist l msg_flags ->
  (forall f, f ∈ l -> f ∈ dest_flag_set) ->
  sublist l (keep_supported dest_flag_set msg_flags).
Proof.
  unfold keep_supported.
  induction msg_flags as [|f rest IH]; intros l Hsub Hall; simpl.
  - done.
  - inversion Hsub as [| x l1 l2 Hs | x l1 l2 Hs]; subst.
    + destruct (bool_decide (f ∈ dest_flag_set)) eqn:Hf.
      * constructor. apply IH; [done |].
        intros g Hg. by apply Hall, list_elem_of_further.
      * apply bool_decide_eq_false in Hf. destruct Hf.
        apply Hall, list_elem_of_here.
    + destruct (bool_decide (f ∈ dest_flag_set)); [constructor |]; by apply IH.
Qed.

(** One turn of a [for] loop. *)
Lemma for_each_cons {A S} (x : A) (rest : list A) (body : A -> S -> M S) s w :
  for_each (x :: rest) body s w
  = match body x s w with
    | (inl e, w') => (inl e, w')
    | (inr s', w') => for_each rest body s' w'
    end.
Proof. reflexivity. Qed.

(** One [append] of the transfer loop: the call is logged whether or not
    the server accepts it. *)
Lemma append_message_run dest_flag_set fixed_path msg w :
  (exists err,
      append_message (Some dest_flag_set) fixed_path msg tt w
      = (inl err, logged (append_call dest_flag_set fixed_path msg) w)) \/
  (exists s',
      append_message (Some dest_flag_set) fixed_path msg tt w
      = (inr tt, logged (append_call dest_flag_set fixed_path msg)
                        (set_conn Dest s' w))).
Proof.
  unfold append_message, bind, supported_flags, ret, append, command, append_call.
  destruct (srv_append (conn Dest w) fixed_path (rfc822 msg)
                       (keep_supported dest_flag_set (flags msg))
                       (internaldate msg)) as [err | s']; eauto.
Qed.

(** The calls made by the inner loop of a chunk transfer. *)
Lemma append_loop_log dest_flag_set fixed_path msgs : forall w,
  exists n,
    log (for_each msgs (append_message (Some dest_flag_set) fixed_path) tt w).2
    = log w ++ map (append_call dest_flag_set fixed_path) (take n msgs).
Proof.
  induction msgs as [|msg rest IH]; intros w.
  - exists 0%nat. simpl. by rewrite app_nil_r.
  - rewrite for_each_cons.
    destruct (append_message_run dest_flag_set fixed_path msg w)
      as [[err ->] | [s' ->]].
    + exists 1%nat. simpl. by destruct rest.
    + destruct (IH (logged (append_call dest_flag_set fixed_path msg)
                           (set_conn Dest s' w))) as [n Hn].
      exists (S n). rewrite Hn. simpl. by rewrite <- app_assoc.
Qed.

Lemma transfer_chunk_run dest_flag_set fixed_path chunk_ids w :
  transfer_chunk dest_flag_set fixed_path chunk_ids w
  = match srv_fetch (src w) chunk_ids with
    | inl e =>
        (inl e,
         logged (Fetch Src chunk_ids [MSG_FLAGS; MSG_DATE; MSG_SIZE; MSG_RFC822]) w)
    | inr msgs =>
        for_each (map snd msgs) (append_message dest_flag_set fixed_path) tt
                 (logged (Fetch Src chunk_ids
                                [MSG_FLAGS; MSG_DATE; MSG_SIZE; MSG_RFC822]) w)
    end.
Proof.
  unfold transfer_chunk, bind, fetch, query. cbn [conn].
  by destruct (srv_fetch (src w) chunk_ids).
Qed.

(** C9. The flag list handed to [append] is the source flag list filtered
    by membership in the destination flag set: it is a subsequence of the
    source flags (their order is kept), it holds exactly the source flags
    that the destination supports, every subsequence of supported source
    flags is contained in it, and nothing is put in place of a dropped flag.
    Every call a chunk transfer makes on the destination is an [append] with
    the flags of a fetched message filtered this way. *)
Theorem append_flags_are_supported_subsequence
        (dest_flag_set : gset string) (msg_flags : list string) :
  sublist (keep_supported dest_flag_set msg_flags) msg_flags /\
  (forall f, f ∈ keep_supported dest_flag_set msg_flags
             <-> f ∈ msg_flags /\ f ∈ dest_flag_set) /\
  (forall l, sublist l msg_flags -> (forall f, f ∈ l -> f ∈ dest_flag_set) ->
             sublist l (keep_supported dest_flag_set msg_flags)) /\
  keep_supported (list_to_set ["\Seen"; "\Flagged"])
                 ["\Seen"; "\Flagged"; "\Custom"]
  = ["\Seen"; "\Flagged"] /\
  (forall fixed_path chunk_ids w,
      match srv_fetch (src w) chunk_ids with
      | inl _ =>
          log (transfer_chunk (Some dest_flag_set) fixed_path chunk_ids w).2
          = log w ++ [Fetch Src chunk_ids [MSG_FLAGS; MSG_DATE; MSG_SIZE; MSG_RFC822]]
      | inr msgs =>
          exists n,
          log (transfer_chunk (Some dest_flag_set) fixed_path chunk_ids w).2
          = log w ++
            Fetch Src chunk_ids [MSG_FLAGS; MSG_DATE; MSG_SIZE; MSG_RFC822]
            :: map (append_call dest_flag_set fixed_path) (take n (map snd msgs))
      end).
Proof.
  split; [apply keep_supported_sublist |].
  split; [intros f; apply keep_supported_elem |].
  split; [apply keep_supported_greatest |].
  split; [by vm_compute |].
  intros fixed_path chunk_ids w. rewrite transfer_chunk_run.
  destruct (srv_fetch (src w) chunk_ids) as [err | msgs]; [done |].
  destruct (append_loop_log dest_flag_set fixed_path (map snd msgs)
              (logged (Fetch Src chunk_ids [MSG_FLAGS; MSG_DATE; MSG_SIZE; MSG_RFC822])
                      w)) as [n Hn].
  exists n. rewrite Hn. simpl. by rewrite <- app_assoc.
Qed.

End FlagReconciler.

(** ** The orchestrator *)

Section Orchestrator.

Local Open Scope list_scope.

(** C10. When the source lists no folder, the run ends with [IndexError]
    right after that listing.  When the destination lists no folder, the
    run ends with an exception after at most the two listings, and with
    [IndexError] raised on the destination listing whenever the separator
    of the source could be read.  In both cases the servers are left as
    they were and no folder creation, selection, fetch or append has been
    attempted. *)
Theorem empty_listing_aborts (source destination : server) (replace_sep : string)
        (folder_filter : option (list string -> list string)) (dry_run : bool) :
  (folders source = [] ->
   run source destination replace_sep folder_filter dry_run
   = (inl Py.IndexError, World source destination [ListFolders Src])) /\
  (folders destination = [] ->
   (exists e calls,
       run source destination replace_sep folder_filter dry_run
       = (inl e, World source destination calls) /\
       (calls = [ListFolders Src] \/ calls = [ListFolders Src; ListFolders Dest])) /\
   (forall f rest sep,
       folders source = f :: rest -> folder_delim f = Some sep ->
       run source destination replace_sep folder_filter dry_run
       = (inl Py.IndexError,
          World source destination [ListFolders Src; ListFolders Dest]))).
Proof.
  destruct source as [src_folders src_selected].
  destruct destination as [dest_folders dest_selected].
  cbn [folders]. split.
  - intros ->. reflexivity.
  - intros ->. split.
    + destruct src_folders as [|[fl [sep|] name FL msgs] rest].
      * exists Py.IndexError, [ListFolders Src]. auto.
      * exists Py.IndexError, [ListFolders Src; ListFolders Dest]. auto.
      * exists Py.AttributeError, [ListFolders Src]. auto.
    + intros [fl delim name FL msgs] rest sep -> Hsep.
      cbn [folder_delim] in Hsep. subst delim. reflexivity.
Qed.

Lemma empty_listing_aborts_witness :
  run (Server [] None) sample_destination "_" None false
  = (inl Py.IndexError, World (Server [] None) sample_destination [ListFolders Src]) /\
  run sample_source (Server [] None) "_" None false
  = (inl Py.IndexError,
     World sample_source (Server [] None) [ListFolders Src; ListFolders Dest]).
Proof.
  split.
  - apply (empty_listing_aborts (Server [] None) sample_destination "_" None false).
    reflexivity.
  - eapply (empty_listing_aborts sample_source (Server [] None) "_" None false);
      reflexivity.
Defined.

(** The membership test of the per-folder loop looks a [str] up in a list
    of tuples, so it never finds it. *)
Lemma not_in_missing_always fixed_path missing_folders :
  not_in_missing fixed_path missing_folders = true.
Proof.
  unfold not_in_missing, Py.contains.
  induction missing_folders as [|m rest IH]; [reflexivity |].
  simpl in *. exact IH.
Qed.

(** C1. A run with [dry_run = true] on a source whose folder exists at the
    destination completes and calls [append] on the destination: on the
    sample servers the call log holds one [append], the same one as the run
    with [dry_run = false].  Only [create_folder] is held back. *)
Theorem dry_run_still_appends :
  let dry := run sample_source sample_destination "_" None true in
  let wet := run sample_source sample_destination "_" None false in
  dry.1 = inr tt /\
  List.filter is_append (log dry.2)
  = [Append Dest "INBOX" (Content "mid2 d2" "body") ["\Flagged"]
            "01-Jan-2021 00:00:00 +0000"] /\
  log dry.2 = log wet.2 /\
  dest dry.2 <> sample_destination /\
  List.filter is_create_folder
              (log (run source_with_archive sample_destination "_" None true).2)
  = [].
Proof.
  vm_compute. repeat split; discriminate.
Qed.

(** C2. With [dry_run = true] and a source folder that the destination
    lacks, the test guarding the destination [select_folder] is true for
    every folder, missing or not; on the sample servers the run selects the
    missing folder [Archive] on the destination and ends with the error of
    that call. *)
Theorem dry_run_selects_missing_folder :
  (forall fixed_path missing_folders dry_run,
      negb dry_run || not_in_missing fixed_path missing_folders = true) /\
  find_missing
    (build_dir_map (srv_list_folders source_with_archive) (fix_path "/" "/" "_") None)
    (srv_list_folders sample_destination)
  = [("Archive", [])] /\
  run source_with_archive sample_destination "_" None true
  = (inl no_such_folder,
     World source_with_archive sample_destination
           [ListFolders Src; ListFolders Dest; SelectFolder Dest "Archive"]).
Proof.
  split.
  - intros. rewrite not_in_missing_always. by destruct dry_run.
  - split; by vm_compute.
Qed.

End Orchestrator.

(** ** The deduplicator *)

Section Deduplicator.

Local Open Scope list_scope.

(** *** Batches *)

Lemma concat_slices {A} (k : nat) (l : list A) (n : nat) :
  concat (map (fun i => Py.slice l (i * k) ((i + 1) * k)) (seq 0 n))
  = take (n * k) l.
Proof.
  induction n as [|n IH].
  - reflexivity.
  - rewrite List.seq_S, List.map_app, List.concat_app, IH.
    cbn [map concat plus]. rewrite app_nil_r. unfold Py.slice.
    replace ((n + 1) * k - n * k)%nat with k by lia.
    rewrite take_take_drop. f_equal. lia.
Qed.

Lemma ceil_div_covers (n k : nat) : (0 < k)%nat -> (n <= Py.ceil_div n k * k)%nat.
Proof.
  intros Hk. unfold Py.ceil_div.
  pose proof (Z.mul_div_le (- Z.of_nat n) (Z.of_nat k) ltac:(lia)) as Hq.
  assert (Hneg : (- Z.of_nat n / Z.of_nat k <= 0)%Z) by nia.
  apply Nat2Z.inj_le. rewrite Nat2Z.inj_mul, Z2Nat.id by lia. nia.
Qed.

(** The batches of a list of messages, before their identifiers are taken. *)
Lemma batches_pieces (msgs : list message) :
  exists pieces,
    batches (map uid msgs) = map (map uid) pieces /\
    concat pieces = msgs /\
    Forall (fun piece => sublist piece msgs) pieces.
Proof.
  assert (Hk : (0 < MSG_CHUNK_SIZE)%nat) by (unfold MSG_CHUNK_SIZE; lia).
  unfold batches. generalize dependent MSG_CHUNK_SIZE. intros k Hk.
  exists (map (fun i => Py.slice msgs (i * k) ((i + 1) * k))
              (seq 0 (Py.ceil_div (length msgs) k))).
  split; [| split].
  - rewrite List.length_map, List.map_map. apply List.map_ext. intros i.
    unfold Py.slice. by rewrite List.skipn_map, List.firstn_map.
  - rewrite concat_slices. apply take_ge. by apply ceil_div_covers.
  - apply Forall_forall. intros piece Hin.
    apply list_elem_of_In, List.in_map_iff in Hin as (i & <- & _).
    unfold Py.slice. etrans; [apply sublist_take | apply sublist_drop].
Qed.

Lemma not_deleted_sublist msgs : sublist (not_deleted msgs) msgs.
Proof.
  unfold not_deleted. induction msgs as [|m rest IH]; simpl; [constructor |].
  destruct (negb (is_deleted m)); by constructor.
Qed.

(** *** One fetch *)

(** The server returns exactly the requested messages when they are asked
    for in folder order. *)
Lemma fetch_from_sublist msgs piece :
  NoDup (map uid msgs) ->
  sublist piece msgs ->
  fetch_from msgs (map uid piece) = map keyed piece.
Proof.
  intros Hnd Hsub. unfold fetch_from. change (fun m => (uid m, m)) with keyed.
  f_equal. induction Hsub as [| x l1 l2 Hsub IH | x l1 l2 Hsub IH].
  - reflexivity.
  - cbn [List.filter map] in *. apply NoDup_cons in Hnd as [Hx Hnd].
    rewrite bool_decide_eq_true_2 by apply list_elem_of_here.
    f_equal. etrans; [| exact (IH Hnd)]. apply List.filter_ext_in.
    intros m Hm. apply bool_decide_ext. rewrite elem_of_cons.
    split; [| auto]. intros [Heq | ?]; [| done].
    destruct Hx. rewrite <- Heq. apply list_elem_of_In.
    by apply List.in_map.
  - cbn [List.filter map] in *. apply NoDup_cons in Hnd as [Hx Hnd].
    rewrite bool_decide_eq_false_2; [by apply IH |].
    intros Hin. apply Hx.
    apply list_elem_of_In, List.in_map_iff in Hin as (m & Hm & Hin).
    rewrite <- Hm. apply list_elem_of_In, List.in_map, list_elem_of_In.
    eapply elem_of_sublist; [apply list_elem_of_In |]; eauto.
Qed.

Lemma fetch_run c ids fields w msgs :
  selected_msgs (conn c w) = inr msgs ->
  fetch c ids fields w
  = (inr (fetch_from msgs ids), logged (Fetch c ids fields) w).
Proof. intros Hsel. unfold fetch, query, srv_fetch. by rewrite Hsel. Qed.

Lemma search_run c w msgs :
  selected_msgs (conn c w) = inr msgs ->
  search c w
  = (inr (map uid (not_deleted msgs)), logged (Search c ["NOT"; "DELETED"]) w).
Proof. intros Hsel. unfold search, query, srv_search. by rewrite Hsel. Qed.

(** *** A header loop

    Both loops fetch batch after batch and fold the answers into their
    variables; the servers are only read. *)
Lemma fetch_loop_run {S} c fields (step : list (N * message) -> S -> S) msgs :
  NoDup (map uid msgs) ->
  forall pieces acc w,
    selected_msgs (conn c w) = inr msgs ->
    Forall (fun piece => sublist piece msgs) pieces ->
    exists w',
      for_each (map (map uid) pieces)
               (fun chunk_ids acc =>
                  bind (fetch c chunk_ids fields)
                       (fun info => ret (step info acc)))
               acc w
      = (inr (fold_left (fun a piece => step (map keyed piece) a) pieces acc), w') /\
      src w' = src w /\ dest w' = dest w.
Proof.
  intros Hnd. induction pieces as [|piece rest IH]; intros acc w Hsel Hsub.
  - exists w. by cbn.
  - apply Forall_cons in Hsub as [Hpiece Hrest].
    cbn [map]. rewrite for_each_cons. unfold bind at 1.
    rewrite (fetch_run c _ _ w msgs Hsel), fetch_from_sublist by done.
    cbn [ret].
    destruct (IH (step (map keyed piece) acc)
                 (logged (Fetch c (map uid piece) fields) w)) as (w' & Hrun & Hs & Hd).
    + by destruct c.
    + done.
    + exists w'. by rewrite Hrun.
Qed.

Lemma fold_pieces {S} (f : S -> N * message -> S) pieces : forall acc,
  fold_left (fun a piece => fold_left f (map keyed piece) a) pieces acc
  = fold_left f (map keyed (concat pieces)) acc.
Proof.
  induction pieces as [|piece rest IH]; intros acc; [reflexivity |].
  cbn [fold_left concat]. by rewrite IH, List.map_app, List.fold_left_app.
Qed.

(** *** The source loop *)

Lemma dict_set_fresh (d : list (N * message)) k v :
  k ∉ map fst d -> Py.dict_set d k v = d ++ [(k, v)].
Proof.
  induction d as [|[k' v'] rest IH]; intros Hk; [reflexivity |].
  cbn [Py.dict_set map fst] in *. apply not_elem_of_cons in Hk as [Hne Hk].
  rewrite decide_False by congruence. cbn [app]. by rewrite IH.
Qed.

Lemma fold_consider dest_msg_set msgs : forall move_messages data_total,
  NoDup (map fst move_messages ++ map uid msgs) ->
  fold_left (consider dest_msg_set) (map keyed msgs) (move_messages, data_total)
  = (move_messages ++
       map keyed (List.filter
                    (fun m => negb (bool_decide (key_of m ∈ dest_msg_set))) msgs),
     (data_total +
      sumZ (map rfc822_size
                (List.filter
                   (fun m => negb (bool_decide (key_of m ∈ dest_msg_set))) msgs)))%Z).
Proof.
  induction msgs as [|m rest IH]; intros move_messages data_total Hnd.
  - cbn. rewrite app_nil_r. f_equal. lia.
  - cbn [map fold_left List.filter]. unfold consider at 2, keyed at 2.
    apply NoDup_app in Hnd as (Hmm & Hdisj & Hrest).
    cbn [map] in Hrest, Hdisj. apply NoDup_cons in Hrest as [Hm Hrest].
    destruct (negb (bool_decide (key_of m ∈ dest_msg_set))).
    + rewrite dict_set_fresh.
      2:{ intros Hin. apply (Hdisj _ Hin). apply list_elem_of_here. }
      rewrite IH.
      * cbn [map sumZ fold_right]. rewrite <- app_assoc. cbn [app].
        f_equal. unfold sumZ. lia.
      * rewrite List.map_app. cbn [map fst]. rewrite <- app_assoc. cbn [app].
        apply NoDup_app. split; [done |]. split.
        -- intros x Hx Hx'. apply (Hdisj x Hx).
           apply elem_of_cons in Hx' as [-> | Hx']; [apply list_elem_of_here |].
           by apply list_elem_of_further.
        -- by apply NoDup_cons.
    + apply IH. apply NoDup_app. split; [done |]. split; [| done].
      intros x Hx Hx'. apply (Hdisj x Hx). by apply list_elem_of_further.
Qed.

(** *** The destination loop *)

Lemma add_keys_elem info : forall (dest_msg_set : gset string) key,
  key ∈ add_keys info dest_msg_set
  <-> key ∈ dest_msg_set \/ exists item, item ∈ info /\ key_of item.2 = key.
Proof.
  unfold add_keys. induction info as [|item rest IH]; intros dest_msg_set key.
  - cbn. split; [auto |]. intros [? | (item & Hin & _)]; [done |].
    by apply elem_of_nil in Hin.
  - cbn [map fold_left]. rewrite IH, elem_of_union, elem_of_singleton. split.
    + intros [[? | ->] | (item' & Hin & Hk)]; [auto | |].
      * right. exists item. split; [apply list_elem_of_here | done].
      * right. exists item'. split; [by apply list_elem_of_further | done].
    + intros [? | (item' & Hin & Hk)]; [auto |].
      apply elem_of_cons in Hin as [-> | Hin]; [auto |].
      right. by exists item'.
Qed.

Lemma fold_add_keys_elem pieces : forall (dest_msg_set : gset string) key,
  key ∈ fold_left (fun a piece => add_keys (map keyed piece) a) pieces dest_msg_set
  <-> key ∈ dest_msg_set \/ exists m, m ∈ concat pieces /\ key_of m = key.
Proof.
  induction pieces as [|piece rest IH]; intros dest_msg_set key.
  - cbn. split; [auto |]. intros [? | (m & Hin & _)]; [done |].
    by apply elem_of_nil in Hin.
  - cbn [fold_left concat]. rewrite IH, add_keys_elem. split.
    + intros [[? | (item & Hin & Hk)] | (m & Hin & Hk)]; [auto | |].
      * apply list_elem_of_In, List.in_map_iff in Hin as (m & <- & Hin).
        right. exists m. split; [| done].
        apply elem_of_app. left. by apply list_elem_of_In.
      * right. exists m. split; [| done]. apply elem_of_app. by right.
    + intros [? | (m & Hin & Hk)]; [auto |].
      apply elem_of_app in Hin as [Hin | Hin].
      * left. right. exists (keyed m). split; [| done].
        apply list_elem_of_In, List.in_map. by apply list_elem_of_In.
      * right. by exists m.
Qed.

Lemma not_deleted_elem msgs m :
  m ∈ not_deleted msgs <-> m ∈ msgs /\ is_deleted m = false.
Proof.
  unfold not_deleted. rewrite !list_elem_of_In, List.filter_In, negb_true_iff. done.
Qed.

Lemma not_deleted_NoDup msgs :
  NoDup (map uid msgs) -> NoDup (map uid (not_deleted msgs)).
Proof.
  intros Hnd. eapply sublist_NoDup; [exact Hnd |].
  apply (fmap_sublist uid), not_deleted_sublist.
Qed.

Lemma pieces_of_not_deleted msgs pieces :
  Forall (fun piece => sublist piece (not_deleted msgs)) pieces ->
  Forall (fun piece => sublist piece msgs) pieces.
Proof.
  intros Hall. eapply Forall_impl; [exact Hall |]. intros piece Hsub.
  etrans; [exact Hsub | apply not_deleted_sublist].
Qed.

Lemma uid_determines msgs m m' :
  NoDup (map uid msgs) -> m ∈ msgs -> m' ∈ msgs -> uid m = uid m' -> m = m'.
Proof.
  induction msgs as [|x rest IH]; intros Hnd Hm Hm' Heq.
  - by apply elem_of_nil in Hm.
  - cbn [map] in Hnd. apply NoDup_cons in Hnd as [Hx Hnd].
    apply elem_of_cons in Hm as [-> | Hm];
      apply elem_of_cons in Hm' as [-> | Hm']; [done | | | by apply IH].
    + destruct Hx. rewrite Heq. by apply (list_elem_of_fmap_2 uid).
    + destruct Hx. rewrite <- Heq. by apply (list_elem_of_fmap_2 uid).
Qed.

End Deduplicator.

(** * Further properties of the code *)

(** ** The chunk planner, continued *)

Section ChunkPlannerMore.

Local Open Scope Z_scope.
Local Open Scope list_scope.

Lemma chunk_loop_nonempty items max_size : forall chunk chunk_total c,
  c ∈ chunk_loop items max_size chunk chunk_total -> c <> [].
Proof.
  induction items as [|[msg_id details] rest IH]; intros chunk chunk_total c Hc;
    simpl in Hc.
  - destruct chunk; [by apply elem_of_nil in Hc |].
    apply list_elem_of_singleton in Hc. by subst.
  - destruct (max_size <=? chunk_total + rfc822_size details).
    + destruct chunk as [|c0 chunk'];
        apply elem_of_cons in Hc as [-> | Hc]; try done; by eapply IH.
    + by eapply IH.
Qed.

Lemma length_concat_nonempty {A} (l : list (list A)) :
  (forall c, c ∈ l -> c <> []) -> (length l <= length (concat l))%nat.
Proof.
  induction l as [|c rest IH]; intros Hne; simpl; [lia |].
  rewrite length_app.
  assert (c <> []) by (apply Hne, list_elem_of_here).
  assert (length rest <= length (concat rest))%nat
    by (apply IH; intros; by apply Hne, list_elem_of_further).
  destruct c; [done | simpl; lia].
Qed.

(** X1. [_chunk_messages] never yields an empty chunk, whatever the sizes
    and the bound; so a transfer needs at most one chunk per message and
    the caller never fetches an empty identifier list. *)
Theorem chunks_are_never_empty (messages : list (N * message)) (max_size : Z) :
  (forall chunk, chunk ∈ _chunk_messages messages max_size -> chunk <> []) /\
  (length (_chunk_messages messages max_size) <= length messages)%nat.
Proof.
  assert (Hne : forall chunk,
             chunk ∈ _chunk_messages messages max_size -> chunk <> [])
    by (intros chunk; apply chunk_loop_nonempty).
  split; [exact Hne |].
  etrans; [by apply length_concat_nonempty |].
  unfold _chunk_messages. rewrite chunk_loop_concat. simpl.
  by rewrite List.length_map.
Qed.

(** While the running total stays below the bound nothing is yielded
    before the end. *)
Lemma chunk_loop_all_fit items max_size : forall chunk chunk_total,
  Forall (fun item => 0 <= rfc822_size item.2) items ->
  chunk_total + sumZ (map (fun item => rfc822_size item.2) items) < max_size ->
  chunk_loop items max_size chunk chunk_total
  = match chunk ++ map fst items with
    | [] => []
    | all => [all]
    end.
Proof.
  induction items as [|[msg_id details] rest IH];
    intros chunk chunk_total Hpos Hsum; simpl.
  - rewrite app_nil_r. by destruct chunk.
  - apply Forall_cons in Hpos as [Hd Hpos]. simpl in Hd, Hsum.
    assert (0 <= sumZ (map (fun item => rfc822_size item.2) rest)).
    { clear -Hpos. induction Hpos; simpl; lia. }
    destruct (Z.leb_spec max_size (chunk_total + rfc822_size details)); [lia |].
    rewrite IH by (done || lia). by rewrite <- app_assoc.
Qed.

(** X2. When the reported sizes are non-negative and their sum is below
    the bound, the whole dict goes out as one chunk, in dict order. *)
Theorem small_transfer_is_one_chunk (messages : list (N * message)) (max_size : Z) :
  messages <> [] ->
  Forall (fun item => 0 <= rfc822_size item.2) messages ->
  sumZ (map (fun item => rfc822_size item.2) messages) < max_size ->
  _chunk_messages messages max_size = [map fst messages].
Proof.
  intros Hne Hpos Hsum. unfold _chunk_messages.
  rewrite chunk_loop_all_fit by (done || lia). simpl.
  destruct messages; [done | reflexivity].
Qed.

Lemma small_transfer_is_one_chunk_witness :
  _chunk_messages small_transfer default_max_size = [[4%N; 5%N; 6%N]].
Proof.
  apply (small_transfer_is_one_chunk small_transfer default_max_size).
  - discriminate.
  - repeat constructor; vm_compute; discriminate.
  - vm_compute. reflexivity.
Defined.

End ChunkPlannerMore.

Section ChunkPlannerPacked.

Local Open Scope Z_scope.
Local Open Scope list_scope.

(** The yields of the loop are packed; the first of them continues the
    pending chunk, or starts with the next message when nothing is pending. *)
Lemma chunk_loop_packed (sz : N -> Z) items max_size : forall chunk chunk_total,
  (forall item, item ∈ items -> sz item.1 = rfc822_size item.2) ->
  Forall (fun item => 0 <= rfc822_size item.2) items ->
  chunk_total = sumZ (map sz chunk) ->
  packed sz max_size (chunk_loop items max_size chunk chunk_total) /\
  (chunk <> [] ->
   exists ext out, chunk_loop items max_size chunk chunk_total = (chunk ++ ext) :: out) /\
  (chunk = [] ->
   forall msg_id details rest, items = (msg_id, details) :: rest ->
   exists ext out, chunk_loop items max_size chunk chunk_total = (msg_id :: ext) :: out).
Proof.
  induction items as [|[msg_id details] rest IH];
    intros chunk chunk_total Hsz Hpos Htot.
  - simpl. split; [| split].
    + destruct chunk; simpl; auto.
    + intros Hne. exists [], []. rewrite app_nil_r. by destruct chunk.
    + intros _ ? ? ? [=].
  - assert (Hrest : forall item, item ∈ rest -> sz item.1 = rfc822_size item.2)
      by (intros; apply Hsz; by apply list_elem_of_further).
    assert (Hhead : sz msg_id = rfc822_size details)
      by (apply (Hsz (msg_id, details)); apply list_elem_of_here).
    apply Forall_cons in Hpos as [Hd Hpos]. simpl in Hd. simpl.
    destruct (Z.leb_spec max_size (chunk_total + rfc822_size details)) as [Hfull | Hfit].
    + destruct chunk as [|c0 chunk'].
      * (* a message on its own; nothing was pending *)
        simpl in Htot. subst chunk_total.
        destruct (IH [] 0 Hrest Hpos eq_refl) as (Hp & _ & Hfirst).
        split; [| split].
        -- simpl. split; [| exact Hp].
           destruct rest as [|[next_id next] rest']; [done |].
           destruct (Hfirst eq_refl next_id next rest' eq_refl) as (ext & out & ->).
           apply Forall_cons in Hpos as [Hn _]. simpl in Hn.
           pose proof (Hsz (next_id, next)
                         ltac:(apply list_elem_of_further, list_elem_of_here))
             as Hnext.
           simpl in Hnext. simpl. lia.
        -- done.
        -- intros _ ? ? ? [= <- <- <-]. by exists [], (chunk_loop rest max_size [] 0).
      * (* the pending chunk is closed *)
        destruct (IH [msg_id] (rfc822_size details) Hrest Hpos)
          as (Hp & Hcont & _); [simpl; lia |].
        destruct (Hcont ltac:(done)) as (ext & out & Hout).
        split; [| split].
        -- simpl. rewrite Hout. split; [| by rewrite <- Hout].
           simpl in *. lia.
        -- intros _. exists [], (chunk_loop rest max_size [msg_id] (rfc822_size details)).
           by rewrite app_nil_r.
        -- done.
    + (* the message joins the pending chunk *)
      destruct (IH (chunk ++ [msg_id]) (chunk_total + rfc822_size details) Hrest Hpos)
        as (Hp & Hcont & _).
      { rewrite List.map_app, sumZ_app. simpl. lia. }
      destruct (Hcont ltac:(by destruct chunk)) as (ext & out & Hout).
      split; [exact Hp |]. split.
      * intros _. exists ([msg_id] ++ ext), out. by rewrite Hout, <- app_assoc.
      * intros -> ? ? ? [= <- <- <-]. exists ext, out. by rewrite Hout.
Qed.

(** X3. For a dict with non-negative reported sizes the plan is packed: a
    chunk is only closed when the next message would make it reach the
    bound, so every chunk together with the first message of the following
    chunk has a cumulative size of at least [max_size]. *)
Theorem chunks_are_packed (messages : list (N * message)) (max_size : Z) :
  NoDup (map fst messages) ->
  Forall (fun item => 0 <= rfc822_size item.2) messages ->
  packed (size_in messages) max_size (_chunk_messages messages max_size).
Proof.
  intros Hnd Hpos.
  apply (chunk_loop_packed (size_in messages) messages max_size [] 0); auto.
  intros [k d] Hk. by apply size_in_lookup.
Qed.

Lemma chunks_are_packed_witness :
  packed (size_in sample_transfer) 25 (_chunk_messages sample_transfer 25).
Proof.
  apply (chunks_are_packed sample_transfer 25).
  - apply (bool_decide_unpack _). vm_compute. exact I.
  - repeat constructor; vm_compute; discriminate.
Defined.

End ChunkPlannerPacked.

Section ChunkPlannerRule.

Local Open Scope Z_scope.
Local Open Scope list_scope.

Lemma size_in_nonneg messages msg_id :
  Forall (fun item => 0 <= rfc822_size item.2) messages ->
  0 <= size_in messages msg_id.
Proof.
  intros Hpos. unfold size_in.
  destruct (List.find _ messages) as [item|] eqn:Hfind; [| lia].
  apply List.find_some in Hfind as [Hin _].
  rewrite Forall_forall in Hpos. by apply Hpos, list_elem_of_In.
Qed.

Lemma sumZ_nonneg (sz : N -> Z) ids : (forall i, 0 <= sz i) -> 0 <= sumZ (map sz ids).
Proof.
  intros Hsz. induction ids as [|i rest IH]; simpl; [lia |].
  specialize (Hsz i). lia.
Qed.

Lemma greedy_plan_tail sz max_size c plan :
  greedy_plan sz max_size (c :: plan) -> greedy_plan sz max_size plan.
Proof.
  intros (Hne & Hlow & Hpacked).
  apply Forall_cons in Hne as [_ Hne]. apply Forall_cons in Hlow as [_ Hlow].
  destruct Hpacked as [_ Hpacked]. done.
Qed.

(** A chunk of a greedy plan cannot be cut short: what follows it in the
    plan would have fitted. *)
Lemma greedy_plan_head sz max_size c P d Q l :
  (forall i, 0 <= sz i) ->
  greedy_plan sz max_size (c :: P) ->
  greedy_plan sz max_size (d :: Q) ->
  d = c ++ l ->
  concat P = l ++ concat Q ->
  l = [].
Proof.
  intros Hsz (HneP & _ & HpackedP) (_ & HlowQ & _) -> Hcat.
  destruct l as [|h t]; [done |]. exfalso.
  apply Forall_cons in HneP as [Hc HneP].
  apply Forall_cons in HlowQ as [Hd _].
  destruct P as [|[|h' c'] P']; [done | by apply Forall_cons in HneP as [? _] |].
  cbn in Hcat. injection Hcat as -> _.
  destruct HpackedP as [Hfull _].
  assert (Hlen : (2 <= length (c ++ h :: t))%nat).
  { rewrite length_app. cbn. destruct c; [done | cbn; lia]. }
  specialize (Hd Hlen). rewrite List.map_app, sumZ_app in Hd.
  change (sumZ (map sz (h :: t))) with (sz h + sumZ (map sz t)) in Hd.
  pose proof (sumZ_nonneg sz t Hsz). lia.
Qed.

(** Two greedy plans of the same messages are one plan. *)
Lemma greedy_plan_unique sz max_size :
  (forall i, 0 <= sz i) ->
  forall P Q,
    greedy_plan sz max_size P -> greedy_plan sz max_size Q ->
    concat P = concat Q -> P = Q.
Proof.
  intros Hsz. induction P as [|c P IH]; intros Q HP HQ Hcat.
  - destruct Q as [|d Q]; [done |]. destruct HQ as (Hne & _ & _).
    apply Forall_cons in Hne as [Hd _]. cbn in Hcat. by destruct d.
  - destruct Q as [|d Q].
    + destruct HP as (Hne & _ & _).
      apply Forall_cons in Hne as [Hc _]. cbn in Hcat. by destruct c.
    + cbn [concat] in Hcat.
      apply List.app_eq_app in Hcat as [l [[Hc Hrest] | [Hd Hrest]]].
      * assert (l = []) as -> by (by eapply (greedy_plan_head sz max_size d Q c P)).
        rewrite app_nil_r in Hc. cbn in Hrest. subst d. f_equal.
        apply IH; [by eapply greedy_plan_tail | by eapply greedy_plan_tail | done].
      * assert (l = []) as -> by (by eapply (greedy_plan_head sz max_size c P d Q)).
        rewrite app_nil_r in Hd. cbn in Hrest. subst d. f_equal.
        apply IH; [by eapply greedy_plan_tail | by eapply greedy_plan_tail | done].
Qed.

(** C7. For a dict with distinct keys and non-negative reported sizes the
    plan of [_chunk_messages] is the greedy one, and the only one.  No chunk
    is empty; a chunk of two or more messages has a cumulative size strictly
    below [max_size], so a message only joins a non-empty chunk while the
    total stays below the bound; and a chunk is closed only when the next
    message, which starts the following chunk, would have made the total
    reach [max_size].  The chunks put end to end are the keys of the dict,
    and every other plan of these keys with the three properties is the
    plan of [_chunk_messages]: the chunk is closed exactly when it is
    non-empty and the next message would reach the bound.  A message whose
    size alone reaches [max_size] is yielded as a singleton chunk.  The
    planner is a total function, so it always terminates. *)
Theorem chunk_closing_rule (messages : list (N * message)) (max_size : Z) :
  NoDup (map fst messages) ->
  Forall (fun item => 0 <= rfc822_size item.2) messages ->
  greedy_plan (size_in messages) max_size (_chunk_messages messages max_size) /\
  concat (_chunk_messages messages max_size) = map fst messages /\
  (forall plan,
      greedy_plan (size_in messages) max_size plan ->
      concat plan = map fst messages ->
      plan = _chunk_messages messages max_size) /\
  (forall msg_id details,
      (msg_id, details) ∈ messages ->
      max_size <= rfc822_size details ->
      [msg_id] ∈ _chunk_messages messages max_size).
Proof.
  intros Hnd Hpos.
  assert (Hsz : forall item, item ∈ messages ->
                             size_in messages item.1 = rfc822_size item.2).
  { intros [k d] Hk. by apply size_in_lookup. }
  assert (Hgreedy : greedy_plan (size_in messages) max_size
                                (_chunk_messages messages max_size)).
  { split; [| split].
    - apply Forall_forall. intros c Hc. by eapply chunk_loop_nonempty.
    - apply Forall_forall. intros c Hc Hlen.
      eapply (chunk_loop_bounded (size_in messages) messages max_size [] 0); eauto.
      simpl. lia.
    - by apply (chunk_loop_packed (size_in messages) messages max_size [] 0). }
  assert (Hcat : concat (_chunk_messages messages max_size) = map fst messages)
    by apply chunk_loop_concat.
  split; [exact Hgreedy |]. split; [exact Hcat |]. split.
  - intros plan Hplan Hplan_cat.
    apply (greedy_plan_unique (size_in messages) max_size); [| done | done | congruence].
    intros i. by apply size_in_nonneg.
  - intros msg_id details Hin Hbig.
    eapply chunk_loop_oversized; eauto. lia.
Qed.

Lemma chunk_closing_rule_witness :
  greedy_plan (size_in sample_transfer) default_max_size
              (_chunk_messages sample_transfer default_max_size) /\
  concat (_chunk_messages sample_transfer default_max_size)
  = map fst sample_transfer /\
  (forall plan,
      greedy_plan (size_in sample_transfer) default_max_size plan ->
      concat plan = map fst sample_transfer ->
      plan = _chunk_messages sample_transfer default_max_size) /\
  (forall msg_id details,
      (msg_id, details) ∈ sample_transfer ->
      default_max_size <= rfc822_size details ->
      [msg_id] ∈ _chunk_messages sample_transfer default_max_size).
Proof.
  apply (chunk_closing_rule sample_transfer default_max_size).
  - apply (bool_decide_unpack _). vm_compute. exact I.
  - repeat constructor; vm_compute; discriminate.
Defined.

End ChunkPlannerRule.

(** ** The header batches *)

Section Batches.

Local Open Scope list_scope.

Lemma ceil_div_tight (n k i : nat) :
  (0 < k)%nat -> (i < Py.ceil_div n k)%nat -> (i * k < n)%nat.
Proof.
  intros Hk Hi. unfold Py.ceil_div in Hi.
  pose proof (Z.mul_succ_div_gt (- Z.of_nat n) (Z.of_nat k) ltac:(lia)) as Hq.
  apply Nat2Z.inj_lt. rewrite Nat2Z.inj_mul.
  apply Nat2Z.inj_lt in Hi.
  destruct (Z.le_gt_cases 0 (- (- Z.of_nat n / Z.of_nat k))) as [Hnn | Hneg].
  - rewrite Z2Nat.id in Hi by done. nia.
  - rewrite Z2Nat.nonpos in Hi by lia. lia.
Qed.

Lemma slices_cover {A} (k : nat) (l : list A) :
  (0 < k)%nat ->
  let slices := map (fun i => Py.slice l (i * k) ((i + 1) * k))
                    (seq 0 (Py.ceil_div (length l) k)) in
  concat slices = l /\
  (forall b, b ∈ slices -> b <> [] /\ (length b <= k)%nat).
Proof.
  intros Hk slices. split.
  - unfold slices. rewrite concat_slices. apply take_ge. by apply ceil_div_covers.
  - intros b Hb.
    apply list_elem_of_In, List.in_map_iff in Hb as (i & <- & Hi).
    apply List.in_seq in Hi as [_ Hi]. simpl in Hi.
    pose proof (ceil_div_tight (length l) k i Hk Hi) as Hlt.
    unfold Py.slice. replace ((i + 1) * k - i * k)%nat with k by lia.
    split.
    + intros Hnil. apply (f_equal length) in Hnil.
      rewrite length_take, length_drop in Hnil. simpl in Hnil. lia.
    + rewrite length_take. lia.
Qed.

(** X4. The header loops cut a search result into consecutive batches:
    put end to end the batches are the search result, no batch is empty
    and none holds more than [MSG_CHUNK_SIZE] identifiers.  An empty search
    result gives no batch, hence no fetch. *)
Theorem batches_cover_search_result (ids : list N) :
  concat (batches ids) = ids /\
  (forall b, b ∈ batches ids -> b <> [] /\ (length b <= MSG_CHUNK_SIZE)%nat) /\
  batches [] = [].
Proof.
  assert (Hk : (0 < MSG_CHUNK_SIZE)%nat) by (unfold MSG_CHUNK_SIZE; lia).
  destruct (slices_cover MSG_CHUNK_SIZE ids Hk) as [Hcat Hb].
  split; [exact Hcat |]. split; [exact Hb |]. reflexivity.
Qed.

End Batches.

(** ** The folder name mapper, continued *)

Section NameMapperMore.

Lemma fix_path_two_passes src_sep dest_sep replace_sep path :
  Ascii.eqb src_sep dest_sep = false ->
  fix_path (sep_string src_sep) (sep_string dest_sep) replace_sep path
  = substitute src_sep (sep_string dest_sep)
               (substitute dest_sep replace_sep path).
Proof.
  intros Hne. unfold fix_path.
  assert (String.eqb (sep_string src_sep) (sep_string dest_sep) = false) as ->
      by (unfold sep_string; simpl; by rewrite Hne).
  cbn [negb]. by rewrite !str_replace_char.
Qed.

Lemma count_char_app c a b :
  count_char c (a +:+ b) = (count_char c a + count_char c b)%nat.
Proof. induction a as [|d a IH]; simpl; [done | rewrite IH; lia]. Qed.

Lemma count_char_substitute c d new s :
  count_char c (substitute d new s)
  = ((if Ascii.eqb c d then 0 else count_char c s)
     + count_char d s * count_char c new)%nat.
Proof.
  induction s as [|e s IH]; simpl.
  - by destruct (Ascii.eqb c d).
  - destruct (Ascii.eqb e d) eqn:Hed.
    + apply Ascii.eqb_eq in Hed as ->.
      rewrite count_char_app, IH. rewrite (Ascii.eqb_sym d c).
      destruct (Ascii.eqb c d); lia.
    + simpl. rewrite IH. destruct (Ascii.eqb c d) eqn:Hcd; [| lia].
      apply Ascii.eqb_eq in Hcd as ->. rewrite Hed. lia.
Qed.

(** X5. When the separators differ and the substitute holds neither of
    them, the mapped path has exactly as many destination separators as the
    source path had source separators, and no source separator is left: the
    depth of a folder in the hierarchy is kept. *)
Theorem fix_path_keeps_depth (src_sep dest_sep : ascii) (replace_sep path : string) :
  src_sep <> dest_sep ->
  count_char src_sep replace_sep = 0%nat ->
  count_char dest_sep replace_sep = 0%nat ->
  count_char dest_sep
             (fix_path (sep_string src_sep) (sep_string dest_sep) replace_sep path)
  = count_char src_sep path /\
  count_char src_sep
             (fix_path (sep_string src_sep) (sep_string dest_sep) replace_sep path)
  = 0%nat.
Proof.
  intros Hne Hsrc Hdest.
  assert (Hsd : Ascii.eqb src_sep dest_sep = false) by by apply Ascii.eqb_neq.
  assert (Hds : Ascii.eqb dest_sep src_sep = false)
    by (rewrite Ascii.eqb_sym; exact Hsd).
  rewrite fix_path_two_passes by done.
  rewrite !count_char_substitute, Hsrc, Hdest, Hsd, Hds, !Ascii.eqb_refl.
  unfold sep_string. simpl. rewrite Hds, Ascii.eqb_refl. lia.
Qed.

Lemma fix_path_keeps_depth_witness :
  count_char "." (fix_path "/" "." "_" "a/b.c/d") = count_char "/" "a/b.c/d" /\
  count_char "/" (fix_path "/" "." "_" "a/b.c/d") = 0%nat.
Proof.
  apply (fix_path_keeps_depth "/" "." "_" "a/b.c/d").
  - discriminate.
  - reflexivity.
  - reflexivity.
Defined.

Lemma string_app_assoc (a b c : string) : a +:+ (b +:+ c) = (a +:+ b) +:+ c.
Proof.
  induction a as [|d a IH]; [done |].
  change (String d (a +:+ (b +:+ c)) = String d ((a +:+ b) +:+ c)).
  by rewrite IH.
Qed.

Lemma substitute_app c new a b :
  substitute c new (a +:+ b) = substitute c new a +:+ substitute c new b.
Proof.
  induction a as [|d a IH]; simpl; [done |]. rewrite IH.
  destruct (Ascii.eqb d c); [apply string_app_assoc | done].
Qed.

Lemma substitute_absent c new s :
  count_char c s = 0%nat -> substitute c new s = s.
Proof.
  induction s as [|d s IH]; simpl; [done |].
  destruct (Ascii.eqb d c); [done |]. intros Hs. by rewrite IH.
Qed.

(** X6. The mapping loses information: when the separators differ and the
    substitute holds no destination separator, a path and the same path
    with its destination separators already replaced by the substitute are
    mapped to one destination path.  With separators [/] and [.], the
    source folders [a.b] and [a_b] both become [a_b]. *)
Theorem fix_path_collides (src_sep dest_sep : ascii) (replace_sep path : string) :
  src_sep <> dest_sep ->
  count_char dest_sep replace_sep = 0%nat ->
  fix_path (sep_string src_sep) (sep_string dest_sep) replace_sep
           (substitute dest_sep replace_sep path)
  = fix_path (sep_string src_sep) (sep_string dest_sep) replace_sep path.
Proof.
  intros Hne Hdest.
  assert (Hsd : Ascii.eqb src_sep dest_sep = false) by by apply Ascii.eqb_neq.
  rewrite !fix_path_two_passes by done. f_equal.
  induction path as [|d path IH]; simpl; [done |].
  destruct (Ascii.eqb d dest_sep) eqn:Hd.
  - rewrite substitute_app, IH. by rewrite (substitute_absent _ _ replace_sep).
  - simpl. by rewrite Hd, IH.
Qed.

Lemma fix_path_collides_witness :
  fix_path "/" "." "_" "a_b" = fix_path "/" "." "_" "a.b".
Proof.
  apply (fix_path_collides "/" "." "_" "a.b").
  - discriminate.
  - reflexivity.
Defined.

End NameMapperMore.

(** ** The folder filter, continued *)

Section FolderFilterMore.

Local Open Scope list_scope.

Variable fnmatch : string -> string -> bool.

Lemma matcher_as_fold patterns folders :
  Cli._folder_matcher fnmatch patterns folders
  = fold_left (Cli.filter_step fnmatch folders) patterns
              (Cli.initial_working_set patterns folders).
Proof. apply folder_matcher_run_spec. Qed.

Lemma fold_excludes folders patterns : forall working,
  Forall (fun pattern => Cli.is_include pattern.1 = false) patterns ->
  fold_left (Cli.filter_step fnmatch folders) patterns working
  = List.filter (fun name => forallb (fun pattern => negb (fnmatch name pattern.2))
                                     patterns)
                working.
Proof.
  induction patterns as [|pattern rest IH]; intros working Hall; simpl.
  - induction working as [|x l IHl]; simpl; [done | by rewrite <- IHl].
  - apply Forall_cons in Hall as [Hp Hrest].
    rewrite IH by done. unfold Cli.filter_step. rewrite Hp.
    induction working as [|x l IHl]; simpl; [done |].
    destruct (fnmatch x pattern.2); simpl; [done |].
    destruct (forallb _ rest); by rewrite IHl.
Qed.

(** X7. A pattern list made only of excludes keeps, in their original
    order, exactly the folders that match none of the patterns. *)
Theorem excludes_only_keep_the_unmatched (patterns : list (string * string))
        (folders : list string) :
  Forall (fun pattern => Cli.is_include pattern.1 = false) patterns ->
  Cli._folder_matcher fnmatch patterns folders
  = List.filter (fun name => forallb (fun pattern => negb (fnmatch name pattern.2))
                                     patterns)
                folders.
Proof.
  intros Hall. rewrite matcher_as_fold.
  assert (Cli.initial_working_set patterns folders = folders) as ->.
  { destruct patterns as [|[d p] rest]; [done |].
    apply Forall_cons in Hall as [Hd _]. simpl in *. by rewrite Hd. }
  by apply fold_excludes.
Qed.

Lemma fold_add_new_elem include x : forall working,
  x ∈ fold_left Cli.add_new include working <-> x ∈ working \/ x ∈ include.
Proof.
  induction include as [|name rest IH]; intros working; simpl.
  - rewrite elem_of_nil. tauto.
  - rewrite IH, elem_of_cons. unfold Cli.add_new.
    case_bool_decide as Hin.
    + split; [tauto |]. intros [? | [-> | ?]]; auto.
    + rewrite elem_of_app, list_elem_of_singleton. tauto.
Qed.

Lemma include_step_elem folders working direction pat x :
  Cli.is_include direction = true ->
  x ∈ Cli.filter_step fnmatch folders working (direction, pat)
  <-> x ∈ working \/ (x ∈ folders /\ fnmatch x pat = true).
Proof.
  intros Hd. unfold Cli.filter_step. simpl. rewrite Hd, fold_add_new_elem.
  unfold Cli.fnmatch_filter.
  by rewrite (list_elem_of_In (List.filter _ _) x), List.filter_In,
    <- list_elem_of_In.
Qed.

Lemma fold_includes_elem folders patterns x : forall working,
  Forall (fun pattern => Cli.is_include pattern.1 = true) patterns ->
  x ∈ fold_left (Cli.filter_step fnmatch folders) patterns working
  <-> x ∈ working \/
      (x ∈ folders /\ exists pattern, pattern ∈ patterns /\ fnmatch x pattern.2 = true).
Proof.
  induction patterns as [|[d p] rest IH]; intros working Hall; simpl.
  - split; [auto |]. intros [? | (_ & ? & Hin & _)]; [done |].
    by apply elem_of_nil in Hin.
  - apply Forall_cons in Hall as [Hd Hrest]. simpl in Hd.
    rewrite IH, include_step_elem by done. split.
    + intros [[? | [? ?]] | (? & q & Hq & ?)]; [auto | |].
      * right. split; [done |]. exists (d, p). split; [apply list_elem_of_here | done].
      * right. split; [done |]. exists q. split; [by apply list_elem_of_further | done].
    + intros [? | (? & q & Hq & Hm)]; [auto |].
      apply elem_of_cons in Hq as [-> | Hq]; [auto |].
      right. split; [done |]. by exists q.
Qed.

(** X8. A non-empty pattern list made only of includes selects exactly the
    folders that match at least one of the patterns. *)
Theorem includes_only_select_the_matched (patterns : list (string * string))
        (folders : list string) (name : string) :
  patterns <> [] ->
  Forall (fun pattern => Cli.is_include pattern.1 = true) patterns ->
  name ∈ Cli._folder_matcher fnmatch patterns folders
  <-> name ∈ folders /\
      exists pattern, pattern ∈ patterns /\ fnmatch name pattern.2 = true.
Proof.
  intros Hne Hall. rewrite matcher_as_fold, fold_includes_elem by done.
  assert (Cli.initial_working_set patterns folders = []) as ->.
  { destruct patterns as [|[d p] rest]; [done |].
    apply Forall_cons in Hall as [Hd _]. simpl in *. by rewrite Hd. }
  rewrite elem_of_nil. tauto.
Qed.

Lemma initial_working_set_elem patterns folders x :
  x ∈ Cli.initial_working_set patterns folders -> x ∈ folders.
Proof.
  unfold Cli.initial_working_set. destruct patterns as [|[d p] rest]; [done |].
  destruct (Cli.is_include d); [| done]. by rewrite elem_of_nil.
Qed.

(** X9. The last pattern has the last word: after a final exclude no
    folder of the result matches it, and after a final include every folder
    that matches it is in the result, whatever the patterns before. *)
Theorem last_pattern_wins (patterns : list (string * string))
        (folders : list string) (direction pat : string) :
  (Cli.is_include direction = false ->
   forall name,
     name ∈ Cli._folder_matcher fnmatch (patterns ++ [(direction, pat)]) folders ->
     fnmatch name pat = false) /\
  (Cli.is_include direction = true ->
   forall name,
     name ∈ folders -> fnmatch name pat = true ->
     name ∈ Cli._folder_matcher fnmatch (patterns ++ [(direction, pat)]) folders).
Proof.
  rewrite matcher_as_fold, List.fold_left_app. cbn [fold_left]. split.
  - intros Hd name Hin. unfold Cli.filter_step in Hin. simpl in Hin.
    rewrite Hd in Hin.
    apply list_elem_of_In, List.filter_In in Hin as [_ Hm].
    by apply negb_true_iff in Hm.
  - intros Hd name Hin Hm. apply include_step_elem; auto.
Qed.

End FolderFilterMore.

Lemma excludes_only_keep_the_unmatched_witness :
  Cli._folder_matcher fnmatchcase [("-", "B"); ("-", "D*")] ["A"; "B"; "C"; "Drafts"]
  = List.filter (fun name =>
                   forallb (fun pattern => negb (fnmatchcase name pattern.2))
                           [("-", "B"); ("-", "D*")])
                ["A"; "B"; "C"; "Drafts"].
Proof.
  apply (excludes_only_keep_the_unmatched fnmatchcase).
  repeat constructor.
Defined.

Lemma includes_only_select_the_matched_witness :
  "Drafts" ∈ Cli._folder_matcher fnmatchcase [("+", "B"); ("+", "D*")]
                                 ["A"; "B"; "C"; "Drafts"]
  <-> "Drafts" ∈ ["A"; "B"; "C"; "Drafts"] /\
      exists pattern, pattern ∈ [("+", "B"); ("+", "D*")] /\
                      fnmatchcase "Drafts" pattern.2 = true.
Proof.
  apply (includes_only_select_the_matched fnmatchcase).
  - discriminate.
  - repeat constructor.
Defined.

Lemma last_pattern_wins_witness :
  (forall name,
      name ∈ Cli._folder_matcher fnmatchcase ([("+", "*")] ++ [("-", "INBOX")])
                                 ["INBOX"; "Sent"] ->
      fnmatchcase name "INBOX" = false) /\
  (forall name,
      name ∈ ["INBOX"; "Sent"] -> fnmatchcase name "S*" = true ->
      name ∈ Cli._folder_matcher fnmatchcase ([("-", "*")] ++ [("+", "S*")])
                                 ["INBOX"; "Sent"]).
Proof.
  split.
  - apply (last_pattern_wins fnmatchcase [("+", "*")] ["INBOX"; "Sent"] "-" "INBOX").
    reflexivity.
  - apply (last_pattern_wins fnmatchcase [("-", "*")] ["INBOX"; "Sent"] "+" "S*").
    reflexivity.
Defined.

(** ** The orchestrator, continued *)

Section Keeps.

Local Open Scope list_scope.

Context (R : world -> world -> Prop).
Hypothesis R_refl : forall w, R w w.
Hypothesis R_trans : forall w1 w2 w3, R w1 w2 -> R w2 w3 -> R w1 w3.

Lemma keeps_ret {A} (a : A) : keeps R (ret a).
Proof. intros w. apply R_refl. Qed.

Lemma keeps_raise {A} (e : Py.exn) : keeps R (raise (A := A) e).
Proof. intros w. apply R_refl. Qed.

Lemma keeps_bind {A B} (m : M A) (k : A -> M B) :
  keeps R m -> (forall a, keeps R (k a)) -> keeps R (bind m k).
Proof.
  intros Hm Hk w. unfold bind. specialize (Hm w).
  destruct (m w) as [[e | a] w1]; [exact Hm |].
  eapply R_trans; [exact Hm | apply Hk].
Qed.

Lemma keeps_for_each {A S} (l : list A) (body : A -> S -> M S) :
  (forall x s, x ∈ l -> keeps R (body x s)) ->
  forall s, keeps R (for_each l body s).
Proof.
  induction l as [|x rest IH]; intros Hbody s.
  - apply keeps_ret.
  - cbn [for_each]. apply keeps_bind.
    + apply Hbody, list_elem_of_here.
    + intros s'. apply IH. intros y s'' Hy. by apply Hbody, list_elem_of_further.
Qed.

Lemma keeps_query {A} c e (f : server -> Py.exn + A) :
  (forall w, R w (logged e w)) -> keeps R (query c e f).
Proof. intros He w. apply He. Qed.

Lemma keeps_command {A} c e (f : server -> Py.exn + (server * A)) :
  (forall w, R w (logged e w)) ->
  (forall w s a, f (conn c w) = inr (s, a) -> R w (logged e (set_conn c s w))) ->
  keeps R (command c e f).
Proof.
  intros He Hs w. unfold command.
  destruct (f (conn c w)) as [err | [s a]] eqn:Hf; [apply He | by eapply Hs].
Qed.

(** *** The run, given that its calls keep the relation *)

Hypothesis keeps_list_folders : forall c, keeps R (list_folders c).
Hypothesis keeps_select_folder : forall c path, keeps R (select_folder c path).
Hypothesis keeps_search : forall c, keeps R (search c).
Hypothesis keeps_fetch : forall c ids fields, keeps R (fetch c ids fields).
Hypothesis keeps_transfer_chunk :
  forall dest_flag_set fixed_path chunk_ids,
    keeps R (transfer_chunk dest_flag_set fixed_path chunk_ids).

Lemma keeps_first_separator folder_data : keeps R (first_separator folder_data).
Proof.
  destruct folder_data as [|[[fl [sep|]] name] rest];
    (apply keeps_raise || apply keeps_ret).
Qed.

Lemma keeps_collect_dest_keys dest_messages :
  keeps R (collect_dest_keys dest_messages).
Proof.
  apply keeps_for_each. intros chunk_ids acc _.
  apply keeps_bind; [apply keeps_fetch | intros; apply keeps_ret].
Qed.

Lemma keeps_collect_move_messages src_messages dest_msg_set :
  keeps R (collect_move_messages src_messages dest_msg_set).
Proof.
  apply keeps_for_each. intros chunk_ids acc _.
  apply keeps_bind; [apply keeps_fetch | intros; apply keeps_ret].
Qed.

Lemma keeps_sync_folder src_dir_separator dry_run missing_folders e dest_flag_set :
  keeps R (sync_folder src_dir_separator dry_run missing_folders e dest_flag_set).
Proof.
  destruct e as [[path fl] fixed_path]. unfold sync_folder.
  apply keeps_bind.
  { destruct (Py.str_split path src_dir_separator);
      [apply keeps_raise | apply keeps_ret]. }
  intros _. apply keeps_bind.
  { destruct (negb dry_run || not_in_missing fixed_path missing_folders).
    - apply keeps_bind; [apply keeps_select_folder |]. intros info.
      apply keeps_bind; [apply keeps_search | intros; apply keeps_ret].
    - apply keeps_ret. }
  intros [flag_set dest_messages]. apply keeps_bind.
  { apply keeps_collect_dest_keys. }
  intros dest_msg_set. apply keeps_bind; [apply keeps_select_folder |].
  intros _. apply keeps_bind; [apply keeps_search |].
  intros src_messages. apply keeps_bind.
  { apply keeps_collect_move_messages. }
  intros [move_messages total]. apply keeps_bind; [| intros; apply keeps_ret].
  apply keeps_for_each. intros chunk_ids [] _. apply keeps_transfer_chunk.
Qed.

Lemma keeps_sync_core replace_sep folder_filter dry_run :
  dry_run = true \/ (forall path, keeps R (create_folder Dest path)) ->
  keeps R (_imap_sync_core replace_sep folder_filter dry_run).
Proof.
  intros Hcreate. unfold _imap_sync_core.
  apply keeps_bind; [apply keeps_list_folders |]. intros src_folder_data.
  apply keeps_bind; [apply keeps_first_separator |]. intros src_dir_separator.
  apply keeps_bind; [apply keeps_list_folders |]. intros dest_folder_data.
  apply keeps_bind; [apply keeps_first_separator |]. intros dest_dir_separator.
  apply keeps_bind.
  { apply keeps_for_each. intros missing [] _.
    destruct Hcreate as [-> | Hcreate]; [apply keeps_ret |].
    destruct dry_run; [apply keeps_ret | apply Hcreate]. }
  intros _. apply keeps_bind; [| intros; apply keeps_ret].
  apply keeps_for_each. intros e flag_set _. apply keeps_sync_folder.
Qed.

End Keeps.

Section KeepsTransfer.

Local Open Scope list_scope.

Context (R : world -> world -> Prop).
Hypothesis R_refl : forall w, R w w.
Hypothesis R_trans : forall w1 w2 w3, R w1 w2 -> R w2 w3 -> R w1 w3.
Hypothesis keeps_fetch : forall c ids fields, keeps R (fetch c ids fields).
Hypothesis keeps_append :
  forall path msg fl date, keeps R (append Dest path msg fl date).

(** A chunk transfer keeps what its fetch and its appends keep. *)
Lemma keeps_transfer_chunk_of dest_flag_set fixed_path chunk_ids :
  keeps R (transfer_chunk dest_flag_set fixed_path chunk_ids).
Proof.
  unfold transfer_chunk. apply keeps_bind; [done | apply keeps_fetch |].
  intros msgs. apply keeps_for_each; [done | done |]. intros msg [] _.
  unfold append_message. apply keeps_bind; [done | | intros; apply keeps_append].
  unfold supported_flags.
  destruct dest_flag_set; [by apply keeps_ret |].
  destruct (flags msg); [by apply keeps_ret | by apply keeps_raise].
Qed.

End KeepsTransfer.

Section CallsOnly.

Local Open Scope list_scope.

Lemma only_logs_refl P w : only_logs P w w.
Proof. exists []. by rewrite app_nil_r. Qed.

Lemma only_logs_trans P w1 w2 w3 :
  only_logs P w1 w2 -> only_logs P w2 w3 -> only_logs P w1 w3.
Proof.
  intros (c1 & H1 & F1) (c2 & H2 & F2). exists (c1 ++ c2).
  split; [by rewrite H2, H1, app_assoc | by apply Forall_app].
Qed.

Lemma only_logs_logged (P : call -> Prop) e w w' :
  P e -> log w' = log w -> only_logs P w (logged e w').
Proof. intros He Hl. exists [e]. simpl. rewrite Hl. by repeat constructor. Qed.

Lemma store_message_name f msg fl date :
  folder_name (store_message f msg fl date) = folder_name f.
Proof. reflexivity. Qed.

Lemma srv_append_names s name msg fl date s' :
  srv_append s name msg fl date = inr s' -> folder_names s' = folder_names s.
Proof.
  unfold srv_append. destruct (lookup_folder s name); [| done].
  intros [= <-]. unfold folder_names. cbn [folders].
  rewrite List.map_map. apply List.map_ext. intros g.
  by destruct (String.eqb (folder_name g) name).
Qed.

(** *** No creation in a dry run *)

Lemma creates_nothing_refl w : creates_nothing w w.
Proof. split; [apply only_logs_refl | done]. Qed.

Lemma creates_nothing_trans w1 w2 w3 :
  creates_nothing w1 w2 -> creates_nothing w2 w3 -> creates_nothing w1 w3.
Proof.
  intros [L1 N1] [L2 N2]. split; [by eapply only_logs_trans | congruence].
Qed.

Lemma creates_nothing_query {A} c e (f : server -> Py.exn + A) :
  is_not_create e -> keeps creates_nothing (query c e f).
Proof.
  intros He. apply keeps_query. intros w.
  split; [by apply only_logs_logged | done].
Qed.

Lemma creates_nothing_select c path : keeps creates_nothing (select_folder c path).
Proof.
  apply keeps_command.
  - intros w. split; [by apply only_logs_logged | done].
  - intros w s a Hs. unfold srv_select_folder in Hs.
    destruct (lookup_folder (conn c w) path); [| done].
    injection Hs as <- <-.
    split; [apply only_logs_logged; [done | by destruct c] |].
    by destruct c.
Qed.

Lemma creates_nothing_append path msg fl date :
  keeps creates_nothing (append Dest path msg fl date).
Proof.
  apply keeps_command.
  - intros w. split; [by apply only_logs_logged | done].
  - intros w s a Hs.
    destruct (srv_append (conn Dest w) path msg fl date) as [|s'] eqn:Happ; [done |].
    injection Hs as <- <-.
    split; [by apply only_logs_logged |].
    cbn. by apply srv_append_names in Happ.
Qed.

(** X10. A dry run creates nothing, whatever the servers hold and whatever
    the filter: its call log has no [create_folder] and the destination has
    the folders it had, by name and in order. *)
Theorem dry_run_creates_no_folder (source destination : server)
        (replace_sep : string)
        (folder_filter : option (list string -> list string)) :
  List.filter is_create_folder
              (log (run source destination replace_sep folder_filter true).2) = [] /\
  folder_names (dest (run source destination replace_sep folder_filter true).2)
  = folder_names destination.
Proof.
  assert (H : creates_nothing (World source destination [])
                (run source destination replace_sep folder_filter true).2).
  { apply (keeps_sync_core creates_nothing creates_nothing_refl creates_nothing_trans).
    - intros c. by apply creates_nothing_query.
    - apply creates_nothing_select.
    - intros c. by apply creates_nothing_query.
    - intros c ids fields. by apply creates_nothing_query.
    - apply (keeps_transfer_chunk_of creates_nothing creates_nothing_refl
               creates_nothing_trans).
      + intros c ids fields. by apply creates_nothing_query.
      + apply creates_nothing_append.
    - by left. }
  destruct H as [(calls & Hlog & Hcalls) Hnames]. split; [| exact Hnames].
  rewrite Hlog. cbn [log app]. clear Hlog.
  induction Hcalls as [|e rest He _ IH]; [done |].
  simpl. destruct e; simpl in *; done.
Qed.

(** *** The source is only read *)

Lemma source_untouched_refl w : source_untouched w w.
Proof. split; [apply only_logs_refl | done]. Qed.

Lemma source_untouched_trans w1 w2 w3 :
  source_untouched w1 w2 -> source_untouched w2 w3 -> source_untouched w1 w3.
Proof.
  intros [L1 N1] [L2 N2]. split; [by eapply only_logs_trans | congruence].
Qed.

Lemma source_untouched_query {A} c e (f : server -> Py.exn + A) :
  ~ mutates Src e -> keeps source_untouched (query c e f).
Proof.
  intros He. apply keeps_query. intros w.
  split; [by apply only_logs_logged | done].
Qed.

Lemma source_untouched_select c path :
  keeps source_untouched (select_folder c path).
Proof.
  apply keeps_command.
  - intros w. split; [apply only_logs_logged; [by intros [] | done] | done].
  - intros w s a Hs. unfold srv_select_folder in Hs.
    destruct (lookup_folder (conn c w) path); [| done].
    injection Hs as <- <-.
    split; [apply only_logs_logged; [by intros [] | by destruct c] |].
    by destruct c.
Qed.

Lemma source_untouched_on_dest {A} e (f : server -> Py.exn + (server * A)) :
  ~ mutates Src e -> keeps source_untouched (command Dest e f).
Proof.
  intros He. apply keeps_command.
  - intros w. split; [by apply only_logs_logged | done].
  - intros w s a _. split; [by apply only_logs_logged | done].
Qed.

(** On the modelled servers a run leaves the source as it is. *)
Lemma source_untouched_run (source destination : server) (replace_sep : string)
        (folder_filter : option (list string -> list string)) (dry_run : bool) :
  folders (src (run source destination replace_sep folder_filter dry_run).2)
  = folders source /\
  Forall (fun e => ~ mutates Src e)
         (log (run source destination replace_sep folder_filter dry_run).2).
Proof.
  assert (H : source_untouched (World source destination [])
                (run source destination replace_sep folder_filter dry_run).2).
  { apply (keeps_sync_core source_untouched source_untouched_refl
             source_untouched_trans).
    - intros c. apply source_untouched_query; by intros [].
    - apply source_untouched_select.
    - intros c. apply source_untouched_query; by intros [].
    - intros c ids fields. apply source_untouched_query; by intros [].
    - apply (keeps_transfer_chunk_of source_untouched source_untouched_refl
               source_untouched_trans).
      + intros c ids fields. apply source_untouched_query; by intros [].
      + intros path msg fl date. apply source_untouched_on_dest. by intros [=].
    - right. intros path. apply source_untouched_on_dest. by intros [=]. }
  destruct H as [(calls & Hlog & Hcalls) Hsrc]. split; [exact Hsrc |].
  by rewrite Hlog.
Qed.

(** X11. A run, dry or not, takes nothing from the source and puts nothing
    into it: no [create_folder] and no [append] is called on the source
    connection, and every folder of the source holds at the end, in the
    same order and under the same identifiers, the messages it held, with
    their content and internal date.  (Nothing is said of the flags: the
    fetches of the run are not of the [PEEK] kind.) *)
Theorem source_keeps_its_mail (source destination : server) (replace_sep : string)
        (folder_filter : option (list string -> list string)) (dry_run : bool) :
  map holdings
      (folders (src (run source destination replace_sep folder_filter dry_run).2))
  = map holdings (folders source) /\
  Forall (fun e => ~ mutates Src e)
         (log (run source destination replace_sep folder_filter dry_run).2).
Proof.
  destruct (source_untouched_run source destination replace_sep folder_filter
                                 dry_run) as [Hsrc Hlog].
  split; [by rewrite Hsrc | exact Hlog].
Qed.

End CallsOnly.

Section FaithfulCopies.

Local Open Scope list_scope.

Variable S : list folder.

Lemma faithful_to_refl w : faithful_to S w w.
Proof. intros Hs. split; [done | apply only_logs_refl]. Qed.

Lemma faithful_to_trans w1 w2 w3 :
  faithful_to S w1 w2 -> faithful_to S w2 w3 -> faithful_to S w1 w3.
Proof.
  intros H12 H23 Hs. destruct (H12 Hs) as [Hs2 L12].
  destruct (H23 Hs2) as [Hs3 L23]. split; [done | by eapply only_logs_trans].
Qed.

Lemma faithful_to_query {A} c e (f : server -> Py.exn + A) :
  copies_from S e -> keeps (faithful_to S) (query c e f).
Proof.
  intros He. apply keeps_query. intros w Hs.
  split; [done | by apply only_logs_logged].
Qed.

Lemma faithful_to_select c path : keeps (faithful_to S) (select_folder c path).
Proof.
  apply keeps_command.
  - intros w Hs. split; [done | by apply only_logs_logged].
  - intros w s a Hsel Hs. unfold srv_select_folder in Hsel.
    destruct (lookup_folder (conn c w) path); [| done].
    injection Hsel as <- <-.
    split; [by destruct c | apply only_logs_logged; [done | by destruct c]].
Qed.

Lemma faithful_to_on_dest {A} e (f : server -> Py.exn + (server * A)) :
  copies_from S e -> keeps (faithful_to S) (command Dest e f).
Proof.
  intros He. apply keeps_command.
  - intros w Hs. split; [done | by apply only_logs_logged].
  - intros w s a _ Hs. split; [done | by apply only_logs_logged].
Qed.

Lemma lookup_folder_elem s name f : lookup_folder s name = Some f -> f ∈ folders s.
Proof.
  unfold lookup_folder. intros Hf. apply List.find_some in Hf as [Hin _].
  by apply list_elem_of_In.
Qed.

(** What a fetch returns is held in a folder of the server. *)
Lemma srv_fetch_elem s ids info item :
  srv_fetch s ids = inr info -> item ∈ info ->
  exists f, f ∈ folders s /\ item.2 ∈ folder_msgs f.
Proof.
  unfold srv_fetch, selected_msgs. destruct (selected s) as [name|]; [| done].
  destruct (lookup_folder s name) as [f|] eqn:Hf; [| done].
  intros [= <-] Hitem. exists f. split; [by eapply lookup_folder_elem |].
  unfold fetch_from in Hitem.
  apply list_elem_of_In, List.in_map_iff in Hitem as (m & <- & Hm).
  apply List.filter_In in Hm as [Hm _]. by apply list_elem_of_In.
Qed.

Lemma faithful_to_append_message dest_flag_set fixed_path msg f :
  f ∈ S -> msg ∈ folder_msgs f ->
  keeps (faithful_to S) (append_message dest_flag_set fixed_path msg tt).
Proof.
  intros Hf Hmsg. unfold append_message.
  assert (Happ : forall fl, sublist fl (flags msg) ->
            keeps (faithful_to S)
                  (append Dest fixed_path (rfc822 msg) fl (internaldate msg))).
  { intros fl Hfl. apply faithful_to_on_dest. split; [done |].
    by exists f, msg. }
  intros w. unfold bind, supported_flags.
  destruct dest_flag_set as [set|]; cbn [ret].
  - apply Happ, keep_supported_sublist.
  - destruct (flags msg) as [|fl0 rest] eqn:Hfl; cbn [ret raise].
    + apply Happ. apply sublist_nil_l.
    + apply faithful_to_refl.
Qed.

Lemma faithful_to_transfer_chunk dest_flag_set fixed_path chunk_ids :
  keeps (faithful_to S) (transfer_chunk dest_flag_set fixed_path chunk_ids).
Proof.
  intros w. rewrite transfer_chunk_run. intros Hs.
  set (wf := logged (Fetch Src chunk_ids [MSG_FLAGS; MSG_DATE; MSG_SIZE; MSG_RFC822]) w).
  assert (Hfetch : only_logs (copies_from S) w wf) by by apply only_logs_logged.
  destruct (srv_fetch (src w) chunk_ids) as [err | info] eqn:Hinfo; [by split |].
  assert (Hloop : faithful_to S wf
            (for_each (map snd info) (append_message dest_flag_set fixed_path) tt wf).2).
  { apply (keeps_for_each _ faithful_to_refl faithful_to_trans).
    intros msg [] Hmsg.
    apply list_elem_of_In, List.in_map_iff in Hmsg as (item & <- & Hitem).
    apply list_elem_of_In in Hitem.
    destruct (srv_fetch_elem _ _ _ _ Hinfo Hitem) as (f & Hf & Hm).
    rewrite Hs in Hf. by eapply faithful_to_append_message. }
  destruct (Hloop Hs) as [Hs' L]. split; [done | by eapply only_logs_trans].
Qed.

(** On the modelled servers an [append] also takes its flags from the
    flags of the message as the source held it. *)
Lemma appends_are_faithful_copies (destination : server)
        (selected_at_source : option string) (replace_sep : string)
        (folder_filter : option (list string -> list string)) (dry_run : bool) :
  Forall (copies_from S)
         (log (run (Server S selected_at_source) destination replace_sep
                   folder_filter dry_run).2).
Proof.
  assert (H : faithful_to S (World (Server S selected_at_source) destination [])
                (run (Server S selected_at_source) destination replace_sep
                     folder_filter dry_run).2).
  { apply (keeps_sync_core (faithful_to S) faithful_to_refl faithful_to_trans).
    - intros c. by apply faithful_to_query.
    - apply faithful_to_select.
    - intros c. by apply faithful_to_query.
    - intros c ids fields. by apply faithful_to_query.
    - apply faithful_to_transfer_chunk.
    - right. intros path. by apply faithful_to_on_dest. }
  destruct (H eq_refl) as [_ (calls & Hlog & Hcalls)]. by rewrite Hlog.
Qed.

(** X12. Whatever a run appends is a copy of a source message: every
    [append] of the call log goes to the destination connection and carries
    the raw content and the internal date of a message held in a folder of
    the source. *)
Theorem appends_are_copies_of_source_messages (destination : server)
        (selected_at_source : option string) (replace_sep : string)
        (folder_filter : option (list string -> list string)) (dry_run : bool) :
  Forall (copies_mail_from S)
         (log (run (Server S selected_at_source) destination replace_sep
                   folder_filter dry_run).2).
Proof.
  eapply Forall_impl;
    [apply (appends_are_faithful_copies destination selected_at_source
              replace_sep folder_filter dry_run) |].
  intros e He. destruct e as [| | | | |c path msg fl date]; try done.
  destruct He as [Hc (f & m & Hf & Hm & Hmsg & Hdate & _)].
  split; [exact Hc |]. exists f, m. unfold mail. by rewrite Hmsg, Hdate.
Qed.

End FaithfulCopies.

Section Failures.

Local Open Scope list_scope.

Context (P : Py.exn -> Prop).

Lemma raises_only_ret {A} (a : A) : raises_only P (ret a).
Proof. intros w e w' [=]. Qed.

Lemma raises_only_raise {A} e : P e -> raises_only P (raise (A := A) e).
Proof. by intros He w e' w' [= <- _]. Qed.

(** The continuation only has to behave on the values that are returned. *)
Lemma raises_only_bind {A B} (Q : A -> Prop) (m : M A) (k : A -> M B) :
  raises_only P m ->
  (forall w a w', m w = (inr a, w') -> Q a) ->
  (forall a, Q a -> raises_only P (k a)) ->
  raises_only P (bind m k).
Proof.
  intros Hm HQ Hk w e w'. unfold bind.
  destruct (m w) as [[e1 | a] w1] eqn:Hmw.
  - intros [= <- _]. by eapply Hm.
  - intros Hka. eapply Hk; [by eapply HQ | exact Hka].
Qed.

Lemma raises_only_bind_any {A B} (m : M A) (k : A -> M B) :
  raises_only P m -> (forall a, raises_only P (k a)) -> raises_only P (bind m k).
Proof.
  intros Hm Hk. apply (raises_only_bind (fun _ => True)); auto.
Qed.

Lemma raises_only_for_each {A S} (l : list A) (body : A -> S -> M S) :
  (forall x s, raises_only P (body x s)) ->
  forall s, raises_only P (for_each l body s).
Proof.
  intros Hbody. induction l as [|x rest IH]; intros s.
  - apply raises_only_ret.
  - cbn [for_each]. by apply raises_only_bind_any.
Qed.

Lemma raises_only_query {A} c e (f : server -> Py.exn + A) :
  (forall s err, f s = inl err -> P err) -> raises_only P (query c e f).
Proof.
  intros Hf w err w'. unfold query.
  destruct (f (conn c w)) eqn:Hfw; intros [= <- _]. by eapply Hf.
Qed.

Lemma raises_only_command {A} c e (f : server -> Py.exn + (server * A)) :
  (forall s err, f s = inl err -> P err) -> raises_only P (command c e f).
Proof.
  intros Hf w err w'. unfold command.
  destruct (f (conn c w)) as [err' | [s a]] eqn:Hfw; intros [= <- _]. by eapply Hf.
Qed.

End Failures.

Section ExpectedFailures.

Local Open Scope list_scope.

Lemma server_error_expected msg : expected_failure (Py.IMAPClientError msg).
Proof. right. right. right. by exists msg. Qed.

Lemma selected_msgs_failure s err :
  selected_msgs s = inl err -> expected_failure err.
Proof.
  unfold selected_msgs. destruct (selected s) as [name|].
  - destruct (lookup_folder s name); [done |].
    intros [= <-]. apply server_error_expected.
  - intros [= <-]. apply server_error_expected.
Qed.

Lemma expected_list_folders c : raises_only expected_failure (list_folders c).
Proof. apply raises_only_query. by intros s err. Qed.

Lemma expected_search c : raises_only expected_failure (search c).
Proof.
  apply raises_only_query. intros s err. unfold srv_search.
  destruct (selected_msgs s) eqn:Hs; [| done].
  intros [= <-]. by eapply selected_msgs_failure.
Qed.

Lemma expected_fetch c ids fields : raises_only expected_failure (fetch c ids fields).
Proof.
  apply raises_only_query. intros s err. unfold srv_fetch.
  destruct (selected_msgs s) eqn:Hs; [| done].
  intros [= <-]. by eapply selected_msgs_failure.
Qed.

Lemma expected_select_folder c path :
  raises_only expected_failure (select_folder c path).
Proof.
  apply raises_only_command. intros s err. unfold srv_select_folder.
  destruct (lookup_folder s path); [done |].
  intros [= <-]. apply server_error_expected.
Qed.

Lemma expected_create_folder c path :
  raises_only expected_failure (create_folder c path).
Proof.
  apply raises_only_command. intros s err. unfold srv_create_folder.
  destruct (lookup_folder s path); [| done].
  intros [= <-]. apply server_error_expected.
Qed.

Lemma expected_append c path msg fl date :
  raises_only expected_failure (append c path msg fl date).
Proof.
  apply raises_only_command. intros s err. unfold srv_append.
  destruct (lookup_folder s path); [done |].
  intros [= <-]. apply server_error_expected.
Qed.

Lemma expected_first_separator folder_data :
  raises_only expected_failure (first_separator folder_data).
Proof.
  destruct folder_data as [|[[fl [sep|]] name] rest]; cbn.
  - apply raises_only_raise. by left.
  - apply raises_only_ret.
  - apply raises_only_raise. right. by left.
Qed.

(** With the flag set bound, a chunk transfer only fails on a server call. *)
Lemma expected_transfer_chunk set fixed_path chunk_ids :
  raises_only expected_failure (transfer_chunk (Some set) fixed_path chunk_ids).
Proof.
  unfold transfer_chunk. apply raises_only_bind_any; [apply expected_fetch |].
  intros msgs. apply raises_only_for_each. intros msg [].
  unfold append_message. apply raises_only_bind_any.
  - cbn. apply raises_only_ret.
  - intros fl. apply expected_append.
Qed.

Lemma expected_sync_folder src_dir_separator dry_run missing_folders e dest_flag_set :
  raises_only expected_failure
              (sync_folder src_dir_separator dry_run missing_folders e dest_flag_set).
Proof.
  destruct e as [[path fl] fixed_path]. unfold sync_folder.
  rewrite not_in_missing_always, orb_true_r.
  apply raises_only_bind_any.
  { destruct (Py.str_split path src_dir_separator) as [err|parts] eqn:Hsplit;
      [| apply raises_only_ret].
    apply raises_only_raise. unfold Py.str_split in Hsplit.
    destruct src_dir_separator; [| done]. injection Hsplit as <-.
    right. right. by left. }
  intros _.
  apply (raises_only_bind _ (fun a => exists set, a.1 = Some set)).
  { apply raises_only_bind_any; [apply expected_select_folder |]. intros info.
    apply raises_only_bind_any; [apply expected_search |]. intros found.
    apply raises_only_ret. }
  { intros w a w'. unfold bind.
    destruct (select_folder Dest fixed_path w) as [[err | info] w1]; [done |].
    destruct (search Dest w1) as [[err | found] w2]; [done |].
    intros [= <- _]. by eexists. }
  intros [flag_set dest_messages] [set Hset]. simpl in Hset. subst flag_set.
  apply raises_only_bind_any.
  { apply raises_only_for_each. intros chunk_ids acc.
    apply raises_only_bind_any; [apply expected_fetch | intros; apply raises_only_ret]. }
  intros dest_msg_set.
  apply raises_only_bind_any; [apply expected_select_folder |]. intros _.
  apply raises_only_bind_any; [apply expected_search |]. intros src_messages.
  apply raises_only_bind_any.
  { apply raises_only_for_each. intros chunk_ids acc.
    apply raises_only_bind_any; [apply expected_fetch | intros; apply raises_only_ret]. }
  intros [move_messages total].
  apply raises_only_bind_any; [| intros; apply raises_only_ret].
  apply raises_only_for_each. intros chunk_ids []. apply expected_transfer_chunk.
Qed.

(** The exceptions a run of the model can end with. *)
Lemma run_failures (source destination : server)
        (replace_sep : string)
        (folder_filter : option (list string -> list string)) (dry_run : bool)
        (e : Py.exn) :
  (run source destination replace_sep folder_filter dry_run).1 = inl e ->
  expected_failure e /\ e <> Py.NameError.
Proof.
  intros Hrun.
  assert (He : expected_failure e).
  { destruct (run source destination replace_sep folder_filter dry_run)
      as [res w'] eqn:Hr. simpl in Hrun. subst res.
    revert Hr. unfold run. generalize (World source destination []). intros w.
    revert w e w'.
    change (raises_only expected_failure
                        (_imap_sync_core replace_sep folder_filter dry_run)).
    unfold _imap_sync_core.
    apply raises_only_bind_any; [apply expected_list_folders |]. intros sfd.
    apply raises_only_bind_any; [apply expected_first_separator |]. intros ssep.
    apply raises_only_bind_any; [apply expected_list_folders |]. intros dfd.
    apply raises_only_bind_any; [apply expected_first_separator |]. intros dsep.
    apply raises_only_bind_any.
    { apply raises_only_for_each. intros missing [].
      destruct (negb dry_run); [apply expected_create_folder | apply raises_only_ret]. }
    intros _. apply raises_only_bind_any; [| intros; apply raises_only_ret].
    apply raises_only_for_each. intros entry flag_set. apply expected_sync_folder. }
  split; [exact He |].
  intros ->. destruct He as [? | [? | [? | [msg ?]]]]; discriminate.
Qed.

(** X13. The flag set of the destination folder is always bound when the
    append loop reads it: whatever exception ends a run, it is not
    [NameError]. *)
Theorem run_never_ends_with_NameError (source destination : server)
        (replace_sep : string)
        (folder_filter : option (list string -> list string)) (dry_run : bool)
        (e : Py.exn) :
  (run source destination replace_sep folder_filter dry_run).1 = inl e ->
  e <> Py.NameError.
Proof.
  intros Hrun.
  by destruct (run_failures source destination replace_sep folder_filter dry_run
                            e Hrun).
Qed.

End ExpectedFailures.

Lemma run_never_ends_with_NameError_witness :
  no_such_folder <> Py.NameError.
Proof.
  apply (run_never_ends_with_NameError source_with_archive sample_destination "_"
                                       None true no_such_folder).
  vm_compute. reflexivity.
Defined.

Section CreatedFolders.

Local Open Scope list_scope.

(** A run whose two separators are read, step by step. *)
Lemma run_after_listings source destination src_sep dest_sep replace_sep
      folder_filter dry_run :
  reports_separator source src_sep ->
  reports_separator destination dest_sep ->
  run source destination replace_sep folder_filter dry_run
  = let dir_map := dir_map_of source src_sep dest_sep replace_sep folder_filter in
    let missing :=
      missing_of source destination src_sep dest_sep replace_sep folder_filter in
    bind (for_each missing
                   (fun m _ =>
                      if negb dry_run then create_folder Dest m.1 else ret tt)
                   tt)
         (fun _ =>
            bind (for_each dir_map (sync_folder src_sep dry_run missing) None)
                 (fun _ => ret tt))
         (World source destination [ListFolders Src; ListFolders Dest]).
Proof.
  intros (fs & rs & Hs & Hsep) (fd & rd & Hd & Hdep).
  destruct source as [src_folders src_selected].
  destruct destination as [dest_folders dest_selected].
  cbn [folders] in Hs, Hd. subst src_folders dest_folders.
  destruct fs as [sfl sdelim sname sFL smsgs].
  destruct fd as [dfl ddelim dname dFL dmsgs].
  cbn [folder_delim] in Hsep, Hdep. subst sdelim ddelim.
  reflexivity.
Qed.

Lemma bind_run {A B} (m : M A) (k : A -> M B) w :
  bind m k w
  = match m w with
    | (inl e, w') => (inl e, w')
    | (inr a, w') => k a w'
    end.
Proof. reflexivity. Qed.

Lemma create_folder_run path w :
  (exists err,
      create_folder Dest path w = (inl err, logged (CreateFolder Dest path) w)) \/
  (exists s',
      create_folder Dest path w
      = (inr tt, logged (CreateFolder Dest path) (set_conn Dest s' w))).
Proof.
  unfold create_folder, command.
  destruct (srv_create_folder (conn Dest w) path) as [err | s']; eauto.
Qed.

Lemma create_loop_log (missing : list (string * list string)) : forall w,
  exists n,
    log (for_each missing (fun m _ => create_folder Dest m.1) tt w).2
    = log w ++ map (fun m => CreateFolder Dest m.1) (take n missing) /\
    (forall u w', for_each missing (fun m _ => create_folder Dest m.1) tt w
                  = (inr u, w') -> n = length missing).
Proof.
  induction missing as [|m rest IH]; intros w.
  - exists 0%nat. simpl. by rewrite app_nil_r.
  - rewrite for_each_cons.
    destruct (create_folder_run m.1 w) as [[err ->] | [s' ->]].
    + exists 1%nat. split; [simpl; by destruct rest | done].
    + destruct (IH (logged (CreateFolder Dest m.1) (set_conn Dest s' w)))
        as (n & Hn & Hall).
      exists (Datatypes.S n). split.
      * rewrite Hn. simpl. by rewrite <- app_assoc.
      * intros u w' Hrun. simpl. f_equal. by eapply Hall.
Qed.

Lemma filter_create_app l calls :
  Forall is_not_create calls ->
  List.filter is_create_folder (l ++ calls) = List.filter is_create_folder l.
Proof.
  intros Hcalls. rewrite List.filter_app.
  assert (List.filter is_create_folder calls = []) as ->; [| by rewrite app_nil_r].
  induction Hcalls as [|e rest He _ IH]; [done |].
  simpl. by destruct e.
Qed.

Lemma filter_create_creates (missing : list (string * list string)) :
  List.filter is_create_folder (map (fun m => CreateFolder Dest m.1) missing)
  = map (fun m => CreateFolder Dest m.1) missing.
Proof. induction missing as [|m rest IH]; simpl; [done | by rewrite IH]. Qed.

Lemma missing_not_listed dir_map dest_folder_data m :
  m ∈ find_missing dir_map dest_folder_data ->
  m.1 ∉ map (fun d => d.2) dest_folder_data.
Proof.
  unfold find_missing. intros Hm.
  apply list_elem_of_In, List.in_map_iff in Hm as (e & <- & He).
  apply List.filter_In in He as [_ He]. apply negb_true_iff in He.
  apply bool_decide_eq_false in He. simpl. intros Hin. apply He.
  by apply elem_of_list_to_set.
Qed.

(** X14. In a run that is not dry and has read both separators, the
    [create_folder] calls are, in the order of the directory map, the
    mapped paths that the destination did not list: all of them when the
    run completes, the first ones up to the failing call otherwise.  No
    folder that the destination listed is created. *)
Theorem real_run_creates_the_missing_folders (source destination : server)
        (src_sep dest_sep replace_sep : string)
        (folder_filter : option (list string -> list string)) :
  reports_separator source src_sep ->
  reports_separator destination dest_sep ->
  let missing :=
    missing_of source destination src_sep dest_sep replace_sep folder_filter in
  let outcome := run source destination replace_sep folder_filter false in
  (exists n,
      List.filter is_create_folder (log outcome.2)
      = map (fun m => CreateFolder Dest m.1) (take n missing) /\
      (outcome.1 = inr tt -> n = length missing)) /\
  forall m, m ∈ missing -> m.1 ∉ folder_names destination.
Proof.
  intros Hs Hd missing outcome. split.
  - subst outcome. rewrite (run_after_listings _ _ _ _ _ _ _ Hs Hd).
    cbv zeta. fold missing. cbn [negb].
    set (w2 := World source destination [ListFolders Src; ListFolders Dest]).
    rewrite bind_run.
    destruct (create_loop_log missing w2) as (n & Hn & Hall).
    destruct (for_each missing (fun m _ => create_folder Dest m.1) tt w2)
      as [[err | u] w3] eqn:Hcreate; cbn [snd fst] in *.
    + exists n. split; [| done]. rewrite Hn. cbn [log w2].
      rewrite List.filter_app. simpl. by rewrite filter_create_creates.
    + exists n.
      assert (Hloop : creates_nothing w3
                (for_each (dir_map_of source src_sep dest_sep replace_sep folder_filter)
                          (sync_folder src_sep false missing) None w3).2).
      { apply (keeps_for_each _ creates_nothing_refl creates_nothing_trans).
        intros e flag_set _.
        apply (keeps_sync_folder _ creates_nothing_refl creates_nothing_trans).
        - apply creates_nothing_select.
        - intros c. by apply creates_nothing_query.
        - intros c ids fields. by apply creates_nothing_query.
        - apply (keeps_transfer_chunk_of _ creates_nothing_refl
                   creates_nothing_trans).
          + intros c ids fields. by apply creates_nothing_query.
          + apply creates_nothing_append. }
      destruct Hloop as [(calls & Hlog & Hcalls) _].
      rewrite bind_run.
      destruct (for_each (dir_map_of source src_sep dest_sep replace_sep folder_filter)
                         (sync_folder src_sep false missing) None w3)
        as [[err | u'] w4]; cbn [snd fst ret] in *.
      * split; [| done].
        rewrite Hlog, filter_create_app, Hn by done. cbn [log w2].
        rewrite List.filter_app. simpl. by rewrite filter_create_creates.
      * split; [| intros _; by eapply Hall].
        rewrite Hlog, filter_create_app, Hn by done. cbn [log w2].
        rewrite List.filter_app. simpl. by rewrite filter_create_creates.
  - intros m Hm. unfold folder_names.
    apply missing_not_listed in Hm. unfold srv_list_folders in Hm.
    by rewrite List.map_map in Hm.
Qed.

End CreatedFolders.

Lemma real_run_creates_the_missing_folders_witness :
  let missing := missing_of source_with_archive sample_destination "/" "/" "_" None in
  let outcome := run source_with_archive sample_destination "_" None false in
  (exists n,
      List.filter is_create_folder (log outcome.2)
      = map (fun m => CreateFolder Dest m.1) (take n missing) /\
      (outcome.1 = inr tt -> n = length missing)) /\
  forall m, m ∈ missing -> m.1 ∉ folder_names sample_destination.
Proof.
  apply (real_run_creates_the_missing_folders source_with_archive
           sample_destination "/" "/" "_" None).
  - eexists _, _. split; reflexivity.
  - eexists _, _. split; reflexivity.
Defined.

(** ** The directory map *)

Section DirectoryMap.

Local Open Scope list_scope.

Lemma string_compare_refl s : String.compare s s = Eq.
Proof.
  pose proof (String.compare_antisym s s) as H.
  destruct (String.compare s s); simpl in H; congruence.
Qed.

Lemma string_leb_refl s : String.leb s s = true.
Proof. unfold String.leb. by rewrite string_compare_refl. Qed.

Lemma string_leb_trans s : forall t u,
  String.leb s t = true -> String.leb t u = true -> String.leb s u = true.
Proof.
  unfold String.leb.
  induction s as [|a s IH]; intros [|b t] [|c u]; simpl; try done.
  unfold Ascii.compare.
  destruct (N.compare_spec (N_of_ascii a) (N_of_ascii b)) as [Hab | Hab | Hab];
    destruct (N.compare_spec (N_of_ascii b) (N_of_ascii c)) as [Hbc | Hbc | Hbc];
    destruct (N.compare_spec (N_of_ascii a) (N_of_ascii c)) as [Hac | Hac | Hac];
    try done; try lia.
  apply IH.
Qed.

Lemma entry_ltb_false x y : entry_ltb y x = false -> path_le x y.
Proof.
  destruct x as [[px fx] qx], y as [[py fy] qy].
  unfold entry_ltb, path_le, entry_path. simpl.
  destruct (String.eqb py px) eqn:Hp; simpl.
  - apply String.eqb_eq in Hp as ->. intros _. apply string_leb_refl.
  - unfold String.ltb, String.leb. rewrite (String.compare_antisym px py).
    by destruct (String.compare py px).
Qed.

Lemma entry_ltb_true x y : entry_ltb y x = true -> path_le y x.
Proof.
  destruct x as [[px fx] qx], y as [[py fy] qy].
  unfold entry_ltb, path_le, entry_path. simpl.
  destruct (String.eqb py px) eqn:Hp; simpl.
  - apply String.eqb_eq in Hp as ->. intros _. apply string_leb_refl.
  - unfold String.ltb, String.leb. by destruct (String.compare py px).
Qed.

Lemma path_le_trans a b c : path_le a b -> path_le b c -> path_le a c.
Proof. apply string_leb_trans. Qed.

Lemma insert_sorted_perm x l : insert_sorted x l ≡ₚ x :: l.
Proof.
  induction l as [|y l IH]; simpl; [done |].
  destruct (entry_ltb y x); [| done].
  rewrite IH. apply Permutation_swap.
Qed.

Lemma insert_sorted_sorted x l :
  StronglySorted path_le l -> StronglySorted path_le (insert_sorted x l).
Proof.
  induction l as [|y l IH]; intros Hl; simpl.
  - by repeat constructor.
  - apply StronglySorted_inv in Hl as [Hl Hy].
    destruct (entry_ltb y x) eqn:Hyx.
    + constructor; [by apply IH |].
      apply Forall_forall. intros z Hz.
      rewrite insert_sorted_perm in Hz.
      apply elem_of_cons in Hz as [-> | Hz]; [by apply entry_ltb_true |].
      rewrite Forall_forall in Hy. by apply Hy.
    + apply entry_ltb_false in Hyx.
      constructor; [by constructor |].
      constructor; [done |].
      eapply Forall_impl; [exact Hy |]. intros z Hz. by eapply path_le_trans.
Qed.

Lemma sort_perm l : sort l ≡ₚ l.
Proof.
  unfold sort. induction l as [|x l IH]; simpl; [done |].
  by rewrite insert_sorted_perm, IH.
Qed.

Lemma sort_sorted l : StronglySorted path_le (sort l).
Proof.
  unfold sort. induction l as [|x l IH]; simpl; [constructor |].
  by apply insert_sorted_sorted.
Qed.

Lemma filter_strongly_sorted (keep : entry -> bool) l :
  StronglySorted path_le l -> StronglySorted path_le (List.filter keep l).
Proof.
  induction 1 as [|x l Hl IH Hx]; simpl; [constructor |].
  destruct (keep x); [| done]. constructor; [done |].
  apply Forall_forall. intros z Hz.
  apply list_elem_of_In, List.filter_In in Hz as [Hz _].
  rewrite Forall_forall in Hx. by apply Hx, list_elem_of_In.
Qed.

(** X15. The directory map of a run lists the folders in the order of
    their source paths.  Without a filter it holds one entry per listed
    folder (the path, the folder flags and the mapped path); with a filter
    it holds, of these, exactly the entries whose path is among the names
    the filter returned for the sorted list of all paths. *)
Theorem dir_map_is_sorted_listing (src_folder_data : list listing)
        (fixed : string -> string)
        (folder_filter : option (list string -> list string)) :
  StronglySorted path_le (build_dir_map src_folder_data fixed folder_filter) /\
  build_dir_map src_folder_data fixed None
  ≡ₚ map (entry_of fixed) src_folder_data /\
  (forall f e,
      folder_filter = Some f ->
      (e ∈ build_dir_map src_folder_data fixed folder_filter
       <-> e ∈ map (entry_of fixed) src_folder_data /\
           entry_path e
           ∈ f (map entry_path (build_dir_map src_folder_data fixed None)))).
Proof.
  split; [| split].
  - unfold build_dir_map. destruct folder_filter as [f|].
    + apply filter_strongly_sorted, sort_sorted.
    + apply sort_sorted.
  - unfold build_dir_map. apply sort_perm.
  - intros f e ->. unfold build_dir_map.
    rewrite list_elem_of_In, List.filter_In, <- list_elem_of_In.
    rewrite bool_decide_eq_true.
    change (map (fun d : listing => (d.2, d.1.1, fixed d.2)) src_folder_data)
      with (map (entry_of fixed) src_folder_data).
    by rewrite (sort_perm (map (entry_of fixed) src_folder_data)) at 1.
Qed.

End DirectoryMap.

(** ** A folder step *)

Section FolderStep.

Local Open Scope list_scope.

(** The chunks of a list of messages are the identifiers of consecutive
    pieces of it. *)
Lemma chunk_loop_pieces max_size ms : forall pre chunk_total,
  exists pieces,
    chunk_loop (map keyed ms) max_size (map uid pre) chunk_total
    = map (map uid) pieces /\
    concat pieces = pre ++ ms.
Proof.
  induction ms as [|m ms IH]; intros pre chunk_total; simpl.
  - destruct pre as [|p pre].
    + by exists [].
    + exists [p :: pre]. simpl. by rewrite !app_nil_r.
  - destruct (max_size <=? chunk_total + rfc822_size m)%Z.
    + destruct pre as [|p pre]; simpl.
      * destruct (IH [] chunk_total) as (pieces & Hp & Hc).
        exists ([m] :: pieces). simpl in *. by rewrite Hp, Hc.
      * destruct (IH [m] (rfc822_size m)) as (pieces & Hp & Hc).
        exists ((p :: pre) :: pieces). simpl in *. by rewrite Hp, Hc.
    + destruct (IH (pre ++ [m]) (chunk_total + rfc822_size m)%Z)
        as (pieces & Hp & Hc).
      exists pieces. rewrite List.map_app in Hp. simpl in Hp.
      split; [exact Hp | by rewrite Hc, <- app_assoc].
Qed.

Lemma piece_sublist {A} (pieces : list (list A)) piece :
  piece ∈ pieces -> sublist piece (concat pieces).
Proof.
  induction pieces as [|p rest IH]; intros Hin; [by apply elem_of_nil in Hin |].
  simpl. apply elem_of_cons in Hin as [-> | Hin].
  - apply sublist_inserts_r. done.
  - apply sublist_inserts_l. by apply IH.
Qed.

Lemma filter_append_not_append l calls :
  Forall is_not_append calls ->
  List.filter is_append (l ++ calls) = List.filter is_append l.
Proof.
  intros Hcalls. rewrite List.filter_app.
  assert (List.filter is_append calls = []) as ->; [| by rewrite app_nil_r].
  induction Hcalls as [|e rest He _ IH]; [done |].
  simpl. by destruct e.
Qed.

Lemma filter_append_appends set fixed_path ms :
  List.filter is_append (map (append_call set fixed_path) ms)
  = map (append_call set fixed_path) ms.
Proof. induction ms as [|m rest IH]; simpl; [done | by rewrite IH]. Qed.

Lemma lookup_folder_map s name (g : folder -> folder) :
  (forall f, folder_name (g f) = folder_name f) ->
  lookup_folder (Server (map g (folders s)) (selected s)) name
  = g <$> lookup_folder s name.
Proof.
  intros Hg. unfold lookup_folder. cbn [folders].
  induction (folders s) as [|f0 rest IH]; simpl; [done |].
  rewrite Hg. by destruct (String.eqb (folder_name f0) name).
Qed.

(** An append keeps every folder in place, by name. *)
Lemma srv_append_lookup s name msg fl date s' other :
  srv_append s name msg fl date = inr s' ->
  is_Some (lookup_folder s other) -> is_Some (lookup_folder s' other).
Proof.
  unfold srv_append. destruct (lookup_folder s name) as [target|]; [| done].
  intros [= <-] [found Hfound].
  rewrite lookup_folder_map, Hfound; [by eexists |].
  intros g. by destruct (String.eqb (folder_name g) name).
Qed.

Lemma deliver_lookup set fixed_path s m other :
  is_Some (lookup_folder s other) ->
  is_Some (lookup_folder (deliver set fixed_path s m) other).
Proof.
  intros Hs. unfold deliver.
  destruct (srv_append s fixed_path _ _ _) eqn:Happ; [done |].
  by eapply srv_append_lookup.
Qed.

(** With the folder in place every append of the inner loop succeeds. *)
Lemma append_loop_ok set fixed_path piece : forall w,
  is_Some (lookup_folder (dest w) fixed_path) ->
  exists w',
    for_each piece (append_message (Some set) fixed_path) tt w = (inr tt, w') /\
    log w' = log w ++ map (append_call set fixed_path) piece /\
    src w' = src w /\
    dest w' = fold_left (deliver set fixed_path) piece (dest w).
Proof.
  induction piece as [|m rest IH]; intros w Hfolder.
  - exists w. simpl. by rewrite app_nil_r.
  - rewrite for_each_cons.
    unfold append_message at 1, bind, supported_flags, ret, append, command.
    cbn [conn]. fold (append_call set fixed_path m).
    assert (Hd : srv_append (dest w) fixed_path (rfc822 m)
                            (keep_supported set (flags m)) (internaldate m)
                 = inr (deliver set fixed_path (dest w) m)).
    { unfold deliver, srv_append. destruct Hfolder as [f ->]. done. }
    rewrite Hd.
    destruct (IH (logged (append_call set fixed_path m)
                         (set_conn Dest (deliver set fixed_path (dest w) m) w)))
      as (w' & Hrun & Hlog & Hsrc & Hdest).
    { cbn. by apply deliver_lookup. }
    exists w'. split; [exact Hrun |]. split; [| split].
    + rewrite Hlog. cbn. by rewrite <- app_assoc.
    + by rewrite Hsrc.
    + by rewrite Hdest.
Qed.

Lemma fold_deliver_lookup set fixed_path ms : forall s other,
  is_Some (lookup_folder s other) ->
  is_Some (lookup_folder (fold_left (deliver set fixed_path) ms s) other).
Proof.
  induction ms as [|m rest IH]; intros s other Hs; simpl; [done |].
  by apply IH, deliver_lookup.
Qed.

(** The chunk loop of a folder step: it fetches piece after piece from the
    selected source folder and appends every message of every piece. *)
Lemma transfer_loop_ok set fixed_path msgs pieces : forall w,
  selected_msgs (src w) = inr msgs ->
  NoDup (map uid msgs) ->
  Forall (fun piece => sublist piece msgs) pieces ->
  is_Some (lookup_folder (dest w) fixed_path) ->
  exists w',
    for_each (map (map uid) pieces)
             (fun chunk_ids _ => transfer_chunk (Some set) fixed_path chunk_ids)
             tt w
    = (inr tt, w') /\
    List.filter is_append (log w')
    = List.filter is_append (log w)
      ++ map (append_call set fixed_path) (concat pieces) /\
    src w' = src w /\
    dest w' = fold_left (deliver set fixed_path) (concat pieces) (dest w).
Proof.
  induction pieces as [|piece rest IH]; intros w Hsel Hnd Hsub Hfolder.
  - exists w. simpl. by rewrite app_nil_r.
  - apply Forall_cons in Hsub as [Hpiece Hrest].
    cbn [map]. rewrite for_each_cons, transfer_chunk_run.
    unfold srv_fetch. rewrite Hsel, fetch_from_sublist by done.
    rewrite List.map_map. cbn [keyed snd]. rewrite List.map_id.
    set (wf := logged (Fetch Src (map uid piece)
                             [MSG_FLAGS; MSG_DATE; MSG_SIZE; MSG_RFC822]) w).
    destruct (append_loop_ok set fixed_path piece wf Hfolder)
      as (w1 & Hrun1 & Hlog1 & Hsrc1 & Hdest1).
    rewrite Hrun1.
    destruct (IH w1) as (w' & Hrun & Hlog & Hsrc & Hdest).
    + by rewrite Hsrc1.
    + done.
    + done.
    + rewrite Hdest1. by apply fold_deliver_lookup.
    + exists w'. split; [exact Hrun |]. split; [| split].
      * rewrite Hlog, Hlog1. subst wf. cbn [log logged].
        rewrite !List.filter_app, filter_append_appends. simpl.
        rewrite app_nil_r. cbn [concat]. by rewrite List.map_app, app_assoc.
      * by rewrite Hsrc, Hsrc1.
      * rewrite Hdest, Hdest1. cbn [concat]. by rewrite List.fold_left_app.
Qed.

End FolderStep.

Section FolderStepRun.

Local Open Scope list_scope.

Lemma reads_only_refl w : reads_only w w.
Proof. split; [done |]. split; [done | apply only_logs_refl]. Qed.

Lemma reads_only_trans w1 w2 w3 :
  reads_only w1 w2 -> reads_only w2 w3 -> reads_only w1 w3.
Proof.
  intros (S1 & D1 & L1) (S2 & D2 & L2).
  split; [congruence |]. split; [congruence | by eapply only_logs_trans].
Qed.

Lemma reads_only_fetch c ids fields : keeps reads_only (fetch c ids fields).
Proof.
  apply keeps_query. intros w. split; [done |]. split; [done |].
  by apply only_logs_logged.
Qed.

Lemma select_folder_run c path w f :
  lookup_folder (conn c w) path = Some f ->
  select_folder c path w
  = (inr (folder_FLAGS f),
     logged (SelectFolder c path)
            (set_conn c (Server (folders (conn c w)) (Some path)) w)).
Proof.
  intros Hf. unfold select_folder, command, srv_select_folder. by rewrite Hf.
Qed.

Lemma selected_msgs_of s path f :
  lookup_folder s path = Some f ->
  selected_msgs (Server (folders s) (Some path)) = inr (folder_msgs f).
Proof.
  intros Hf. unfold selected_msgs. cbn [selected].
  by assert (lookup_folder (Server (folders s) (Some path)) path = Some f) as ->.
Qed.

Lemma dest_keys_elem msgs key :
  key ∈ dest_keys msgs <-> exists m, m ∈ not_deleted msgs /\ key_of m = key.
Proof.
  unfold dest_keys. rewrite elem_of_list_to_set, list_elem_of_In, List.in_map_iff.
  split; intros (m & H1 & H2); exists m.
  - split; [by apply list_elem_of_In | done].
  - split; [done | by apply list_elem_of_In].
Qed.

Lemma collect_dest_keys_run w msgs :
  selected_msgs (dest w) = inr msgs ->
  NoDup (map uid msgs) ->
  exists w',
    collect_dest_keys (map uid (not_deleted msgs)) w = (inr (dest_keys msgs), w') /\
    reads_only w w'.
Proof.
  intros Hsel Hnd.
  pose proof (keeps_collect_dest_keys reads_only reads_only_refl reads_only_trans
                reads_only_fetch (map uid (not_deleted msgs)) w) as Hkeep.
  destruct (batches_pieces (not_deleted msgs)) as (pieces & Hb & Hcat & Hsub).
  unfold collect_dest_keys in *. rewrite Hb in *.
  destruct (fetch_loop_run Dest [MSG_ID_HEADERS] add_keys msgs Hnd pieces ∅ w Hsel
              (pieces_of_not_deleted _ _ Hsub)) as (w' & Hrun & _ & _).
  rewrite Hrun in Hkeep. exists w'. split; [| exact Hkeep].
  rewrite Hrun. f_equal. f_equal. apply set_eq. intros key.
  rewrite fold_add_keys_elem, Hcat, dest_keys_elem.
  split; [| auto]. intros [Hin | ?]; [| done]. by apply not_elem_of_empty in Hin.
Qed.

Lemma collect_move_messages_run dest_msg_set w msgs :
  selected_msgs (src w) = inr msgs ->
  NoDup (map uid msgs) ->
  exists w',
    collect_move_messages (map uid (not_deleted msgs)) dest_msg_set w
    = (inr (map keyed (to_transfer dest_msg_set msgs),
            sumZ (map rfc822_size (to_transfer dest_msg_set msgs))), w') /\
    reads_only w w'.
Proof.
  intros Hsel Hnd.
  pose proof (keeps_collect_move_messages reads_only reads_only_refl
                reads_only_trans reads_only_fetch
                (map uid (not_deleted msgs)) dest_msg_set w) as Hkeep.
  destruct (batches_pieces (not_deleted msgs)) as (pieces & Hb & Hcat & Hsub).
  unfold collect_move_messages in *. rewrite Hb in *.
  destruct (fetch_loop_run Src [MSG_ID_HEADERS; MSG_SIZE]
              (fun info acc => fold_left (consider dest_msg_set) info acc)
              msgs Hnd pieces ([], 0%Z) w Hsel
              (pieces_of_not_deleted _ _ Hsub)) as (w' & Hrun & _ & _).
  rewrite Hrun in Hkeep. exists w'. split; [| exact Hkeep].
  rewrite Hrun. f_equal. f_equal.
  rewrite (fold_pieces (consider dest_msg_set)), Hcat.
  rewrite fold_consider by (cbn [map app]; by apply not_deleted_NoDup).
  reflexivity.
Qed.

End FolderStepRun.

Section FolderStepTheorem.

Local Open Scope list_scope.

Lemma only_logs_not_append_filter w w' :
  only_logs is_not_append w w' ->
  List.filter is_append (log w') = List.filter is_append (log w).
Proof. intros (calls & -> & Hcalls). by apply filter_append_not_append. Qed.

Lemma to_transfer_sublist dest_msg_set msgs :
  sublist (to_transfer dest_msg_set msgs) msgs.
Proof.
  unfold to_transfer. etrans; [| apply not_deleted_sublist].
  generalize (not_deleted msgs). intros l.
  induction l as [|x rest IH]; cbn; [constructor |].
  destruct (negb (bool_decide (key_of x ∈ dest_msg_set))); by constructor.
Qed.

(** The run of a folder step on a folder that both servers hold. *)
Lemma folder_step_run
        (src_dir_separator : string) (dry_run : bool)
        (missing_folders : list (string * list string))
        (path fixed_path : string) (fl : list string)
        (dest_flag_set0 : option (gset string)) (w : world)
        (src_folder dest_folder : folder) :
  src_dir_separator <> "" ->
  lookup_folder (src w) path = Some src_folder ->
  lookup_folder (dest w) fixed_path = Some dest_folder ->
  NoDup (map uid (folder_msgs src_folder)) ->
  NoDup (map uid (folder_msgs dest_folder)) ->
  let set : gset string := list_to_set (folder_FLAGS dest_folder) in
  let new := to_transfer (dest_keys (folder_msgs dest_folder))
                         (folder_msgs src_folder) in
  exists w',
    sync_folder src_dir_separator dry_run missing_folders
                (path, fl, fixed_path) dest_flag_set0 w
    = (inr (Some set), w') /\
    List.filter is_append (log w')
    = List.filter is_append (log w) ++ map (append_call set fixed_path) new /\
    src w' = Server (folders (src w)) (Some path) /\
    dest w' = fold_left (deliver set fixed_path) new
                        (Server (folders (dest w)) (Some fixed_path)).
Proof.
  intros Hsep Hsrc Hdest Hnd_src Hnd_dest set new.
  unfold sync_folder. rewrite not_in_missing_always, orb_true_r.
  assert (exists parts, Py.str_split path src_dir_separator = inr parts)
    as [parts ->].
  { unfold Py.str_split. destruct src_dir_separator; [done | by eexists]. }
  rewrite bind_run. cbn [ret].
  rewrite bind_run, bind_run.
  rewrite (select_folder_run Dest fixed_path w dest_folder Hdest).
  set (w1 := logged (SelectFolder Dest fixed_path)
                    (set_conn Dest (Server (folders (conn Dest w)) (Some fixed_path)) w)).
  assert (Hsel1 : selected_msgs (conn Dest w1) = inr (folder_msgs dest_folder))
    by (by apply selected_msgs_of).
  rewrite bind_run, (search_run Dest w1 _ Hsel1). cbn [ret].
  set (w2 := logged (Search Dest ["NOT"; "DELETED"]) w1).
  destruct (collect_dest_keys_run w2 (folder_msgs dest_folder) Hsel1 Hnd_dest)
    as (w3 & Hrun3 & Hs3 & Hd3 & Hl3).
  rewrite bind_run, Hrun3.
  assert (Hsrc3 : lookup_folder (conn Src w3) path = Some src_folder)
    by (cbn [conn]; by rewrite Hs3).
  rewrite bind_run, (select_folder_run Src path w3 src_folder Hsrc3).
  set (w4 := logged (SelectFolder Src path)
                    (set_conn Src (Server (folders (conn Src w3)) (Some path)) w3)).
  assert (Hsel4 : selected_msgs (conn Src w4) = inr (folder_msgs src_folder))
    by (by apply selected_msgs_of).
  rewrite bind_run, (search_run Src w4 _ Hsel4).
  set (w5 := logged (Search Src ["NOT"; "DELETED"]) w4).
  destruct (collect_move_messages_run (dest_keys (folder_msgs dest_folder)) w5
              (folder_msgs src_folder) Hsel4 Hnd_src)
    as (w6 & Hrun6 & Hs6 & Hd6 & Hl6).
  rewrite bind_run, Hrun6. fold new.
  destruct (chunk_loop_pieces default_max_size new [] 0%Z) as (pieces & Hp & Hcat).
  unfold _chunk_messages. cbn [map] in Hp. rewrite Hp. cbn [app] in Hcat.
  destruct (transfer_loop_ok set fixed_path (folder_msgs src_folder) pieces w6)
    as (w7 & Hrun7 & Hlog7 & Hs7 & Hd7).
  { by rewrite Hs6. }
  { done. }
  { apply Forall_forall. intros piece Hpiece.
    etrans; [by apply piece_sublist |]. rewrite Hcat. apply to_transfer_sublist. }
  { rewrite Hd6. subst w5 w4. cbn. rewrite Hd3. subst w2 w1. cbn.
    unfold lookup_folder in *. cbn [folders]. by eexists. }
  subst set. rewrite bind_run, Hrun7. cbn [ret].
  exists w7. split; [done |]. split; [| split].
  - rewrite Hlog7, Hcat. f_equal.
    rewrite (only_logs_not_append_filter _ _ Hl6). subst w5 w4.
    cbn [log logged set_conn]. rewrite !List.filter_app. simpl.
    rewrite !app_nil_r.
    rewrite (only_logs_not_append_filter _ _ Hl3). subst w2 w1.
    cbn [log logged set_conn]. rewrite !List.filter_app. simpl.
    by rewrite !app_nil_r.
  - rewrite Hs7, Hs6. subst w5 w4. cbn. by rewrite Hs3.
  - rewrite Hd7, Hd6, Hcat. subst w5 w4. cbn. by rewrite Hd3.
Qed.


End FolderStepTheorem.

(** ** The deduplicator *)

Section TransferSet.

Local Open Scope list_scope.

(** The calls of a header loop that returns: one fetch per batch. *)
Lemma fetch_loop_log {S} c fields (step : list (N * message) -> S -> S) :
  forall bs acc w x w',
    for_each bs
             (fun chunk_ids acc =>
                bind (fetch c chunk_ids fields) (fun info => ret (step info acc)))
             acc w
    = (inr x, w') ->
    log w' = log w ++ map (fun ids => Fetch c ids fields) bs.
Proof.
  induction bs as [|ids rest IH]; intros acc w x w' Hrun.
  - cbn in Hrun. injection Hrun as _ <-. cbn. by rewrite app_nil_r.
  - rewrite for_each_cons in Hrun. unfold bind at 1, fetch, query in Hrun.
    destruct (srv_fetch (conn c w) ids) as [err | info]; [done |].
    cbn [ret] in Hrun. apply IH in Hrun. rewrite Hrun. cbn.
    by rewrite <- app_assoc.
Qed.

(** The calls of the chunk loop: for every chunk the fetch of its
    messages, then one append per message. *)
Lemma transfer_loop_log set fixed_path msgs pieces : forall w w',
  selected_msgs (src w) = inr msgs ->
  NoDup (map uid msgs) ->
  Forall (fun piece => sublist piece msgs) pieces ->
  is_Some (lookup_folder (dest w) fixed_path) ->
  for_each (map (map uid) pieces)
           (fun chunk_ids _ => transfer_chunk (Some set) fixed_path chunk_ids)
           tt w
  = (inr tt, w') ->
  log w' = log w ++
           concat (map (fun piece =>
                          Fetch Src (map uid piece)
                                [MSG_FLAGS; MSG_DATE; MSG_SIZE; MSG_RFC822]
                          :: map (append_call set fixed_path) piece)
                       pieces).
Proof.
  induction pieces as [|piece rest IH]; intros w w' Hsel Hnd Hsub Hfolder Hrun.
  - cbn in Hrun. injection Hrun as <-. cbn. by rewrite app_nil_r.
  - apply Forall_cons in Hsub as [Hpiece Hrest].
    cbn [map] in Hrun. rewrite for_each_cons, transfer_chunk_run in Hrun.
    unfold srv_fetch in Hrun. rewrite Hsel, fetch_from_sublist in Hrun by done.
    rewrite List.map_map in Hrun. cbn [keyed snd] in Hrun.
    rewrite List.map_id in Hrun.
    set (wf := logged (Fetch Src (map uid piece)
                             [MSG_FLAGS; MSG_DATE; MSG_SIZE; MSG_RFC822]) w) in *.
    destruct (append_loop_ok set fixed_path piece wf Hfolder)
      as (w1 & Hrun1 & Hlog1 & Hsrc1 & Hdest1).
    rewrite Hrun1 in Hrun. apply IH in Hrun.
    + rewrite Hrun, Hlog1. subst wf. cbn [log logged map concat].
      by rewrite <- !app_assoc.
    + by rewrite Hsrc1.
    + done.
    + done.
    + rewrite Hdest1. by apply fold_deliver_lookup.
Qed.

(** The calls of a folder step, in order: the destination folder is
    selected, searched and its headers fetched; the source folder likewise;
    then the new messages are fetched and appended chunk by chunk. *)
Lemma folder_step_trace
        (src_dir_separator : string) (dry_run : bool)
        (missing_folders : list (string * list string))
        (path fixed_path : string) (fl : list string)
        (dest_flag_set0 : option (gset string)) (w : world)
        (src_folder dest_folder : folder) :
  src_dir_separator <> "" ->
  lookup_folder (src w) path = Some src_folder ->
  lookup_folder (dest w) fixed_path = Some dest_folder ->
  NoDup (map uid (folder_msgs src_folder)) ->
  NoDup (map uid (folder_msgs dest_folder)) ->
  let set : gset string := list_to_set (folder_FLAGS dest_folder) in
  let new := to_transfer (dest_keys (folder_msgs dest_folder))
                         (folder_msgs src_folder) in
  exists pieces w',
    sync_folder src_dir_separator dry_run missing_folders
                (path, fl, fixed_path) dest_flag_set0 w
    = (inr (Some set), w') /\
    _chunk_messages (map keyed new) default_max_size = map (map uid) pieces /\
    concat pieces = new /\
    log w'
    = log w ++
      [SelectFolder Dest fixed_path; Search Dest ["NOT"; "DELETED"]] ++
      map (fun ids => Fetch Dest ids [MSG_ID_HEADERS])
          (batches (map uid (not_deleted (folder_msgs dest_folder)))) ++
      [SelectFolder Src path; Search Src ["NOT"; "DELETED"]] ++
      map (fun ids => Fetch Src ids [MSG_ID_HEADERS; MSG_SIZE])
          (batches (map uid (not_deleted (folder_msgs src_folder)))) ++
      concat (map (fun piece =>
                     Fetch Src (map uid piece)
                           [MSG_FLAGS; MSG_DATE; MSG_SIZE; MSG_RFC822]
                     :: map (append_call set fixed_path) piece)
                  pieces).
Proof.
  intros Hsep Hsrc Hdest Hnd_src Hnd_dest set new.
  unfold sync_folder. rewrite not_in_missing_always, orb_true_r.
  assert (exists parts, Py.str_split path src_dir_separator = inr parts)
    as [parts ->].
  { unfold Py.str_split. destruct src_dir_separator; [done | by eexists]. }
  rewrite bind_run. cbn [ret].
  rewrite bind_run, bind_run.
  rewrite (select_folder_run Dest fixed_path w dest_folder Hdest).
  set (w1 := logged (SelectFolder Dest fixed_path)
                    (set_conn Dest (Server (folders (conn Dest w)) (Some fixed_path)) w)).
  assert (Hsel1 : selected_msgs (conn Dest w1) = inr (folder_msgs dest_folder))
    by (by apply selected_msgs_of).
  rewrite bind_run, (search_run Dest w1 _ Hsel1). cbn [ret].
  set (w2 := logged (Search Dest ["NOT"; "DELETED"]) w1).
  destruct (collect_dest_keys_run w2 (folder_msgs dest_folder) Hsel1 Hnd_dest)
    as (w3 & Hrun3 & Hs3 & Hd3 & Hl3).
  rewrite bind_run, Hrun3.
  pose proof (fetch_loop_log Dest [MSG_ID_HEADERS] add_keys _ _ _ _ _ Hrun3) as Hlog3.
  assert (Hsrc3 : lookup_folder (conn Src w3) path = Some src_folder)
    by (cbn [conn]; by rewrite Hs3).
  rewrite bind_run, (select_folder_run Src path w3 src_folder Hsrc3).
  set (w4 := logged (SelectFolder Src path)
                    (set_conn Src (Server (folders (conn Src w3)) (Some path)) w3)).
  assert (Hsel4 : selected_msgs (conn Src w4) = inr (folder_msgs src_folder))
    by (by apply selected_msgs_of).
  rewrite bind_run, (search_run Src w4 _ Hsel4).
  set (w5 := logged (Search Src ["NOT"; "DELETED"]) w4).
  destruct (collect_move_messages_run (dest_keys (folder_msgs dest_folder)) w5
              (folder_msgs src_folder) Hsel4 Hnd_src)
    as (w6 & Hrun6 & Hs6 & Hd6 & Hl6).
  rewrite bind_run, Hrun6. fold new.
  pose proof (fetch_loop_log Src [MSG_ID_HEADERS; MSG_SIZE]
                (fun info acc =>
                   fold_left (consider (dest_keys (folder_msgs dest_folder))) info acc)
                _ _ _ _ _ Hrun6) as Hlog6.
  destruct (chunk_loop_pieces default_max_size new [] 0%Z) as (pieces & Hp & Hcat).
  unfold _chunk_messages. cbn [map] in Hp. rewrite Hp. cbn [app] in Hcat.
  assert (Hsel6 : selected_msgs (src w6) = inr (folder_msgs src_folder))
    by (by rewrite Hs6).
  assert (Hsub : Forall (fun piece => sublist piece (folder_msgs src_folder)) pieces).
  { apply Forall_forall. intros piece Hpiece.
    etrans; [by apply piece_sublist |]. rewrite Hcat. apply to_transfer_sublist. }
  assert (Hfolder6 : is_Some (lookup_folder (dest w6) fixed_path)).
  { rewrite Hd6. subst w5 w4. cbn. rewrite Hd3. subst w2 w1. cbn.
    unfold lookup_folder in *. cbn [folders]. by eexists. }
  destruct (transfer_loop_ok set fixed_path (folder_msgs src_folder) pieces w6
              Hsel6 Hnd_src Hsub Hfolder6)
    as (w7 & Hrun7 & _ & _ & _).
  pose proof (transfer_loop_log set fixed_path (folder_msgs src_folder) pieces
                w6 w7 Hsel6 Hnd_src Hsub Hfolder6 Hrun7) as Hlog7.
  subst set. rewrite bind_run, Hrun7. cbn [ret].
  exists pieces, w7. split; [done |]. split; [done |]. split; [done |].
  rewrite Hlog7, Hlog6. subst w5 w4. cbn [log logged set_conn].
  rewrite Hlog3. subst w2 w1. cbn [log logged set_conn].
  rewrite <- !app_assoc. reflexivity.
Qed.

Lemma header_fetches_not_in_full c fields (bs : list (list N)) :
  asks_rfc822 fields = false ->
  omap fetched_in_full (map (fun ids => Fetch c ids fields) bs) = [].
Proof.
  intros Hf. induction bs as [|ids rest IH]; [done |].
  cbn. destruct c; by rewrite ?Hf.
Qed.

Lemma transfer_fetches_in_full set fixed_path (pieces : list (list message)) :
  omap fetched_in_full
       (concat (map (fun piece =>
                       Fetch Src (map uid piece)
                             [MSG_FLAGS; MSG_DATE; MSG_SIZE; MSG_RFC822]
                       :: map (append_call set fixed_path) piece)
                    pieces))
  = map (map uid) pieces.
Proof.
  induction pieces as [|piece rest IH]; [done |].
  rewrite List.map_cons, List.concat_cons. rewrite <- app_comm_cons.
  cbn [omap list_omap fetched_in_full asks_rfc822 existsb orb].
  rewrite omap_app, IH.
  assert (omap fetched_in_full (map (append_call set fixed_path) piece) = []) as ->;
    [| done].
  clear. induction piece as [|m rest IH]; [done | exact IH].
Qed.

(** C8. In a folder step on a folder that both servers hold (a non-empty
    source separator, distinct message identifiers in both folders), the
    step returns and:  the destination header loop yields the set of the
    identifying header blocks of the non-deleted destination messages;  the
    source header loop, run with this set, yields [move_messages] and
    [data_total];  and the messages the step then fetches in full from the
    source, chunk by chunk, are the chunks of this very [move_messages].  A
    source message is in [move_messages] if and only if the source search
    returned it and its header block is not in the destination set;
    [move_messages] holds each such message once, under its own identifier,
    and [data_total] is the sum of the reported sizes of exactly these
    messages. *)
Theorem transfer_set_is_new_messages
        (src_dir_separator : string) (dry_run : bool)
        (missing_folders : list (string * list string))
        (path fixed_path : string) (fl : list string)
        (dest_flag_set0 : option (gset string)) (w : world)
        (src_folder dest_folder : folder) :
  src_dir_separator <> "" ->
  lookup_folder (src w) path = Some src_folder ->
  lookup_folder (dest w) fixed_path = Some dest_folder ->
  NoDup (map uid (folder_msgs src_folder)) ->
  NoDup (map uid (folder_msgs dest_folder)) ->
  let src_msgs := folder_msgs src_folder in
  let dest_msgs := folder_msgs dest_folder in
  exists (dest_msg_set : gset string) (move_messages : list (N * message))
         (data_total : Z) x w',
    sync_folder src_dir_separator dry_run missing_folders
                (path, fl, fixed_path) dest_flag_set0 w
    = (inr x, w') /\
    (forall wd, selected_msgs (dest wd) = inr dest_msgs ->
                (collect_dest_keys (map uid (not_deleted dest_msgs)) wd).1
                = inr dest_msg_set) /\
    (forall key, key ∈ dest_msg_set
                 <-> exists m, m ∈ dest_msgs /\ is_deleted m = false /\
                               key_of m = key) /\
    (forall ws, selected_msgs (src ws) = inr src_msgs ->
                (collect_move_messages (map uid (not_deleted src_msgs))
                                       dest_msg_set ws).1
                = inr (move_messages, data_total)) /\
    omap fetched_in_full (log w')
    = omap fetched_in_full (log w)
      ++ _chunk_messages move_messages default_max_size /\
    (forall m, m ∈ src_msgs ->
               (keyed m ∈ move_messages
                <-> uid m ∈ map uid (not_deleted src_msgs) /\
                    key_of m ∉ dest_msg_set)) /\
    (forall item, item ∈ move_messages ->
                  item.2 ∈ src_msgs /\ item = keyed item.2) /\
    NoDup (map fst move_messages) /\
    data_total = sumZ (map (fun item => rfc822_size item.2) move_messages).
Proof.
  intros Hsep Hsrc Hdest Hnd_src Hnd_dest src_msgs dest_msgs.
  destruct (folder_step_trace src_dir_separator dry_run missing_folders path
              fixed_path fl dest_flag_set0 w src_folder dest_folder
              Hsep Hsrc Hdest Hnd_src Hnd_dest)
    as (pieces & w' & Hrun & Hchunks & Hcat & Hlog).
  fold src_msgs dest_msgs in Hchunks, Hcat, Hlog.
  set (dest_msg_set := dest_keys dest_msgs) in *.
  exists dest_msg_set, (map keyed (to_transfer dest_msg_set src_msgs)),
    (sumZ (map rfc822_size (to_transfer dest_msg_set src_msgs))),
    (Some (list_to_set (folder_FLAGS dest_folder))), w'.
  assert (Hin : forall m, m ∈ to_transfer dest_msg_set src_msgs
                          <-> m ∈ not_deleted src_msgs /\ key_of m ∉ dest_msg_set).
  { intros m. unfold to_transfer.
    rewrite !list_elem_of_In, List.filter_In, negb_true_iff, bool_decide_eq_false.
    done. }
  split; [exact Hrun |]. split; [| split; [| split; [| split]]].
  - intros wd Hsel.
    destruct (collect_dest_keys_run wd dest_msgs Hsel Hnd_dest) as (w1 & -> & _).
    done.
  - intros key. subst dest_msg_set. rewrite dest_keys_elem. split.
    + intros (m & Hm & Hk). apply not_deleted_elem in Hm as [? ?]. by exists m.
    + intros (m & Hm & Hdel & Hk). exists m.
      split; [by apply not_deleted_elem | done].
  - intros ws Hsel.
    destruct (collect_move_messages_run dest_msg_set ws src_msgs Hsel Hnd_src)
      as (w1 & -> & _).
    done.
  - rewrite Hlog, Hchunks. rewrite !omap_app.
    rewrite !header_fetches_not_in_full by done.
    rewrite transfer_fetches_in_full. by cbn.
  - split; [| split; [| split]].
    + intros m Hm. split.
      * intros Hk. apply list_elem_of_In, List.in_map_iff in Hk as (m' & Heq & Hm').
        inversion Heq; subst m'. apply list_elem_of_In, Hin in Hm' as [Hnot Hkey].
        split; [| done]. by apply (list_elem_of_fmap_2 uid).
      * intros [Hid Hkey].
        apply list_elem_of_In, List.in_map_iff in Hid as (m' & Heq & Hm').
        apply list_elem_of_In in Hm'.
        assert (m' = m) as ->.
        { apply (uid_determines src_msgs); [done | | done | done].
          by apply not_deleted_elem in Hm' as [? _]. }
        apply (list_elem_of_fmap_2 keyed). by apply Hin.
    + intros item Hitem.
      apply list_elem_of_In, List.in_map_iff in Hitem as (m & <- & Hm).
      split; [| done]. cbn.
      apply list_elem_of_In, Hin in Hm as [Hm _].
      by apply not_deleted_elem in Hm as [? _].
    + rewrite List.map_map. cbn [keyed fst].
      eapply sublist_NoDup; [exact Hnd_src |].
      apply (fmap_sublist uid), to_transfer_sublist.
    + by rewrite List.map_map.
Qed.

End TransferSet.

Lemma transfer_set_is_new_messages_witness :
  exists (dest_msg_set : gset string) (move_messages : list (N * message))
         (data_total : Z) x w',
    sync_folder "/" false [] ("INBOX", [], "INBOX") None
                (World sample_source sample_destination [])
    = (inr x, w') /\
    (forall wd, selected_msgs (dest wd)
                = inr [sample_message 7 "mid1 d1" 100 ["\Seen"]] ->
                (collect_dest_keys
                   (map uid (not_deleted [sample_message 7 "mid1 d1" 100 ["\Seen"]]))
                   wd).1
                = inr dest_msg_set) /\
    (forall key, key ∈ dest_msg_set
                 <-> exists m, m ∈ [sample_message 7 "mid1 d1" 100 ["\Seen"]] /\
                               is_deleted m = false /\ key_of m = key) /\
    (forall ws, selected_msgs (src ws) = inr sample_inbox ->
                (collect_move_messages (map uid (not_deleted sample_inbox))
                                       dest_msg_set ws).1
                = inr (move_messages, data_total)) /\
    omap fetched_in_full (log w')
    = (omap fetched_in_full [] ++ _chunk_messages move_messages default_max_size)%list /\
    (forall m, m ∈ sample_inbox ->
               (keyed m ∈ move_messages
                <-> uid m ∈ map uid (not_deleted sample_inbox) /\
                    key_of m ∉ dest_msg_set)) /\
    (forall item, item ∈ move_messages ->
                  item.2 ∈ sample_inbox /\ item = keyed item.2) /\
    NoDup (map fst move_messages) /\
    data_total = sumZ (map (fun item => rfc822_size item.2) move_messages).
Proof.
  apply (transfer_set_is_new_messages
           "/" false [] "INBOX" "INBOX" [] None
           (World sample_source sample_destination [])
           (Folder [] (Some "/") "INBOX" system_flags sample_inbox)
           (Folder [] (Some "/") "INBOX" system_flags
                   [sample_message 7 "mid1 d1" 100 ["\Seen"]])).
  - done.
  - reflexivity.
  - reflexivity.
  - apply (bool_decide_unpack _). vm_compute. exact I.
  - apply (bool_decide_unpack _). vm_compute. exact I.
Defined.

(** The example of the specification: the destination holds the header
    block of the first message, so of the two messages the source search
    returns only the second one is to be moved, and the total is its
    size. *)
Example dedup_example :
  (collect_move_messages [1%N; 2%N] {[ "mid1 d1" ]}
                         (select_both sample_source sample_destination "INBOX")).1
  = inr ([(2%N, sample_message 2 "mid2 d2" 200 ["\Flagged"])], 200%Z).
Proof. by vm_compute. Qed.

(** ** Running the synchronisation again *)

Section Delivery.

Local Open Scope list_scope.

Lemma lookup_folder_folders s name :
  lookup_folder s name = find_folder (folders s) name.
Proof. reflexivity. Qed.

Lemma next_uid_fresh msgs : next_uid msgs ∉ map uid msgs.
Proof.
  unfold next_uid.
  assert (Hmax : forall u, u ∈ map uid msgs ->
                           (u <= fold_right N.max 0 (map uid msgs))%N).
  { induction msgs as [|m rest IH]; intros u Hu; simpl in *.
    - by apply elem_of_nil in Hu.
    - apply elem_of_cons in Hu as [-> | Hu]; [lia |].
      specialize (IH u Hu). lia. }
  intros Hin. apply Hmax in Hin. lia.
Qed.

Lemma store_copy_with_more set f m :
  exists n, store_copy set f m = with_more f [n] /\
            key_of n = key_of m /\
            (is_deleted n = true -> is_deleted m = true) /\
            uid n ∉ map uid (folder_msgs f).
Proof.
  eexists. split; [reflexivity |]. split; [reflexivity |]. split.
  - unfold is_deleted. cbn [flags]. rewrite !bool_decide_eq_true.
    intros Hin. eapply elem_of_sublist; [exact Hin | apply keep_supported_sublist].
  - cbn [uid]. apply next_uid_fresh.
Qed.

Lemma with_more_more f a b : with_more (with_more f a) b = with_more f (a ++ b).
Proof. unfold with_more. cbn. by rewrite <- app_assoc. Qed.

Lemma with_more_nil f : with_more f [] = f.
Proof. destruct f. unfold with_more. cbn. by rewrite app_nil_r. Qed.

(** What a folder holds after a list of messages has been stored in it. *)
Lemma fold_store_copy set ms : forall f,
  NoDup (map uid (folder_msgs f)) ->
  exists news,
    fold_left (store_copy set) ms f = with_more f news /\
    map key_of news = map key_of ms /\
    (forall n, n ∈ news -> is_deleted n = true ->
               exists m, m ∈ ms /\ is_deleted m = true) /\
    NoDup (map uid (folder_msgs f ++ news)).
Proof.
  induction ms as [|m rest IH]; intros f Hnd.
  - exists []. simpl. rewrite with_more_nil, app_nil_r.
    split; [done |]. split; [done |]. split; [| done].
    intros n Hn. by apply elem_of_nil in Hn.
  - cbn [fold_left].
    destruct (store_copy_with_more set f m) as (n & Hn & Hkey & Hdel & Hfresh).
    destruct (IH (store_copy set f m)) as (news & Hfold & Hkeys & Hdels & Hnd').
    { rewrite Hn. cbn. rewrite List.map_app. cbn.
      apply NoDup_app. split; [done |]. split; [| apply NoDup_singleton].
      intros u Hu Hu'. apply list_elem_of_singleton in Hu'. by subst. }
    exists (n :: news). rewrite Hfold, Hn, with_more_more. cbn [app].
    split; [done |]. split; [cbn; by rewrite Hkey, Hkeys |]. split.
    + intros n' Hn' Hd. apply elem_of_cons in Hn' as [-> | Hn'].
      * exists m. split; [apply list_elem_of_here | by apply Hdel].
      * destruct (Hdels n' Hn' Hd) as (m' & Hm' & Hd').
        exists m'. split; [by apply list_elem_of_further | done].
    + rewrite Hn in Hnd'. cbn in Hnd'. by rewrite <- app_assoc in Hnd'.
Qed.

Lemma deliver_folders set fixed_path s m :
  is_Some (lookup_folder s fixed_path) ->
  deliver set fixed_path s m
  = Server (map (fun f => if String.eqb (folder_name f) fixed_path
                          then store_copy set f m else f)
                (folders s))
           (selected s).
Proof.
  intros [f Hf]. unfold deliver, srv_append. by rewrite Hf.
Qed.

Lemma fold_deliver_folders set fixed_path ms : forall s,
  is_Some (lookup_folder s fixed_path) ->
  fold_left (deliver set fixed_path) ms s
  = Server (map (fun f => if String.eqb (folder_name f) fixed_path
                          then fold_left (store_copy set) ms f else f)
                (folders s))
           (selected s).
Proof.
  induction ms as [|m rest IH]; intros s Hs.
  - simpl. destruct s as [fs sel]. cbn. f_equal. clear Hs.
    induction fs as [|f fs IHfs]; cbn; [done |].
    rewrite <- IHfs. by destruct (String.eqb (folder_name f) fixed_path).
  - cbn [fold_left]. rewrite IH by by apply deliver_lookup.
    rewrite deliver_folders by done. cbn [folders selected]. f_equal.
    rewrite List.map_map. apply List.map_ext. intros f.
    destruct (String.eqb (folder_name f) fixed_path) eqn:Hname.
    + cbn [store_copy store_message folder_name]. by rewrite Hname.
    + by rewrite Hname.
Qed.

End Delivery.

Section Settled.

Local Open Scope list_scope.

Lemma extends_refl FD : extends FD FD.
Proof.
  unfold extends. induction FD as [|f FD IH]; constructor; [| done].
  exists []. by rewrite with_more_nil.
Qed.

Lemma extends_trans FD1 FD2 FD3 :
  extends FD1 FD2 -> extends FD2 FD3 -> extends FD1 FD3.
Proof.
  unfold extends. intros H12. revert FD3.
  induction H12 as [|f1 f2 l1 l2 [e1 ->] _ IH]; intros FD3 H23.
  - by inversion H23.
  - inversion H23 as [|? f3 ? l3 [e2 ->] Hrest]; subst.
    constructor; [| by apply IH].
    exists (e1 ++ e2). by rewrite with_more_more.
Qed.

Lemma find_folder_extends FD FD' name fd :
  extends FD FD' -> find_folder FD name = Some fd ->
  exists extra, find_folder FD' name = Some (with_more fd extra).
Proof.
  unfold extends, find_folder, lookup_folder. cbn [folders].
  induction 1 as [|f f' l l' [extra ->] _ IH]; [done |].
  cbn. destruct (String.eqb (folder_name f) name).
  - intros [= ->]. by exists extra.
  - apply IH.
Qed.

Lemma not_deleted_app a b : not_deleted (a ++ b) = not_deleted a ++ not_deleted b.
Proof. unfold not_deleted. apply List.filter_app. Qed.

Lemma dest_keys_more msgs extra key :
  key ∈ dest_keys msgs -> key ∈ dest_keys (msgs ++ extra).
Proof.
  rewrite !dest_keys_elem, not_deleted_app. intros (m & Hm & Hk).
  exists m. split; [| done]. apply elem_of_app. by left.
Qed.

Lemma covered_more fs fd extra : covered fs fd -> covered fs (with_more fd extra).
Proof. intros Hc m Hm. cbn. by apply dest_keys_more, Hc. Qed.

Lemma settled_extends FS FD FD' e :
  settled FS FD e -> extends FD FD' -> settled FS FD' e.
Proof.
  intros (fs & fd & Hs & Hd & Hc) Hext.
  destruct (find_folder_extends _ _ _ _ Hext Hd) as (extra & Hd').
  exists fs, (with_more fd extra). split; [done |]. split; [done |].
  by apply covered_more.
Qed.

Lemma to_transfer_elem dest_msg_set msgs m :
  m ∈ to_transfer dest_msg_set msgs
  <-> m ∈ not_deleted msgs /\ key_of m ∉ dest_msg_set.
Proof.
  unfold to_transfer.
  rewrite !list_elem_of_In, List.filter_In, negb_true_iff, bool_decide_eq_false.
  done.
Qed.


(** After the new messages of a source folder have been stored in the
    destination folder, the source folder is covered. *)
Lemma covered_after_transfer set fs fd :
  NoDup (map uid (folder_msgs fd)) ->
  covered fs (fold_left (store_copy set)
                        (to_transfer (dest_keys (folder_msgs fd)) (folder_msgs fs))
                        fd).
Proof.
  intros Hnd.
  destruct (fold_store_copy set
              (to_transfer (dest_keys (folder_msgs fd)) (folder_msgs fs)) fd Hnd)
    as (news & -> & Hkeys & Hdel & _).
  intros m Hm. cbn.
  destruct (decide (key_of m ∈ dest_keys (folder_msgs fd))) as [Hin | Hout].
  - by apply dest_keys_more.
  - assert (Hnew : m ∈ to_transfer (dest_keys (folder_msgs fd)) (folder_msgs fs))
      by by apply to_transfer_elem.
    assert (Hk : key_of m ∈ map key_of news).
    { rewrite Hkeys. by apply (list_elem_of_fmap_2 key_of). }
    apply list_elem_of_In, List.in_map_iff in Hk as (n & Hn & Hnin).
    apply list_elem_of_In in Hnin.
    apply dest_keys_elem. exists n. split; [| done].
    rewrite not_deleted_app. apply elem_of_app. right.
    apply not_deleted_elem. split; [done |].
    destruct (is_deleted n) eqn:Hd; [| done].
    destruct (Hdel n Hnin Hd) as (m' & Hm' & Hd').
    apply to_transfer_elem in Hm' as [Hm' _].
    apply not_deleted_elem in Hm' as [_ Hm']. congruence.
Qed.

Lemma all_distinct_elem FD name fd :
  all_distinct FD -> find_folder FD name = Some fd ->
  NoDup (map uid (folder_msgs fd)).
Proof.
  intros Hall Hf. unfold find_folder, lookup_folder in Hf. cbn in Hf.
  apply List.find_some in Hf as [Hin _].
  unfold all_distinct in Hall. rewrite Forall_forall in Hall.
  by apply Hall, list_elem_of_In.
Qed.

(** The destination after a folder's new messages have been delivered. *)
Lemma fold_deliver_extends set fixed_path ms s :
  is_Some (lookup_folder s fixed_path) ->
  all_distinct (folders s) ->
  extends (folders s) (folders (fold_left (deliver set fixed_path) ms s)) /\
  all_distinct (folders (fold_left (deliver set fixed_path) ms s)).
Proof.
  intros Hs Hall. rewrite fold_deliver_folders by done. cbn [folders].
  unfold extends, all_distinct in *. clear Hs.
  induction Hall as [|f l Hf Hl [IH1 IH2]]; cbn; [by split |].
  destruct (fold_store_copy set ms f Hf) as (news & Hfold & _ & _ & Hnd).
  destruct (String.eqb (folder_name f) fixed_path).
  - split; constructor; try done.
    + by exists news.
    + rewrite Hfold. by cbn.
  - split; constructor; try done. exists []. by rewrite with_more_nil.
Qed.

End Settled.

Section SecondRun.

Local Open Scope list_scope.

(** A folder step only returns when the source separator is not empty and
    both servers hold the folder. *)
Lemma sync_folder_success sep dry_run missing path fl fixed_path flag0 w x w1 :
  all_distinct (folders (dest w)) ->
  sync_folder sep dry_run missing (path, fl, fixed_path) flag0 w = (inr x, w1) ->
  sep <> "" /\
  is_Some (lookup_folder (src w) path) /\
  is_Some (lookup_folder (dest w) fixed_path).
Proof.
  intros Hall. unfold sync_folder. rewrite not_in_missing_always, orb_true_r.
  rewrite bind_run. unfold Py.str_split.
  destruct sep as [|c sep]; [done |]. cbn [ret].
  intros Hrun. split; [done |]. revert Hrun.
  rewrite bind_run, bind_run.
  destruct (lookup_folder (dest w) fixed_path) as [fd|] eqn:Hdest.
  2:{ unfold select_folder at 1, command, srv_select_folder. cbn [conn].
      by rewrite Hdest. }
  rewrite (select_folder_run Dest fixed_path w fd Hdest).
  set (w1' := logged (SelectFolder Dest fixed_path)
                     (set_conn Dest (Server (folders (conn Dest w)) (Some fixed_path)) w)).
  assert (Hsel1 : selected_msgs (conn Dest w1') = inr (folder_msgs fd))
    by (by apply selected_msgs_of).
  rewrite bind_run, (search_run Dest w1' _ Hsel1). cbn [ret].
  assert (Hnd : NoDup (map uid (folder_msgs fd)))
    by (eapply all_distinct_elem; [exact Hall | by rewrite <- lookup_folder_folders]).
  destruct (collect_dest_keys_run (logged (Search Dest ["NOT"; "DELETED"]) w1')
              (folder_msgs fd) Hsel1 Hnd)
    as (w3 & Hrun3 & Hs3 & Hd3 & Hl3).
  rewrite bind_run, Hrun3, bind_run.
  destruct (lookup_folder (src w) path) as [fs|] eqn:Hsrc; [by split; eexists |].
  unfold select_folder at 1, command, srv_select_folder. cbn [conn].
  rewrite Hs3. subst w1'. cbn. by rewrite Hsrc.
Qed.

End SecondRun.

Section SecondRunLoops.

Local Open Scope list_scope.

Lemma lookup_folder_name s name f :
  lookup_folder s name = Some f -> String.eqb (folder_name f) name = true.
Proof. unfold lookup_folder. intros Hf. by apply List.find_some in Hf as [_ ?]. Qed.

Lemma fold_store_copy_name set ms : forall f,
  folder_name (fold_left (store_copy set) ms f) = folder_name f.
Proof. induction ms as [|m rest IH]; intros f; cbn; [done |]. by rewrite IH. Qed.

(** The folder step of an entry leaves it settled. *)
Lemma folder_step_settles sep dry_run missing path fl fixed_path flag0 w x w1 :
  all_distinct (folders (src w)) ->
  all_distinct (folders (dest w)) ->
  sync_folder sep dry_run missing (path, fl, fixed_path) flag0 w = (inr x, w1) ->
  sep <> "" /\
  folders (src w1) = folders (src w) /\
  all_distinct (folders (dest w1)) /\
  extends (folders (dest w)) (folders (dest w1)) /\
  settled (folders (src w)) (folders (dest w1)) (path, fl, fixed_path).
Proof.
  intros Hsrc_all Hdest_all Hstep.
  destruct (sync_folder_success _ _ _ _ _ _ _ _ _ _ Hdest_all Hstep)
    as (Hsep & [fs Hfs] & [fd Hfd]).
  assert (Hnd_s : NoDup (map uid (folder_msgs fs)))
    by (eapply all_distinct_elem; [exact Hsrc_all | by rewrite <- lookup_folder_folders]).
  assert (Hnd_d : NoDup (map uid (folder_msgs fd)))
    by (eapply all_distinct_elem; [exact Hdest_all | by rewrite <- lookup_folder_folders]).
  destruct (folder_step_run sep dry_run missing path fixed_path fl flag0 w fs fd
              Hsep Hfs Hfd Hnd_s Hnd_d) as (w' & Hrun & _ & Hs & Hd).
  rewrite Hrun in Hstep. injection Hstep as _ <-.
  set (new := to_transfer (dest_keys (folder_msgs fd)) (folder_msgs fs)) in *.
  set (set := list_to_set (folder_FLAGS fd) : gset string) in *.
  set (d0 := Server (folders (dest w)) (Some fixed_path)) in *.
  assert (Hsome : is_Some (lookup_folder d0 fixed_path)) by (exists fd; exact Hfd).
  destruct (fold_deliver_extends set fixed_path new d0 Hsome Hdest_all)
    as [Hext Hall'].
  split; [done |]. split; [by rewrite Hs |]. rewrite Hd.
  split; [done |]. split; [done |].
  exists fs, (fold_left (store_copy set) new fd).
  split; [exact Hfs |]. split.
  - rewrite fold_deliver_folders by done. cbn [folders fst snd].
    unfold find_folder.
    pose proof (lookup_folder_map (Server (folders d0) None) fixed_path
                  (fun f => if String.eqb (folder_name f) fixed_path
                            then fold_left (store_copy set) new f else f)) as Hmap.
    cbn [folders selected] in Hmap. rewrite Hmap.
    + assert (lookup_folder (Server (folders d0) None) fixed_path = Some fd) as ->
          by exact Hfd.
      cbn. by rewrite (lookup_folder_name _ _ _ Hfd).
    + intros f. destruct (String.eqb (folder_name f) fixed_path); [| done].
      apply fold_store_copy_name.
  - by apply covered_after_transfer.
Qed.

(** A loop over the directory map that returns leaves every entry settled. *)
Lemma first_run_settles sep dry_run missing : forall dir_map flag0 w x w1,
  all_distinct (folders (src w)) ->
  all_distinct (folders (dest w)) ->
  for_each dir_map (sync_folder sep dry_run missing) flag0 w = (inr x, w1) ->
  folders (src w1) = folders (src w) /\
  all_distinct (folders (dest w1)) /\
  extends (folders (dest w)) (folders (dest w1)) /\
  Forall (settled (folders (src w)) (folders (dest w1))) dir_map /\
  (dir_map <> [] -> sep <> "").
Proof.
  induction dir_map as [|e rest IH]; intros flag0 w x w1 Hs Hd Hrun.
  - cbn in Hrun. injection Hrun as _ <-.
    split; [done |]. split; [done |]. split; [apply extends_refl |]. by split.
  - rewrite for_each_cons in Hrun.
    destruct (sync_folder sep dry_run missing e flag0 w) as [[err | flag1] w0] eqn:Hstep;
      [done |].
    destruct e as [[path fl] fixed_path].
    destruct (folder_step_settles _ _ _ _ _ _ _ _ _ _ Hs Hd Hstep)
      as (Hsep & Hs0 & Hd0 & Hext0 & Hset0).
    destruct (IH flag1 w0 x w1) as (Hs1 & Hd1 & Hext1 & Hset1 & _);
      [by rewrite Hs0 | done | done |].
    split; [by rewrite Hs1 |]. split; [done |].
    split; [by eapply extends_trans |]. split; [| done].
    constructor.
    + by eapply settled_extends.
    + by rewrite <- Hs0.
Qed.


End SecondRunLoops.

Section CreatedOnly.

Local Open Scope list_scope.

Lemma created_only_refl w : created_only w w.
Proof. split; [done |]. exists []. by rewrite app_nil_r. Qed.

Lemma created_only_trans w1 w2 w3 :
  created_only w1 w2 -> created_only w2 w3 -> created_only w1 w3.
Proof.
  intros [Hs1 (e1 & Hd1 & He1)] [Hs2 (e2 & Hd2 & He2)].
  split; [congruence |]. exists (e1 ++ e2).
  split; [by rewrite Hd2, Hd1, app_assoc | by apply Forall_app].
Qed.

(** The loop over the missing folders only adds empty folders to the
    destination. *)
Lemma create_loop_created_only (missing : list (string * list string)) dry_run :
  keeps created_only
        (for_each missing
                  (fun m _ => if negb dry_run then create_folder Dest m.1 else ret tt)
                  tt).
Proof.
  apply (keeps_for_each _ created_only_refl created_only_trans).
  intros m [] _. destruct (negb dry_run); [| apply keeps_ret, created_only_refl].
  apply keeps_command.
  - intros w. split; [done |]. exists []. by rewrite app_nil_r.
  - intros w s a Hs. unfold srv_create_folder in Hs.
    destruct (lookup_folder (conn Dest w) m.1); [done |].
    injection Hs as <- <-. split; [done |]. cbn.
    eexists. split; [reflexivity |]. by constructor.
Qed.

Lemma all_distinct_created FD extra :
  all_distinct FD -> Forall (fun f => folder_msgs f = []) extra ->
  all_distinct (FD ++ extra).
Proof.
  intros Hall Hextra. apply Forall_app. split; [done |].
  eapply Forall_impl; [exact Hextra |]. intros f ->. apply NoDup_nil_2.
Qed.






End CreatedOnly.

Section CompletedRun.

Local Open Scope list_scope.

(** The servers a completed run leaves. *)
Lemma completed_run_state source destination src_sep dest_sep replace_sep
      folder_filter dry_run :
  all_distinct (folders source) ->
  all_distinct (folders destination) ->
  reports_separator source src_sep ->
  reports_separator destination dest_sep ->
  (run source destination replace_sep folder_filter dry_run).1 = inr tt ->
  let dir_map := dir_map_of source src_sep dest_sep replace_sep folder_filter in
  let final := (run source destination replace_sep folder_filter dry_run).2 in
  folders (src final) = folders source /\
  all_distinct (folders (dest final)) /\
  (exists extra, extends (folders destination ++ extra) (folders (dest final))) /\
  Forall (settled (folders source) (folders (dest final))) dir_map /\
  (dir_map <> [] -> src_sep <> "").
Proof.
  intros Hsrc Hdest Hssep Hdsep. cbv zeta.
  rewrite (run_after_listings _ _ _ _ _ _ _ Hssep Hdsep). cbv zeta.
  set (dir_map := dir_map_of source src_sep dest_sep replace_sep folder_filter).
  set (missing :=
         missing_of source destination src_sep dest_sep replace_sep folder_filter).
  set (w0 := World source destination [ListFolders Src; ListFolders Dest]).
  rewrite bind_run.
  pose proof (create_loop_created_only missing dry_run w0)
    as [Hcs (extra & Hcd & Hextra)].
  destruct (for_each missing
              (fun m _ => if negb dry_run then create_folder Dest m.1 else ret tt)
              tt w0) as [[err | u] wc] eqn:Hcreate; [done |].
  cbn [snd] in Hcs, Hcd. cbn [w0 src dest] in Hcs, Hcd.
  rewrite bind_run.
  destruct (for_each dir_map (sync_folder src_sep dry_run missing) None wc)
    as [[err | x] w1] eqn:Hloop; [done |].
  intros _. cbn [ret snd].
  destruct (first_run_settles src_sep dry_run missing dir_map None wc x w1)
    as (Hs1 & Hd1 & Hext & Hsettled & Hsep).
  { by rewrite Hcs. }
  { rewrite Hcd. by apply all_distinct_created. }
  { exact Hloop. }
  rewrite Hcs in Hs1, Hsettled. rewrite Hcd in Hext.
  split; [done |]. split; [done |]. split; [by exists extra |]. by split.
Qed.

(** X18. What a completed run guarantees: for every entry of the directory
    map the destination holds the mapped folder, and every non-deleted
    message of the source folder has its identifying header block on a
    non-deleted message of that destination folder.  The message
    identifiers of every folder are taken to be distinct, as IMAP has
    them. *)
Theorem completed_run_covers_source (source destination : server)
        (src_sep dest_sep replace_sep : string)
        (folder_filter : option (list string -> list string)) (dry_run : bool) :
  all_distinct (folders source) ->
  all_distinct (folders destination) ->
  reports_separator source src_sep ->
  reports_separator destination dest_sep ->
  (run source destination replace_sep folder_filter dry_run).1 = inr tt ->
  let final := (run source destination replace_sep folder_filter dry_run).2 in
  forall path fl fixed_path,
    (path, fl, fixed_path)
      ∈ dir_map_of source src_sep dest_sep replace_sep folder_filter ->
    exists src_folder dest_folder,
      lookup_folder source path = Some src_folder /\
      lookup_folder (dest final) fixed_path = Some dest_folder /\
      forall m, m ∈ folder_msgs src_folder -> is_deleted m = false ->
                exists m', m' ∈ folder_msgs dest_folder /\
                           is_deleted m' = false /\ key_of m' = key_of m.
Proof.
  intros Hsrc Hdest Hssep Hdsep Hok final path fl fixed_path Hin.
  destruct (completed_run_state _ _ _ _ _ _ _ Hsrc Hdest Hssep Hdsep Hok)
    as (_ & _ & _ & Hsettled & _).
  rewrite Forall_forall in Hsettled.
  destruct (Hsettled _ Hin) as (fs & fd & Hfs & Hfd & Hcov).
  exists fs, fd. split; [exact Hfs |]. split; [exact Hfd |].
  intros m Hm Hdel.
  assert (Hkey : key_of m ∈ dest_keys (folder_msgs fd)).
  { apply Hcov. apply not_deleted_elem. by split. }
  apply dest_keys_elem in Hkey as (m' & Hm' & Hk).
  apply not_deleted_elem in Hm' as [Hm' Hd'].
  exists m'. by repeat split.
Qed.

End CompletedRun.

Lemma completed_run_covers_source_witness :
  let final := (run sample_source sample_destination "_" None false).2 in
  exists src_folder dest_folder,
    lookup_folder sample_source "INBOX" = Some src_folder /\
    lookup_folder (dest final) "INBOX" = Some dest_folder /\
    forall m, m ∈ folder_msgs src_folder -> is_deleted m = false ->
              exists m', m' ∈ folder_msgs dest_folder /\
                         is_deleted m' = false /\ key_of m' = key_of m.
Proof.
  apply (completed_run_covers_source sample_source sample_destination "/" "/" "_"
                                     None false) with (fl := []).
  - repeat constructor; apply (bool_decide_unpack _); vm_compute; exact I.
  - repeat constructor; apply (bool_decide_unpack _); vm_compute; exact I.
  - eexists _, _. split; reflexivity.
  - eexists _, _. split; reflexivity.
  - vm_compute. reflexivity.
  - vm_compute. apply list_elem_of_here.
Defined.

Section Idempotence.

Local Open Scope list_scope.


End Idempotence.


Section DryRunMissing.

Local Open Scope list_scope.

(** A folder step only returns when the destination holds the folder. *)
Lemma sync_folder_needs_dest sep dry_run missing path fl fixed_path flag0 w x w1 :
  sync_folder sep dry_run missing (path, fl, fixed_path) flag0 w = (inr x, w1) ->
  fixed_path ∈ folder_names (dest w).
Proof.
  unfold sync_folder. rewrite not_in_missing_always, orb_true_r.
  rewrite bind_run.
  destruct (Py.str_split path sep) as [err | parts]; [done |]. cbn [ret].
  rewrite bind_run, bind_run.
  unfold select_folder at 1, command, srv_select_folder. cbn [conn].
  destruct (lookup_folder (dest w) fixed_path) as [fd|] eqn:Hdest; [| done].
  intros _. unfold lookup_folder in Hdest.
  apply List.find_some in Hdest as [Hin Hname]. apply String.eqb_eq in Hname.
  rewrite <- Hname. unfold folder_names.
  apply list_elem_of_In, List.in_map. exact Hin.
Qed.

Lemma sync_folder_creates_nothing sep dry_run missing e flag0 :
  keeps creates_nothing (sync_folder sep dry_run missing e flag0).
Proof.
  apply (keeps_sync_folder _ creates_nothing_refl creates_nothing_trans).
  - apply creates_nothing_select.
  - intros c. by apply creates_nothing_query.
  - intros c ids fields. by apply creates_nothing_query.
  - apply (keeps_transfer_chunk_of _ creates_nothing_refl creates_nothing_trans).
    + intros c ids fields. by apply creates_nothing_query.
    + apply creates_nothing_append.
Qed.

(** The loop over the directory map only returns when the destination
    holds every mapped folder at its start. *)
Lemma sync_loop_needs_folders sep dry_run missing : forall dir_map flag0 w x w1,
  for_each dir_map (sync_folder sep dry_run missing) flag0 w = (inr x, w1) ->
  Forall (fun e : entry => e.2 ∈ folder_names (dest w)) dir_map.
Proof.
  induction dir_map as [|e rest IH]; intros flag0 w x w1 Hrun; [done |].
  rewrite for_each_cons in Hrun.
  pose proof (sync_folder_creates_nothing sep dry_run missing e flag0 w)
    as [_ Hnames].
  destruct (sync_folder sep dry_run missing e flag0 w) as [[err | flag1] w0] eqn:Hstep;
    [done |].
  cbn [snd] in Hnames. constructor.
  - destruct e as [[path fl] fixed_path]. by eapply sync_folder_needs_dest.
  - rewrite <- Hnames. by eapply IH.
Qed.

Lemma listed_nothing_missing destination (dir_map : list entry) :
  Forall (fun e : entry => e.2 ∈ folder_names destination) dir_map ->
  find_missing dir_map (srv_list_folders destination) = [].
Proof.
  intros Hall. unfold find_missing. cbv zeta.
  induction Hall as [|e rest He _ IH]; [done |].
  cbn [List.filter].
  assert (Hin : e.2 ∈ (list_to_set (map (fun d : listing => d.2)
                                        (srv_list_folders destination))
                       : gset string)).
  { apply elem_of_list_to_set. unfold srv_list_folders. rewrite List.map_map.
    exact He. }
  rewrite (bool_decide_eq_true_2 _ Hin). cbn [negb]. exact IH.
Qed.

Lemma skip_loop {A} (l : list A) w :
  for_each l (fun _ _ => ret tt) tt w = (inr tt, w).
Proof. induction l as [|a rest IH]; [done |]. by rewrite for_each_cons. Qed.

(** X19. A dry run never completes when a folder is missing: if the
    directory map has an entry whose mapped path the destination did not
    list, the run with [dry_run = true] ends with an exception. *)
Theorem dry_run_fails_on_missing_folder (source destination : server)
        (src_sep dest_sep replace_sep : string)
        (folder_filter : option (list string -> list string)) :
  reports_separator source src_sep ->
  reports_separator destination dest_sep ->
  missing_of source destination src_sep dest_sep replace_sep folder_filter <> [] ->
  exists err, (run source destination replace_sep folder_filter true).1 = inl err.
Proof.
  intros Hssep Hdsep Hmissing.
  destruct (run source destination replace_sep folder_filter true).1
    as [err | []] eqn:Hrun; [by exists err |].
  destruct Hmissing. revert Hrun.
  rewrite (run_after_listings _ _ _ _ _ _ _ Hssep Hdsep). cbv zeta. cbn [negb].
  rewrite bind_run, skip_loop, bind_run.
  set (w0 := World source destination [ListFolders Src; ListFolders Dest]).
  destruct (for_each _ _ None w0) as [[err | x] w1] eqn:Hloop; [done |].
  intros _. apply sync_loop_needs_folders in Hloop.
  unfold missing_of. by apply listed_nothing_missing.
Qed.

End DryRunMissing.

Lemma dry_run_fails_on_missing_folder_witness :
  exists err, (run source_with_archive sample_destination "_" None true).1 = inl err.
Proof.
  apply (dry_run_fails_on_missing_folder source_with_archive sample_destination
                                         "/" "/" "_" None).
  - eexists _, _. split; reflexivity.
  - eexists _, _. split; reflexivity.
  - vm_compute. discriminate.
Defined.

Section RealRun.

Local Open Scope list_scope.

Lemma lookup_folder_none s name :
  lookup_folder s name = None <-> name ∉ folder_names s.
Proof.
  unfold lookup_folder, folder_names. split.
  - intros Hnone Hin. apply list_elem_of_In, List.in_map_iff in Hin as (f & Hname & Hin).
    eapply List.find_none in Hnone; [| exact Hin]. cbn in Hnone.
    apply String.eqb_neq in Hnone. done.
  - intros Hout.
    destruct (List.find _ (folders s)) as [f|] eqn:Hfind; [| done].
    apply List.find_some in Hfind as [Hin Hname]. apply String.eqb_eq in Hname.
    destruct Hout. rewrite <- Hname. by apply list_elem_of_In, List.in_map.
Qed.

Lemma lookup_folder_some s name :
  name ∈ folder_names s -> is_Some (lookup_folder s name).
Proof.
  intros Hin. destruct (lookup_folder s name) as [f|] eqn:Hf; [by eexists |].
  by apply lookup_folder_none in Hf.
Qed.

(** One [create_folder]: it returns exactly when the destination has no
    folder of that name, and then the name is added at the end. *)
Lemma create_folder_returns path w :
  (path ∉ folder_names (dest w) ->
   exists w', create_folder Dest path w = (inr tt, w') /\
              folder_names (dest w') = folder_names (dest w) ++ [path]) /\
  (forall u w', create_folder Dest path w = (inr u, w') ->
                (path ∉ folder_names (dest w)) /\
                folder_names (dest w') = folder_names (dest w) ++ [path]).
Proof.
  unfold create_folder, command, srv_create_folder. cbn [conn].
  destruct (lookup_folder (dest w) path) as [f|] eqn:Hf.
  - split; [| done]. intros Hout. apply lookup_folder_none in Hout. congruence.
  - apply lookup_folder_none in Hf. split.
    + intros _. eexists. split; [reflexivity |].
      unfold folder_names. cbn. by rewrite List.map_app.
    + intros u w' [= <- <-]. split; [done |].
      unfold folder_names. cbn. by rewrite List.map_app.
Qed.

(** The creation loop returns when the paths are pairwise distinct and new
    to the destination. *)
Lemma create_loop_returns : forall (missing : list (string * list string)) w,
  NoDup (map fst missing) ->
  (forall m, m ∈ missing -> m.1 ∉ folder_names (dest w)) ->
  exists wc,
    for_each missing (fun m _ => create_folder Dest m.1) tt w = (inr tt, wc) /\
    folder_names (dest wc) = folder_names (dest w) ++ map fst missing.
Proof.
  induction missing as [|m rest IH]; intros w Hnd Hnew.
  - exists w. cbn. by rewrite app_nil_r.
  - cbn [map] in Hnd. apply NoDup_cons in Hnd as [Hm Hnd].
    destruct (create_folder_returns m.1 w) as [Hcreate _].
    destruct Hcreate as (w' & Hrun & Hnames); [apply Hnew, list_elem_of_here |].
    destruct (IH w' Hnd) as (wc & Hloop & Hnames').
    { intros m' Hm'. rewrite Hnames. intros Hin.
      apply elem_of_app in Hin as [Hin | Hin].
      - by eapply Hnew; [apply list_elem_of_further |].
      - apply list_elem_of_singleton in Hin. apply Hm. rewrite <- Hin.
        by apply (list_elem_of_fmap_2 fst). }
    exists wc. rewrite for_each_cons, Hrun. split; [exact Hloop |].
    rewrite Hnames', Hnames. cbn. by rewrite <- app_assoc.
Qed.

(** The creation loop only returns when the paths are pairwise distinct. *)
Lemma create_loop_distinct : forall (missing : list (string * list string)) w u wc,
  for_each missing (fun m _ => create_folder Dest m.1) tt w = (inr u, wc) ->
  NoDup (map fst missing) /\
  (forall m, m ∈ missing -> m.1 ∉ folder_names (dest w)).
Proof.
  induction missing as [|m rest IH]; intros w u wc Hrun.
  - split; [apply NoDup_nil_2 |]. intros m Hm. by apply elem_of_nil in Hm.
  - rewrite for_each_cons in Hrun.
    destruct (create_folder Dest m.1 w) as [[err | []] w'] eqn:Hstep; [done |].
    destruct (create_folder_returns m.1 w) as [_ Hcreate].
    destruct (Hcreate _ _ Hstep) as [Hnew Hnames].
    destruct (IH _ _ _ Hrun) as [Hnd Hrest]. rewrite Hnames in Hrest.
    split.
    + cbn [map]. apply NoDup_cons. split; [| exact Hnd].
      intros Hin. apply list_elem_of_In, List.in_map_iff in Hin as (m' & Heq & Hin).
      apply list_elem_of_In in Hin. apply (Hrest m' Hin).
      apply elem_of_app. right. rewrite Heq. apply list_elem_of_here.
    + intros m' Hm'. apply elem_of_cons in Hm' as [-> | Hm']; [done |].
      intros Hin. apply (Hrest m' Hm'). apply elem_of_app. by left.
Qed.

(** The loop over the directory map returns when the source separator is
    not empty and both servers hold the folders of every entry. *)
Lemma sync_loop_returns sep dry_run missing : forall dir_map flag0 w,
  sep <> "" ->
  all_distinct (folders (src w)) ->
  all_distinct (folders (dest w)) ->
  Forall (fun e : entry => e.1.1 ∈ folder_names (src w) /\
                           e.2 ∈ folder_names (dest w)) dir_map ->
  exists x w1, for_each dir_map (sync_folder sep dry_run missing) flag0 w = (inr x, w1).
Proof.
  induction dir_map as [|e rest IH]; intros flag0 w Hsep Hs Hd Hall.
  - by exists flag0, w.
  - inversion Hall as [|? ? [Hpath Hfixed] Hrest]; subst.
    destruct e as [[path fl] fixed_path]. cbn [fst snd] in Hpath, Hfixed.
    destruct (lookup_folder_some _ _ Hpath) as [fs Hfs].
    destruct (lookup_folder_some _ _ Hfixed) as [fd Hfd].
    assert (Hnd_s : NoDup (map uid (folder_msgs fs)))
      by (eapply all_distinct_elem; [exact Hs | exact Hfs]).
    assert (Hnd_d : NoDup (map uid (folder_msgs fd)))
      by (eapply all_distinct_elem; [exact Hd | exact Hfd]).
    destruct (folder_step_run sep dry_run missing path fixed_path fl flag0 w fs fd
                Hsep Hfs Hfd Hnd_s Hnd_d) as (w0 & Hrun & _ & Hs0 & Hd0).
    pose proof (sync_folder_creates_nothing sep dry_run missing
                  (path, fl, fixed_path) flag0 w) as [_ Hnames].
    rewrite Hrun in Hnames. cbn [snd] in Hnames.
    destruct (fold_deliver_extends
                (list_to_set (folder_FLAGS fd)) fixed_path
                (to_transfer (dest_keys (folder_msgs fd)) (folder_msgs fs))
                (Server (folders (dest w)) (Some fixed_path)))
      as [_ Hd0']; [by exists fd | exact Hd |].
    rewrite <- Hd0 in Hd0'.
    destruct (IH (Some (list_to_set (folder_FLAGS fd))) w0 Hsep) as (x & w1 & Hloop).
    + by rewrite Hs0.
    + exact Hd0'.
    + rewrite Hnames. unfold folder_names at 1. rewrite Hs0. exact Hrest.
    + exists x, w1. by rewrite for_each_cons, Hrun.
Qed.

Lemma dir_map_paths_listed source src_sep dest_sep replace_sep folder_filter e :
  e ∈ dir_map_of source src_sep dest_sep replace_sep folder_filter ->
  e.1.1 ∈ folder_names source.
Proof.
  unfold dir_map_of, build_dir_map. cbv zeta. intros He.
  assert (Hin : e ∈ sort (map (fun d : listing =>
                                 (d.2, d.1.1,
                                  fix_path src_sep dest_sep replace_sep d.2))
                              (srv_list_folders source))).
  { destruct folder_filter as [f|]; [| exact He].
    apply list_elem_of_In, List.filter_In in He as [He _].
    by apply list_elem_of_In. }
  rewrite sort_perm in Hin.
  apply list_elem_of_In, List.in_map_iff in Hin as (d & <- & Hd).
  unfold srv_list_folders in Hd. apply List.in_map_iff in Hd as (f & <- & Hf).
  cbn. unfold folder_names. by apply list_elem_of_In, List.in_map.
Qed.

Lemma dir_map_fixed_listed_or_missing dir_map dest_folder_data (e : entry) :
  e ∈ dir_map ->
  e.2 ∈ map (fun d : listing => d.2) dest_folder_data ++
        map fst (find_missing dir_map dest_folder_data).
Proof.
  intros He. apply elem_of_app.
  destruct (decide (e.2 ∈ map (fun d : listing => d.2) dest_folder_data))
    as [Hin | Hout]; [by left | right].
  unfold find_missing. cbv zeta. rewrite List.map_map. cbn [fst].
  apply list_elem_of_In, List.in_map_iff. exists e. split; [done |].
  apply List.filter_In. split; [by apply list_elem_of_In |].
  apply negb_true_iff, bool_decide_eq_false. intros Hin. apply Hout.
  by apply elem_of_list_to_set in Hin.
Qed.

(** X20. When does a run that is not dry complete?  With a non-empty source
    separator and distinct message identifiers in every folder: exactly
    when no two entries of the list of missing folders have the same
    mapped path.  Two source folders mapped to one missing path make the
    second [create_folder] fail; nothing else stops the run. *)
Theorem real_run_completes_iff (source destination : server)
        (src_sep dest_sep replace_sep : string)
        (folder_filter : option (list string -> list string)) :
  all_distinct (folders source) ->
  all_distinct (folders destination) ->
  reports_separator source src_sep ->
  reports_separator destination dest_sep ->
  src_sep <> "" ->
  (run source destination replace_sep folder_filter false).1 = inr tt
  <-> NoDup (map fst (missing_of source destination src_sep dest_sep replace_sep
                                 folder_filter)).
Proof.
  intros Hsrc Hdest Hssep Hdsep Hsep.
  rewrite (run_after_listings _ _ _ _ _ _ _ Hssep Hdsep). cbv zeta. cbn [negb].
  set (dir_map := dir_map_of source src_sep dest_sep replace_sep folder_filter).
  set (missing :=
         missing_of source destination src_sep dest_sep replace_sep folder_filter).
  set (w0 := World source destination [ListFolders Src; ListFolders Dest]).
  rewrite bind_run. split.
  - destruct (for_each missing (fun m _ => create_folder Dest m.1) tt w0)
      as [[err | u] wc] eqn:Hcreate; [done |].
    intros _. by apply create_loop_distinct in Hcreate as [Hnd _].
  - intros Hnd.
    destruct (create_loop_returns missing w0 Hnd) as (wc & Hcreate & Hnames).
    { intros m Hm. unfold folder_names. cbn.
      apply missing_not_listed in Hm. unfold srv_list_folders in Hm.
      by rewrite List.map_map in Hm. }
    pose proof (create_loop_created_only missing false w0)
      as [Hcs (extra & Hcd & Hextra)].
    cbn [negb] in Hcs, Hcd. rewrite Hcreate in Hcs, Hcd |- *.
    cbn [snd w0 src dest] in Hcs, Hcd.
    rewrite bind_run.
    destruct (sync_loop_returns src_sep false missing dir_map None wc Hsep)
      as (x & w1 & Hloop).
    + by rewrite Hcs.
    + rewrite Hcd. by apply all_distinct_created.
    + apply Forall_forall. intros e He. split.
      * unfold folder_names. rewrite Hcs. by eapply dir_map_paths_listed.
      * rewrite Hnames. cbn [w0 dest].
        pose proof (dir_map_fixed_listed_or_missing dir_map
                      (srv_list_folders destination) e He) as Hin.
        unfold srv_list_folders in Hin at 1. by rewrite List.map_map in Hin.
    + by rewrite Hloop.
Qed.

End RealRun.

Lemma real_run_completes_iff_witness :
  (run source_with_archive sample_destination "_" None false).1 = inr tt
  <-> NoDup (map fst (missing_of source_with_archive sample_destination
                                 "/" "/" "_" None)).
Proof.
  apply (real_run_completes_iff source_with_archive sample_destination
                                "/" "/" "_" None).
  - repeat constructor; apply (bool_decide_unpack _); vm_compute; exact I.
  - repeat constructor; apply (bool_decide_unpack _); vm_compute; exact I.
  - eexists _, _. split; reflexivity.
  - eexists _, _. split; reflexivity.
  - done.
Defined.

Section DestinationGrows.

Local Open Scope list_scope.

Lemma only_grows_same w w' :
  folders (dest w') = folders (dest w) -> only_grows w w'.
Proof.
  intros Hsame. exists (folders (dest w)), [].
  split; [by rewrite app_nil_r | apply extends_refl].
Qed.

Lemma only_grows_refl w : only_grows w w.
Proof. by apply only_grows_same. Qed.

Lemma only_grows_trans w1 w2 w3 :
  only_grows w1 w2 -> only_grows w2 w3 -> only_grows w1 w3.
Proof.
  intros (k1 & a1 & H2 & E1) (k2 & a2 & H3 & E2).
  rewrite H2 in E2. unfold extends in E2.
  apply Forall2_app_inv_l in E2 as (k2a & k2b & Ea & Eb & ->).
  exists k2a, (k2b ++ a2). split; [by rewrite H3, app_assoc |].
  by eapply extends_trans.
Qed.

Lemma only_grows_query {A} c e (f : server -> Py.exn + A) :
  keeps only_grows (query c e f).
Proof. apply keeps_query. intros w. by apply only_grows_same. Qed.

Lemma only_grows_select c path : keeps only_grows (select_folder c path).
Proof.
  apply keeps_command.
  - intros w. by apply only_grows_same.
  - intros w s a Hs. unfold srv_select_folder in Hs.
    destruct (lookup_folder (conn c w) path); [| done].
    injection Hs as <- <-. apply only_grows_same. by destruct c.
Qed.

Lemma only_grows_create path : keeps only_grows (create_folder Dest path).
Proof.
  apply keeps_command.
  - intros w. by apply only_grows_same.
  - intros w s a Hs. unfold srv_create_folder in Hs.
    destruct (lookup_folder (conn Dest w) path); [done |].
    injection Hs as <- <-. cbn.
    eexists _, _. split; [reflexivity | apply extends_refl].
Qed.

Lemma only_grows_append path msg fl date :
  keeps only_grows (append Dest path msg fl date).
Proof.
  apply keeps_command.
  - intros w. by apply only_grows_same.
  - intros w s a Hs. unfold srv_append in Hs. cbn [conn] in Hs.
    destruct (lookup_folder (dest w) path) as [target|]; [| done].
    injection Hs as <- <-. cbn.
    eexists _, []. split; [by rewrite app_nil_r |].
    unfold extends. induction (folders (dest w)) as [|g rest IH]; cbn; [done |].
    constructor; [| exact IH].
    destruct (String.eqb (folder_name g) path).
    + by eexists [_].
    + exists []. by rewrite with_more_nil.
Qed.

(** On the modelled servers the folders of the destination are only
    extended. *)
Lemma destination_extends (source destination : server) (replace_sep : string)
        (folder_filter : option (list string -> list string)) (dry_run : bool) :
  exists kept added,
    folders (dest (run source destination replace_sep folder_filter dry_run).2)
    = kept ++ added /\
    extends (folders destination) kept.
Proof.
  change (only_grows (World source destination [])
                     (run source destination replace_sep folder_filter dry_run).2).
  apply (keeps_sync_core only_grows only_grows_refl only_grows_trans).
  - intros c. apply only_grows_query.
  - apply only_grows_select.
  - intros c. apply only_grows_query.
  - intros c ids fields. apply only_grows_query.
  - apply (keeps_transfer_chunk_of only_grows only_grows_refl only_grows_trans).
    + intros c ids fields. apply only_grows_query.
    + apply only_grows_append.
  - right. apply only_grows_create.
Qed.

Lemma holdings_with_more f extra : grown (holdings f) (holdings (with_more f extra)).
Proof.
  split; [done |]. cbn. rewrite List.map_app. by eexists.
Qed.

(** X21. Whatever a run does and however it ends, the destination loses
    nothing: every folder it had is still there, in its place and under its
    name, and holds the messages it had, in their order and under their
    identifiers, with their content and internal date, followed by the
    appended ones; created folders come after them.  (Nothing is said of
    the flags: the fetches of the run are not of the [PEEK] kind.) *)
Theorem destination_only_grows (source destination : server) (replace_sep : string)
        (folder_filter : option (list string -> list string)) (dry_run : bool) :
  exists kept added,
    map holdings
        (folders (dest (run source destination replace_sep folder_filter dry_run).2))
    = kept ++ added /\
    Forall2 grown (map holdings (folders destination)) kept.
Proof.
  destruct (destination_extends source destination replace_sep folder_filter
                                dry_run) as (kept & added & Hfolders & Hext).
  exists (map holdings kept), (map holdings added).
  split; [by rewrite Hfolders, List.map_app |].
  unfold extends in Hext. clear Hfolders.
  induction Hext as [|f f' l l' [extra ->] _ IH]; cbn; [constructor |].
  constructor; [apply holdings_with_more | exact IH].
Qed.

End DestinationGrows.

Section DryRunIsReal.

Local Open Scope list_scope.

Lemma sync_folder_ignores_dry_run sep missing e flag0 :
  sync_folder sep true missing e flag0 = sync_folder sep false missing e flag0.
Proof.
  destruct e as [[path fl] fixed_path]. unfold sync_folder.
  by rewrite not_in_missing_always.
Qed.

Lemma sync_loop_ignores_dry_run sep missing : forall dir_map flag0 w,
  for_each dir_map (sync_folder sep true missing) flag0 w
  = for_each dir_map (sync_folder sep false missing) flag0 w.
Proof.
  induction dir_map as [|e rest IH]; intros flag0 w; [done |].
  rewrite !for_each_cons, sync_folder_ignores_dry_run.
  destruct (sync_folder sep false missing e flag0 w) as [[err | flag1] w0]; [done |].
  apply IH.
Qed.

(** X22. When no folder is missing at the destination, [dry_run] changes
    nothing: the run with [dry_run = true] makes the same calls, leaves the
    same servers and ends the same way as the run with [dry_run = false],
    appends included. *)
Theorem dry_run_is_a_real_run_when_nothing_is_missing
        (source destination : server) (src_sep dest_sep replace_sep : string)
        (folder_filter : option (list string -> list string)) :
  reports_separator source src_sep ->
  reports_separator destination dest_sep ->
  missing_of source destination src_sep dest_sep replace_sep folder_filter = [] ->
  run source destination replace_sep folder_filter true
  = run source destination replace_sep folder_filter false.
Proof.
  intros Hssep Hdsep Hmissing.
  rewrite !(run_after_listings _ _ _ _ _ _ _ Hssep Hdsep). cbv zeta.
  rewrite Hmissing, !bind_run. cbn [for_each ret].
  rewrite !bind_run. by rewrite sync_loop_ignores_dry_run.
Qed.

End DryRunIsReal.

Lemma dry_run_is_a_real_run_when_nothing_is_missing_witness :
  run sample_source sample_destination "_" None true
  = run sample_source sample_destination "_" None false.
Proof.
  apply (dry_run_is_a_real_run_when_nothing_is_missing
           sample_source sample_destination "/" "/" "_" None).
  - eexists _, _. split; reflexivity.
  - eexists _, _. split; reflexivity.
  - reflexivity.
Defined.

Section FolderStepAppends.

Local Open Scope list_scope.

Lemma delivery_of_appends l : omap delivery l = omap delivery (List.filter is_append l).
Proof.
  induction l as [|e rest IH]; [done |].
  destruct e as [| | | | |c path msg fl date]; cbn; try exact IH.
  destruct c; cbn; by rewrite ?IH.
Qed.

Lemma delivery_of_copies set fixed_path ms :
  omap delivery (map (append_call set fixed_path) ms)
  = map (fun m => (fixed_path, mail m)) ms.
Proof. induction ms as [|m rest IH]; [done |]. cbn. by rewrite IH. Qed.

Lemma fold_store_copy_mail set ms : forall f,
  map mail (folder_msgs (fold_left (store_copy set) ms f))
  = map mail (folder_msgs f) ++ map mail ms.
Proof.
  induction ms as [|m rest IH]; intros f; cbn [fold_left].
  - cbn. by rewrite app_nil_r.
  - rewrite IH. cbn. rewrite List.map_app. cbn. by rewrite <- app_assoc.
Qed.

(** The folder that received the copies. *)
Lemma fold_deliver_folder set fixed_path ms s fd :
  lookup_folder s fixed_path = Some fd ->
  lookup_folder (fold_left (deliver set fixed_path) ms s) fixed_path
  = Some (fold_left (store_copy set) ms fd).
Proof.
  intros Hfd. rewrite fold_deliver_folders by by eexists.
  rewrite lookup_folder_map.
  - rewrite Hfd. cbn. by rewrite (lookup_folder_name _ _ _ Hfd).
  - intros f. destruct (String.eqb (folder_name f) fixed_path); [| done].
    apply fold_store_copy_name.
Qed.

(** X16. A folder step on a folder that both servers hold (a non-empty
    source separator, distinct message identifiers in both folders)
    returns, dry run or not, and what it appends is, once each and in the
    order of the source folder, the content and internal date of every
    non-deleted source message whose identifying header block no
    non-deleted destination message has, all to the mapped folder.  That
    folder then holds the mail it held followed by these copies. *)
Theorem folder_step_appends_the_new_messages
        (src_dir_separator : string) (dry_run : bool)
        (missing_folders : list (string * list string))
        (path fixed_path : string) (fl : list string)
        (dest_flag_set0 : option (gset string)) (w : world)
        (src_folder dest_folder : folder) :
  src_dir_separator <> "" ->
  lookup_folder (src w) path = Some src_folder ->
  lookup_folder (dest w) fixed_path = Some dest_folder ->
  NoDup (map uid (folder_msgs src_folder)) ->
  NoDup (map uid (folder_msgs dest_folder)) ->
  let new := to_transfer (dest_keys (folder_msgs dest_folder))
                         (folder_msgs src_folder) in
  exists x w' dest_folder',
    sync_folder src_dir_separator dry_run missing_folders
                (path, fl, fixed_path) dest_flag_set0 w
    = (inr x, w') /\
    omap delivery (log w')
    = omap delivery (log w) ++ map (fun m => (fixed_path, mail m)) new /\
    lookup_folder (dest w') fixed_path = Some dest_folder' /\
    map mail (folder_msgs dest_folder')
    = map mail (folder_msgs dest_folder) ++ map mail new.
Proof.
  intros Hsep Hsrc Hdest Hnd_src Hnd_dest new.
  destruct (folder_step_run src_dir_separator dry_run missing_folders path
              fixed_path fl dest_flag_set0 w src_folder dest_folder
              Hsep Hsrc Hdest Hnd_src Hnd_dest)
    as (w' & Hrun & Hlog & _ & Hd).
  fold new in Hlog, Hd.
  eexists _, w', _. split; [exact Hrun |]. split; [| split].
  - rewrite delivery_of_appends, Hlog, omap_app, delivery_of_copies.
    by rewrite <- delivery_of_appends.
  - rewrite Hd. by apply fold_deliver_folder.
  - apply fold_store_copy_mail.
Qed.

End FolderStepAppends.

Lemma folder_step_appends_the_new_messages_witness :
  let src_folder := Folder [] (Some "/") "INBOX" system_flags sample_inbox in
  let dest_folder :=
    Folder [] (Some "/") "INBOX" system_flags
           [sample_message 7 "mid1 d1" 100 ["\Seen"]] in
  let w := World sample_source sample_destination [] in
  let new := to_transfer (dest_keys (folder_msgs dest_folder))
                         (folder_msgs src_folder) in
  exists x w' dest_folder',
    sync_folder "/" false [] ("INBOX", [], "INBOX") None w = (inr x, w') /\
    omap delivery (log w')
    = (omap delivery (log w) ++ map (fun m => ("INBOX", mail m)) new)%list /\
    lookup_folder (dest w') "INBOX" = Some dest_folder' /\
    map mail (folder_msgs dest_folder')
    = (map mail (folder_msgs dest_folder) ++ map mail new)%list.
Proof.
  intros src_folder dest_folder w new.
  apply (folder_step_appends_the_new_messages
           "/" false [] "INBOX" "INBOX" [] None w src_folder dest_folder).
  - done.
  - reflexivity.
  - reflexivity.
  - apply (bool_decide_unpack _). vm_compute. exact I.
  - apply (bool_decide_unpack _). vm_compute. exact I.
Defined.
